(** * Alaadin trip control: the AI-assisted structured-data editor

    A shallow embedding of [callOpenRouter], [slugify], [HumanReadableDisplay],
    [AIAssistedEditor] and [TourEditor.handleSave], with the parts of the
    JavaScript platform they call ([String.prototype.trim], global regular
    expression replacement, [JSON.stringify], [JSON.parse]).

    JavaScript strings are sequences of UTF-16 code units; they are modelled
    as lists of [N].  Event handlers are modelled as functions from the state
    they close over to the state after the handler has run, with the calls to
    [onChange], [toast], [console.error] and [onSave] recorded in logs. *)

From Stdlib Require Import List NArith ZArith Bool Lia String Ascii.
From Stdlib Require Import DecimalN DecimalPos.
Import ListNotations.

(** ** Strings *)

Definition codeUnit := N.
Definition jsstring := list codeUnit.

(** A literal of the source, as code units. *)
Definition js (s : string) : jsstring :=
  map N_of_ascii (list_ascii_of_string s).

Definition jsstring_eqb (a b : jsstring) : bool :=
  if list_eq_dec N.eq_dec a b then true else false.

Definition inRange (lo hi c : codeUnit) : bool :=
  (N.leb lo c && N.leb c hi)%bool.
Arguments inRange (lo hi c)%_N.

Definition cuLF : codeUnit := 10%N.
Definition cuQuote : codeUnit := 34%N.
Definition cuHyphen : codeUnit := 45%N.
Definition cuBackslash : codeUnit := 92%N.
Definition cuUnderscore : codeUnit := 95%N.
Definition cuBacktick : codeUnit := 96%N.

(** [WhiteSpace] and [LineTerminator] of ECMAScript: what [trim] strips and
    what [\s] matches. *)
Definition isWhiteSpace (c : codeUnit) : bool :=
  inRange 9 13 c || N.eqb c 32 || N.eqb c 160 || N.eqb c 5760
  || inRange 8192 8202 c || N.eqb c 8232 || N.eqb c 8233 || N.eqb c 8239
  || N.eqb c 8287 || N.eqb c 12288 || N.eqb c 65279.

Definition isDigit (c : codeUnit) : bool := inRange 48 57 c.
Definition isUpper (c : codeUnit) : bool := inRange 65 90 c.
Definition isLower (c : codeUnit) : bool := inRange 97 122 c.
Definition isLetter (c : codeUnit) : bool := isUpper c || isLower c.

(** [\w] is [[A-Za-z0-9_]]. *)
Definition isWordChar (c : codeUnit) : bool :=
  isLetter c || isDigit c || N.eqb c cuUnderscore.

Definition isHyphen (c : codeUnit) : bool := N.eqb c cuHyphen.
Definition isBacktick (c : codeUnit) : bool := N.eqb c cuBacktick.

(** Case folding of the [i] flag (no [u] flag): a code unit above 127 is
    never folded onto an ASCII one, so only the ASCII letters fold. *)
Definition canonicalize (c : codeUnit) : codeUnit :=
  if isLower c then (c - 32)%N else c.

Definition eqIgnoreCase (a b : codeUnit) : bool :=
  N.eqb (canonicalize a) (canonicalize b).

(** *** [String.prototype.trim] *)

Fixpoint trimStart (s : jsstring) : jsstring :=
  match s with
  | [] => []
  | c :: r => if isWhiteSpace c then trimStart r else s
  end.

Definition trimEnd (s : jsstring) : jsstring := rev (trimStart (rev s)).

Definition trim (s : jsstring) : jsstring := trimEnd (trimStart s).

(** *** Regular-expression replacement

    A pattern is given by its matcher: [m u] is the length of the match that
    starts at the head of [u], if there is one.  None of the patterns of this
    program matches the empty string. *)

Definition matcher := jsstring -> option nat.

(** [s.replace(/p/g, repl)]: every match, found left to right, the search
    resuming where the previous match ended.  [skip] counts the code units of
    the current match that are still to be dropped. *)
Fixpoint replaceAll (m : matcher) (repl : jsstring) (skip : nat) (s : jsstring)
  : jsstring :=
  match s with
  | [] => []
  | c :: r =>
      match skip with
      | S k => replaceAll m repl k r
      | O =>
          match m s with
          | Some (S n) => repl ++ replaceAll m repl n r
          | _ => c :: replaceAll m repl 0 r
          end
      end
  end.

(** [s.replace(/p/, repl)] without the [g] flag: the leftmost match only. *)
Fixpoint replaceFirst (m : matcher) (repl : jsstring) (s : jsstring) : jsstring :=
  match m s with
  | Some n => repl ++ skipn n s
  | None =>
      match s with
      | [] => []
      | c :: r => c :: replaceFirst m repl r
      end
  end.

(** [s.replace(/^p/, repl)]: a match can only start at index 0. *)
Definition replaceAtStart (m : matcher) (repl : jsstring) (s : jsstring) : jsstring :=
  match m s with
  | Some n => repl ++ skipn n s
  | None => s
  end.

(** Length of the longest prefix whose code units all satisfy [p]. *)
Fixpoint runLength (p : codeUnit -> bool) (s : jsstring) : nat :=
  match s with
  | c :: r => if p c then S (runLength p r) else O
  | [] => O
  end.

(** [p+]: greedy, at least one. *)
Definition matchRun (p : codeUnit -> bool) : matcher :=
  fun u => match runLength p u with O => None | n => Some n end.

Fixpoint startsWithIgnoreCase (pat u : jsstring) : bool :=
  match pat, u with
  | [], _ => true
  | p :: pat', c :: u' => eqIgnoreCase p c && startsWithIgnoreCase pat' u'
  | _ :: _, [] => false
  end.

Fixpoint startsWith (pat u : jsstring) : bool :=
  match pat, u with
  | [], _ => true
  | p :: pat', c :: u' => N.eqb p c && startsWith pat' u'
  | _ :: _, [] => false
  end.

Definition fence : jsstring := [cuBacktick; cuBacktick; cuBacktick].

(** [/```json/gi] *)
Definition reFenceJson : matcher :=
  fun u => if startsWithIgnoreCase (js "```json") u then Some 7 else None.

(** [/```[a-z]*\n/gi]: the letters are taken greedily; giving some back never
    helps, since the code unit after a shorter run is a letter, not a line
    feed. *)
Definition reFenceLang : matcher :=
  fun u =>
    if startsWith fence u then
      let rest := skipn 3 u in
      let k := runLength isLetter rest in
      match skipn k rest with
      | c :: _ => if N.eqb c cuLF then Some (3 + k + 1) else None
      | [] => None
      end
    else None.

(** [/```/g] *)
Definition reFence : matcher :=
  fun u => if startsWith fence u then Some 3 else None.

(** [/\s+/g] *)
Definition reSpaces : matcher := matchRun isWhiteSpace.

(** [/[^\w\-]+/g] *)
Definition isSlugJunk (c : codeUnit) : bool := negb (isWordChar c || isHyphen c).
Definition reNonWord : matcher := matchRun isSlugJunk.

(** [/\-\-+/g] *)
Definition reHyphens2 : matcher :=
  fun u => match runLength isHyphen u with
           | S (S n) => Some (S (S n))
           | _ => None
           end.

(** [/^-+/] *)
Definition reHyphens : matcher := matchRun isHyphen.

(** [/-+$/]: the run of hyphens must reach the end of the string. *)
Definition reHyphensEnd : matcher :=
  fun u => match u with
           | [] => None
           | _ :: _ => if forallb isHyphen u then Some (List.length u) else None
           end.

(** ** [callOpenRouter], line 46: cleaning the model's answer *)

Definition normalize (content : jsstring) : jsstring :=
  trim (replaceAll reFence [] 0
         (replaceAll reFenceLang [] 0
           (replaceAll reFenceJson [] 0 content))).

(** The two wrappings of an inner text in a fenced code block. *)
Definition wrapJsonFence (t : jsstring) : jsstring :=
  js "```json" ++ [cuLF] ++ t ++ [cuLF] ++ fence.

Definition wrapPlainFence (t : jsstring) : jsstring :=
  fence ++ [cuLF] ++ t ++ [cuLF] ++ fence.

(** Does the text contain three consecutive backticks? *)
Fixpoint hasFence (s : jsstring) : bool :=
  match s with
  | [] => false
  | _ :: r => startsWith fence s || hasFence r
  end.

(** A pattern that can only match where a fence starts. *)
Definition fenceOnly (m : matcher) : Prop :=
  forall u, startsWith fence u = false -> m u = None.

(** ** [slugify] *)

Section Slugify.

(** [String.prototype.toLowerCase] follows the Unicode case tables, which
    are not part of this repository; it is a parameter. *)
Variable toLowerCase : jsstring -> jsstring.

Definition slugify (text : jsstring) : jsstring :=
  replaceFirst reHyphensEnd []
    (replaceAtStart reHyphens []
      (replaceAll reHyphens2 [cuHyphen] 0
        (replaceAll reNonWord [] 0
          (replaceAll reSpaces [cuHyphen] 0
            (toLowerCase text))))).

End Slugify.

(** The restriction of [toLowerCase] to ASCII text. *)
Definition toLowerCaseAscii (s : jsstring) : jsstring :=
  map (fun c => if isUpper c then (c + 32)%N else c) s.

(** What a slug may contain: [a-z], [0-9], [_] and [-]. *)
Definition isSlugChar (c : codeUnit) : bool :=
  isLower c || isDigit c || N.eqb c cuUnderscore || isHyphen c.

Fixpoint hasDoubleHyphen (s : jsstring) : bool :=
  match s with
  | [] => false
  | c :: r => (isHyphen c && match r with d :: _ => isHyphen d | [] => false end)
              || hasDoubleHyphen r
  end.

Definition startsWithHyphen (s : jsstring) : bool :=
  match s with c :: _ => isHyphen c | [] => false end.

Definition endsWithHyphen (s : jsstring) : bool := startsWithHyphen (rev s).

(** Only lowercase word characters and single interior hyphens. *)
Definition wellFormedSlug (s : jsstring) : bool :=
  forallb isSlugChar s && negb (hasDoubleHyphen s)
  && negb (startsWithHyphen s) && negb (endsWithHyphen s).

(** ** Numbers

    A finite Number is identified by the decimal digits and the exponent that
    [Number::toString] prints for it: [Finite neg ds n] is
    [0.d1 d2 ... dk * 10^n] with the sign [neg], where [ds] are the digits of
    the integer [s] of the ECMAScript algorithm ([k] as small as possible, so
    no leading and no trailing zero); zero has no digit.  The model holds
    every decimal exactly; a JavaScript engine rounds the literal it reads
    to the nearest double. *)

Inductive number :=
| NaN
| Infinity (negative : bool)
| Finite (negative : bool) (digits : jsstring) (n : Z).

Definition cuZero : codeUnit := 48%N.
Definition isZeroDigit (c : codeUnit) : bool := N.eqb c cuZero.

Definition dropWhile (p : codeUnit -> bool) (s : jsstring) : jsstring :=
  skipn (runLength p s) s.

Definition dropWhileEnd (p : codeUnit -> bool) (s : jsstring) : jsstring :=
  rev (dropWhile p (rev s)).

Definition headIs (p : codeUnit -> bool) (s : jsstring) : bool :=
  match s with c :: _ => p c | [] => false end.

(** The shape of the digits of a Number value. *)
Definition wfNumber (x : number) : bool :=
  match x with
  | Finite _ ds n =>
      forallb isDigit ds
      && negb (headIs isZeroDigit ds) && negb (headIs isZeroDigit (rev ds))
      && match ds with [] => Z.eqb n 0 | _ => true end
  | _ => true
  end.

Definition isFiniteNumber (x : number) : bool :=
  match x with Finite _ _ _ => true | _ => false end.

Definition isZeroNumber (x : number) : bool :=
  match x with Finite _ [] _ => true | _ => false end.

Definition isNegativeZero (x : number) : bool :=
  match x with Finite true [] _ => true | _ => false end.

Fixpoint uintToString (u : Decimal.uint) : jsstring :=
  match u with
  | Decimal.Nil => []
  | Decimal.D0 r => 48%N :: uintToString r
  | Decimal.D1 r => 49%N :: uintToString r
  | Decimal.D2 r => 50%N :: uintToString r
  | Decimal.D3 r => 51%N :: uintToString r
  | Decimal.D4 r => 52%N :: uintToString r
  | Decimal.D5 r => 53%N :: uintToString r
  | Decimal.D6 r => 54%N :: uintToString r
  | Decimal.D7 r => 55%N :: uintToString r
  | Decimal.D8 r => 56%N :: uintToString r
  | Decimal.D9 r => 57%N :: uintToString r
  end.

Fixpoint uintOfString (s : jsstring) : Decimal.uint :=
  match s with
  | [] => Decimal.Nil
  | c :: r =>
      let u := uintOfString r in
      if N.eqb c 48 then Decimal.D0 u else if N.eqb c 49 then Decimal.D1 u
      else if N.eqb c 50 then Decimal.D2 u else if N.eqb c 51 then Decimal.D3 u
      else if N.eqb c 52 then Decimal.D4 u else if N.eqb c 53 then Decimal.D5 u
      else if N.eqb c 54 then Decimal.D6 u else if N.eqb c 55 then Decimal.D7 u
      else if N.eqb c 56 then Decimal.D8 u else if N.eqb c 57 then Decimal.D9 u
      else Decimal.Nil
  end.

(** Decimal digits of a natural number, and back. *)
Definition decimal (x : N) : jsstring := uintToString (N.to_uint x).
Definition digitsValue (s : jsstring) : N := N.of_uint (uintOfString s).

Definition cuPlus : codeUnit := 43%N.
Definition cuDot : codeUnit := 46%N.
Definition cuLowerE : codeUnit := 101%N.
Definition cuUpperE : codeUnit := 69%N.

Definition signOf (negative : bool) : jsstring :=
  if negative then [cuHyphen] else [].

(** [Number::toString(x)], radix 10. *)
Definition Number_toString (x : number) : jsstring :=
  match x with
  | NaN => js "NaN"
  | Infinity neg => signOf neg ++ js "Infinity"
  | Finite neg ds n =>
      match ds with
      | [] => [cuZero]
      | d1 :: rest =>
          let k := Z.of_nat (List.length ds) in
          signOf neg ++
          (if (k <=? n)%Z && (n <=? 21)%Z then
             ds ++ repeat cuZero (Z.to_nat (n - k))
           else if (0 <? n)%Z && (n <=? 21)%Z then
             firstn (Z.to_nat n) ds ++ cuDot :: skipn (Z.to_nat n) ds
           else if (-6 <? n)%Z && (n <=? 0)%Z then
             cuZero :: cuDot :: repeat cuZero (Z.to_nat (- n)) ++ ds
           else
             let e := (n - 1)%Z in
             d1 :: match rest with [] => [] | _ => cuDot :: rest end
             ++ cuLowerE :: (if (e <? 0)%Z then cuHyphen else cuPlus)
             :: decimal (Z.to_N (Z.abs e)))
      end
  end.

(** *** Reading a JSON number: [-? int frac? exp?] *)

Definition takeDigits (s : jsstring) : jsstring * jsstring :=
  let k := runLength isDigit s in (firstn k s, skipn k s).

(** [0], or a digit from 1 to 9 and the digits after it. *)
Definition parseInt (s : jsstring) : option (jsstring * jsstring) :=
  match s with
  | c :: r =>
      if isZeroDigit c then Some ([c], r)
      else if isDigit c then Some (takeDigits s)
      else None
  | [] => None
  end.

Definition parseFraction (s : jsstring) : option (jsstring * jsstring) :=
  match s with
  | c :: r =>
      if N.eqb c cuDot then
        match takeDigits r with
        | ([], _) => None
        | (ds, r') => Some (ds, r')
        end
      else Some ([], s)
  | [] => Some ([], [])
  end.

Definition parseExponent (s : jsstring) : option (Z * jsstring) :=
  match s with
  | c :: r =>
      if N.eqb c cuLowerE || N.eqb c cuUpperE then
        let '(neg, r1) :=
          match r with
          | d :: r' => if N.eqb d cuHyphen then (true, r')
                       else if N.eqb d cuPlus then (false, r') else (false, r)
          | [] => (false, r)
          end in
        match takeDigits r1 with
        | ([], _) => None
        | (ds, r2) =>
            let e := Z.of_N (digitsValue ds) in
            Some (if neg then (- e)%Z else e, r2)
        end
      else Some (0%Z, s)
  | [] => Some (0%Z, [])
  end.

(** The Number denoted by the integer digits [int], the fraction digits
    [frac] and the exponent [e]. *)
Definition makeNumber (neg : bool) (int frac : jsstring) (e : Z) : number :=
  let all := int ++ frac in
  let lead := runLength isZeroDigit all in
  match dropWhileEnd isZeroDigit (skipn lead all) with
  | [] => Finite neg [] 0
  | ds => Finite neg ds (Z.of_nat (List.length int) - Z.of_nat lead + e)
  end.

Definition parseUnsigned (neg : bool) (s : jsstring) : option (number * jsstring) :=
  match parseInt s with
  | None => None
  | Some (i, r1) =>
      match parseFraction r1 with
      | None => None
      | Some (f, r2) =>
          match parseExponent r2 with
          | None => None
          | Some (e, r3) => Some (makeNumber neg i f e, r3)
          end
      end
  end.

Definition parseNumber (s : jsstring) : option (number * jsstring) :=
  match s with
  | c :: r => if N.eqb c cuHyphen then parseUnsigned true r
              else parseUnsigned false s
  | [] => None
  end.

(** ** Values

    The values a Document is made of, and [undefined].  An object is the list
    of its own enumerable properties in the order [Object.keys] lists them. *)

#[local] Unset Elimination Schemes.
Inductive jsval :=
| VUndefined
| VNull
| VBool (b : bool)
| VNumber (x : number)
| VString (s : jsstring)
| VArray (items : list jsval)
| VObject (props : list (jsstring * jsval)).
#[local] Set Elimination Schemes.

(** [ToBoolean] *)
Definition truthy (v : jsval) : bool :=
  match v with
  | VUndefined | VNull => false
  | VBool b => b
  | VNumber NaN => false
  | VNumber x => negb (isZeroNumber x)
  | VString s => match s with [] => false | _ => true end
  | VArray _ | VObject _ => true
  end.

(** [a || b] *)
Definition jsOr (a b : jsval) : jsval := if truthy a then a else b.

(** *** Property order

    An array index is the canonical decimal string of an integer below
    [2^32 - 1].  [Object.keys] lists the array indices in ascending order,
    then the other keys in the order they were created. *)

Definition arrayIndex (k : jsstring) : option N :=
  match k with
  | [] => None
  | c :: r =>
      if forallb isDigit k && (negb (isZeroDigit c) || match r with [] => true | _ => false end)
      then let i := digitsValue k in
           if N.leb i 4294967294 then Some i else None
      else None
  end.

Fixpoint hasKey (k : jsstring) (props : list (jsstring * jsval)) : bool :=
  match props with
  | [] => false
  | (k', _) :: r => jsstring_eqb k k' || hasKey k r
  end.

Fixpoint updateProp (k : jsstring) (v : jsval) (props : list (jsstring * jsval))
  : list (jsstring * jsval) :=
  match props with
  | [] => []
  | (k', v') :: r =>
      if jsstring_eqb k k' then (k, v) :: r else (k', v') :: updateProp k v r
  end.

Fixpoint insertIndex (i : N) (k : jsstring) (v : jsval)
  (props : list (jsstring * jsval)) : list (jsstring * jsval) :=
  match props with
  | [] => [(k, v)]
  | (k', v') :: r =>
      match arrayIndex k' with
      | Some j => if N.ltb j i then (k', v') :: insertIndex i k v r
                  else (k, v) :: props
      | None => (k, v) :: props
      end
  end.

(** [CreateDataProperty]: an existing key keeps its place. *)
Definition setProp (k : jsstring) (v : jsval) (props : list (jsstring * jsval))
  : list (jsstring * jsval) :=
  if hasKey k props then updateProp k v props
  else match arrayIndex k with
       | Some i => insertIndex i k v props
       | None => props ++ [(k, v)]
       end.

Fixpoint getOwn (k : jsstring) (props : list (jsstring * jsval)) : jsval :=
  match props with
  | [] => VUndefined
  | (k', v) :: r => if jsstring_eqb k k' then v else getOwn k r
  end.

(** ** [JSON.stringify] *)

Definition cuComma : codeUnit := 44%N.
Definition cuColon : codeUnit := 58%N.
Definition cuLBracket : codeUnit := 91%N.
Definition cuRBracket : codeUnit := 93%N.
Definition cuLBrace : codeUnit := 123%N.
Definition cuRBrace : codeUnit := 125%N.

Definition hexDigit (d : N) : codeUnit :=
  if N.ltb d 10 then (48 + d)%N else (87 + d)%N.

(** [UnicodeEscape]: [\u] and four lowercase hexadecimal digits. *)
Definition unicodeEscape (c : codeUnit) : jsstring :=
  [cuBackslash; 117%N;
   hexDigit (N.modulo (N.div c 4096) 16); hexDigit (N.modulo (N.div c 256) 16);
   hexDigit (N.modulo (N.div c 16) 16); hexDigit (N.modulo c 16)].

Definition isHighSurrogate (c : codeUnit) : bool := inRange 55296 56319 c.
Definition isLowSurrogate (c : codeUnit) : bool := inRange 56320 57343 c.

(** The escape of a code point that [QuoteJSONString] never prints as it
    is: the two-character escapes of Table 75, and [UnicodeEscape] for the
    other control characters. *)
Definition escapeOf (c : codeUnit) : option jsstring :=
  if N.eqb c 8 then Some [cuBackslash; 98%N]
  else if N.eqb c 9 then Some [cuBackslash; 116%N]
  else if N.eqb c 10 then Some [cuBackslash; 110%N]
  else if N.eqb c 12 then Some [cuBackslash; 102%N]
  else if N.eqb c 13 then Some [cuBackslash; 114%N]
  else if N.eqb c cuQuote then Some [cuBackslash; cuQuote]
  else if N.eqb c cuBackslash then Some [cuBackslash; cuBackslash]
  else if N.ltb c 32 then Some (unicodeEscape c)
  else None.

(** The body of [QuoteJSONString]: the string is read by code points, so a
    surrogate is escaped unless it is half of a pair. *)
Fixpoint quoteChars (s : jsstring) : jsstring :=
  match s with
  | [] => []
  | c :: r =>
      match escapeOf c with
      | Some e => e ++ quoteChars r
      | None =>
          if isHighSurrogate c then
            match r with
            | d :: r' =>
                if isLowSurrogate d then c :: d :: quoteChars r'
                else unicodeEscape c ++ quoteChars r
            | [] => unicodeEscape c
            end
          else if isLowSurrogate c then unicodeEscape c ++ quoteChars r
          else c :: quoteChars r
      end
  end.

Definition QuoteJSONString (s : jsstring) : jsstring :=
  cuQuote :: quoteChars s ++ [cuQuote].

Fixpoint join (sep : jsstring) (parts : list jsstring) : jsstring :=
  match parts with
  | [] => []
  | [p] => p
  | p :: rest => p ++ sep ++ join sep rest
  end.

Definition isEmpty {A} (l : list A) : bool :=
  match l with [] => true | _ => false end.

(** The common end of [SerializeJSONArray] and [SerializeJSONObject]. *)
Definition wrapPartial (opening closing : codeUnit) (gap stepback indent : jsstring)
  (partial : list jsstring) : jsstring :=
  match partial with
  | [] => [opening; closing]
  | _ =>
      if isEmpty gap then
        [opening] ++ join [cuComma] partial ++ [closing]
      else
        [opening] ++ [cuLF] ++ indent
        ++ join ([cuComma] ++ [cuLF] ++ indent) partial
        ++ [cuLF] ++ stepback ++ [closing]
  end.

(** [SerializeJSONProperty]: [None] is the [undefined] it returns for a value
    that has no JSON text. *)
Fixpoint serialize (gap indent : jsstring) (v : jsval) : option jsstring :=
  match v with
  | VUndefined => None
  | VNull => Some (js "null")
  | VBool true => Some (js "true")
  | VBool false => Some (js "false")
  | VNumber x =>
      Some (if isFiniteNumber x then Number_toString x else js "null")
  | VString s => Some (QuoteJSONString s)
  | VArray items =>
      let stepback := indent in
      let indent := indent ++ gap in
      let partial :=
        map (fun item => match serialize gap indent item with
                         | Some str => str
                         | None => js "null"
                         end) items in
      Some (wrapPartial cuLBracket cuRBracket gap stepback indent partial)
  | VObject props =>
      let stepback := indent in
      let indent := indent ++ gap in
      let partial :=
        flat_map (fun kv =>
                    match serialize gap indent (snd kv) with
                    | Some str =>
                        [QuoteJSONString (fst kv) ++ [cuColon]
                         ++ (if isEmpty gap then [] else js " ") ++ str]
                    | None => []
                    end) props in
      Some (wrapPartial cuLBrace cuRBrace gap stepback indent partial)
  end.

(** [JSON.stringify(value, null, space)] for a number [space]: the gap is
    [min(10, space)] spaces. *)
Definition JSON_stringify (v : jsval) (space : nat) : option jsstring :=
  serialize (repeat 32%N (Nat.min 10 space)) [] v.

(** ** [JSON.parse] *)

Definition isJsonSpace (c : codeUnit) : bool :=
  N.eqb c 9 || N.eqb c 10 || N.eqb c 13 || N.eqb c 32.

Definition skipWs (s : jsstring) : jsstring := dropWhile isJsonSpace s.

Definition hexValue (c : codeUnit) : option N :=
  if isDigit c then Some (c - 48)%N
  else if inRange 97 102 c then Some (c - 87)%N
  else if inRange 65 70 c then Some (c - 55)%N
  else None.

Definition hex4Value (a b c d : codeUnit) : option codeUnit :=
  match hexValue a, hexValue b, hexValue c, hexValue d with
  | Some x, Some y, Some z, Some w => Some (4096 * x + 256 * y + 16 * z + w)%N
  | _, _, _, _ => None
  end.

Definition unescape (e : codeUnit) : option codeUnit :=
  if N.eqb e cuQuote then Some cuQuote
  else if N.eqb e cuBackslash then Some cuBackslash
  else if N.eqb e 47 then Some 47%N
  else if N.eqb e 98 then Some 8%N
  else if N.eqb e 102 then Some 12%N
  else if N.eqb e 110 then Some 10%N
  else if N.eqb e 114 then Some 13%N
  else if N.eqb e 116 then Some 9%N
  else None.

Definition consChar (c : codeUnit) (p : option (jsstring * jsstring))
  : option (jsstring * jsstring) :=
  match p with
  | Some (str, rest) => Some (c :: str, rest)
  | None => None
  end.

(** The characters of a string literal, after its opening quote. *)
Fixpoint parseChars (s : jsstring) : option (jsstring * jsstring) :=
  match s with
  | [] => None
  | c :: r =>
      if N.eqb c cuQuote then Some ([], r)
      else if N.eqb c cuBackslash then
        match r with
        | [] => None
        | e :: r1 =>
            if N.eqb e 117 then
              match r1 with
              | h1 :: h2 :: h3 :: h4 :: r2 =>
                  match hex4Value h1 h2 h3 h4 with
                  | Some u => consChar u (parseChars r2)
                  | None => None
                  end
              | _ => None
              end
            else
              match unescape e with
              | Some u => consChar u (parseChars r1)
              | None => None
              end
        end
      else if N.ltb c 32 then None
      else consChar c (parseChars r)
  end.

Inductive parsed (A : Type) :=
| Ok (a : A) (rest : jsstring)
| SyntaxErr
| OutOfFuel.
Arguments Ok {A} a rest.
Arguments SyntaxErr {A}.
Arguments OutOfFuel {A}.

Definition ofOption {A} (p : option (A * jsstring)) : parsed A :=
  match p with Some (a, rest) => Ok a rest | None => SyntaxErr end.

(** A recursive-descent reading of the JSON grammar.  [fuel] bounds the
    number of nested calls; [parseValue_total] shows that [JSON_parse] gives
    enough. *)
Fixpoint parseValue (fuel : nat) (s : jsstring) {struct fuel} : parsed jsval :=
  match fuel with
  | O => OutOfFuel
  | S fuel =>
      match skipWs s with
      | [] => SyntaxErr
      | c :: r =>
          if N.eqb c cuLBrace then
            match skipWs r with
            | d :: r' =>
                if N.eqb d cuRBrace then Ok (VObject []) r'
                else parseMembers fuel [] r
            | [] => SyntaxErr
            end
          else if N.eqb c cuLBracket then
            match skipWs r with
            | d :: r' =>
                if N.eqb d cuRBracket then Ok (VArray []) r'
                else match parseElements fuel r with
                     | Ok items rest => Ok (VArray items) rest
                     | SyntaxErr => SyntaxErr
                     | OutOfFuel => OutOfFuel
                     end
            | [] => SyntaxErr
            end
          else if N.eqb c cuQuote then
            match parseChars r with
            | Some (str, rest) => Ok (VString str) rest
            | None => SyntaxErr
            end
          else if startsWith (js "true") (c :: r) then Ok (VBool true) (skipn 3 r)
          else if startsWith (js "false") (c :: r) then Ok (VBool false) (skipn 4 r)
          else if startsWith (js "null") (c :: r) then Ok VNull (skipn 3 r)
          else
            match parseNumber (c :: r) with
            | Some (x, rest) => Ok (VNumber x) rest
            | None => SyntaxErr
            end
      end
  end

with parseElements (fuel : nat) (s : jsstring) {struct fuel}
  : parsed (list jsval) :=
  match fuel with
  | O => OutOfFuel
  | S fuel =>
      match parseValue fuel s with
      | Ok v r =>
          match skipWs r with
          | c :: r' =>
              if N.eqb c cuComma then
                match parseElements fuel r' with
                | Ok items rest => Ok (v :: items) rest
                | SyntaxErr => SyntaxErr
                | OutOfFuel => OutOfFuel
                end
              else if N.eqb c cuRBracket then Ok [v] r'
              else SyntaxErr
          | [] => SyntaxErr
          end
      | SyntaxErr => SyntaxErr
      | OutOfFuel => OutOfFuel
      end
  end

with parseMembers (fuel : nat) (acc : list (jsstring * jsval)) (s : jsstring)
  {struct fuel} : parsed jsval :=
  match fuel with
  | O => OutOfFuel
  | S fuel =>
      match skipWs s with
      | q :: r =>
          if N.eqb q cuQuote then
            match parseChars r with
            | Some (key, r1) =>
                match skipWs r1 with
                | c :: r2 =>
                    if N.eqb c cuColon then
                      match parseValue fuel r2 with
                      | Ok v r3 =>
                          match skipWs r3 with
                          | d :: r4 =>
                              if N.eqb d cuComma then
                                parseMembers fuel (setProp key v acc) r4
                              else if N.eqb d cuRBrace then
                                Ok (VObject (setProp key v acc)) r4
                              else SyntaxErr
                          | [] => SyntaxErr
                          end
                      | SyntaxErr => SyntaxErr
                      | OutOfFuel => OutOfFuel
                      end
                    else SyntaxErr
                | [] => SyntaxErr
                end
            | None => SyntaxErr
            end
          else SyntaxErr
      | [] => SyntaxErr
      end
  end.

Definition parseFuel (text : jsstring) : nat := 2 * List.length text + 1.

(** The text without the JSON white space around it. *)
Definition jsonTrim (text : jsstring) : jsstring :=
  dropWhile isJsonSpace (dropWhileEnd isJsonSpace text).

(** [JSON.parse(text)]: [None] when it throws a [SyntaxError].  A JSON text
    is one value with white space around it. *)
Definition JSON_parse (text : jsstring) : option jsval :=
  let body := jsonTrim text in
  match parseValue (parseFuel body) body with
  | Ok v [] => Some v
  | _ => None
  end.

(** The string [s] between double quotes, for writing JSON texts. *)
Definition quoted (s : string) : jsstring := cuQuote :: js s ++ [cuQuote].

(** ** Exceptions and the network *)

Inductive Exn :=
| Error (message : jsstring)       (* [new Error(message)] *)
| SyntaxError (source : jsstring)  (* [JSON.parse(source)] or [response.json()] rejected the text *)
| TypeError                        (* a property of [null] or [undefined] was read, or a non-function called *)
| FetchError.                      (* [fetch] rejected *)

Inductive outcome (A : Type) :=
| Returned (a : A)
| Thrown (e : Exn).
Arguments Returned {A} a.
Arguments Thrown {A} e.

Definition andThen {A B} (o : outcome A) (k : A -> outcome B) : outcome B :=
  match o with
  | Returned a => k a
  | Thrown e => Thrown e
  end.

(** What [callOpenRouter] reads of the [Response]. *)
Record Response := {
  ok : bool;               (* the status is in the range 200-299 *)
  statusText : jsstring;
  body : jsstring          (* the text [response.json()] parses *)
}.

Inductive FetchOutcome :=
| FetchRejected
| FetchResolved (response : Response).

(** [v[k]] for an own property [k].  No inherited property ([length], the
    methods) is modelled: the program reads [choices], [0], [message] and
    [content] only. *)
Definition getProp (v : jsval) (k : jsstring) : outcome jsval :=
  match v with
  | VUndefined | VNull => Thrown TypeError
  | VObject props => Returned (getOwn k props)
  | VArray items =>
      match arrayIndex k with
      | Some i => Returned (nth (N.to_nat i) items VUndefined)
      | None => Returned VUndefined
      end
  | VString s =>
      match arrayIndex k with
      | Some i => Returned (match nth_error s (N.to_nat i) with
                            | Some c => VString [c]
                            | None => VUndefined
                            end)
      | None => Returned VUndefined
      end
  | VBool _ | VNumber _ => Returned VUndefined
  end.

Definition generationFailed : jsstring :=
  js "AI returned invalid JSON format or failed to generate.".

(** [data.choices[0].message.content] *)
Definition choiceContent (data : jsval) : outcome jsval :=
  andThen (getProp data (js "choices")) (fun choices =>
  andThen (getProp choices (js "0")) (fun choice =>
  andThen (getProp choice (js "message")) (fun message =>
  getProp message (js "content")))).

(** The [try] block of [callOpenRouter], once [fetch] has answered [net].
    The request itself (URL, headers, the two prompts) is not modelled. *)
Definition callOpenRouter_try (net : FetchOutcome) : outcome jsval :=
  match net with
  | FetchRejected => Thrown FetchError
  | FetchResolved response =>
      if negb (ok response) then
        Thrown (Error (js "API Error: " ++ statusText response))
      else
        match JSON_parse (body response) with
        | None => Thrown (SyntaxError (body response))
        | Some data =>
            andThen (choiceContent data) (fun content =>
              match content with
              | VString text =>
                  let content := normalize text in
                  match JSON_parse content with
                  | Some parsed => Returned parsed
                  | None => Thrown (SyntaxError content)
                  end
              | _ => Thrown TypeError   (* [content.replace] is not a function *)
              end)
        end
  end.

(** [callOpenRouter]: what [console.error] received, and the result. *)
Definition callOpenRouter (net : FetchOutcome) : list Exn * outcome jsval :=
  match callOpenRouter_try net with
  | Returned parsed => ([], Returned parsed)
  | Thrown e => ([e], Thrown (Error generationFailed))
  end.

(** A chat-completion body whose first choice carries [content]. *)
Definition completion (content : jsstring) : jsval :=
  VObject [(js "choices",
            VArray [VObject [(js "message",
                              VObject [(js "role", VString (js "assistant"));
                                       (js "content", VString content)])]])].

Definition completionBody (content : jsstring) : jsstring :=
  match JSON_stringify (completion content) 0 with
  | Some text => text
  | None => []
  end.

(** Does [sub] occur in [s]? *)
Fixpoint includes (sub s : jsstring) : bool :=
  startsWith sub s || match s with [] => false | _ :: r => includes sub r end.

(** ** [HumanReadableDisplay] *)

(** What a component returns: [null], a text, an HTML element with its
    [className] and children, or an icon component.  React keys are not part
    of the output. *)
#[local] Unset Elimination Schemes.
Inductive Element :=
| ENull
| EText (text : jsstring)
| ENode (tag : string) (className : jsstring) (children : list Element)
| EIcon (name : string) (size : nat) (className : jsstring).
#[local] Set Elimination Schemes.

(** [typeof v === 'object' && v !== null] *)
Definition isObject (v : jsval) : bool :=
  match v with VArray _ | VObject _ => true | _ => false end.

(** [String(v)] for a primitive. *)
Definition String_ (v : jsval) : jsstring :=
  match v with
  | VUndefined => js "undefined"
  | VNull => js "null"
  | VBool true => js "true"
  | VBool false => js "false"
  | VNumber x => Number_toString x
  | VString s => s
  | VArray _ | VObject _ => []   (* not reached by [renderNode] *)
  end.

(** [k.replace(/_/g, ' ')] *)
Definition humanize (k : jsstring) : jsstring :=
  map (fun c => if N.eqb c cuUnderscore then 32%N else c) k.

Definition marker (text : string) : Element :=
  ENode "span" (js "text-gray-400 italic text-sm") [EText (js text)].

Definition badge (b : bool) : Element :=
  ENode "span"
    (js "px-2 py-0.5 rounded text-xs font-bold "
     ++ (if b then js "bg-green-100 text-green-800" else js "bg-red-100 text-red-800"))
    [EText (if b then js "YES" else js "NO")].

(** An array item: objects and arrays are boxed. *)
Definition listItem (item : jsval) (rendered : Element) : Element :=
  ENode "li" (js "text-gray-700")
    [if isObject item then
       ENode "div"
         (js "bg-white border text-start border-gray-100 p-3 rounded-lg mt-1 w-full box-border")
         [rendered]
     else rendered].

(** An object property: the key, then a badge for a boolean and the rendered
    value otherwise. *)
Definition propertyRow (k : jsstring) (v : jsval) (rendered : Element) : Element :=
  ENode "div"
    (js "flex flex-col sm:flex-row sm:items-baseline gap-1 sm:gap-3 px-2 py-1 hover:bg-black/5 rounded transition-colors w-full box-border")
    [ENode "span"
       (js "font-bold text-[#1a1f3a] text-xs uppercase tracking-wider shrink-0 w-32 border-b border-dashed border-gray-300 sm:border-none pb-1 sm:pb-0")
       [EText (humanize k)];
     ENode "div"
       (js "text-gray-800 text-sm leading-relaxed overflow-hidden break-words w-full")
       [match v with VBool b => badge b | _ => rendered end]].

Fixpoint renderNode (node : jsval) (depth : nat) : Element :=
  match node with
  | VNull | VUndefined => marker "Not provided"
  | VArray items =>
      match items with
      | [] => marker "Empty list"
      | _ =>
          ENode "ul" (js "list-disc ps-5 mt-1 space-y-2 marker:text-[#c9922a]")
            (map (fun item => listItem item (renderNode item (depth + 1))) items)
      end
  | VObject props =>
      match props with
      | [] => marker "Empty"
      | _ =>
          ENode "div"
            (js "mt-2 space-y-3 " ++ (if Nat.ltb 0 depth then js "ms-2" else []))
            (map (fun kv => propertyRow (fst kv) (snd kv)
                              (renderNode (snd kv) (depth + 1))) props)
      end
  | _ =>
      ENode "span" (js "text-gray-700 text-sm font-medium") [EText (String_ node)]
  end.

Definition HumanReadableDisplay (data : jsval) : Element :=
  match data with
  | VNull | VUndefined => ENull
  | _ =>
      ENode "div"
        (js "p-6 bg-white m-4 rounded-xl border border-gray-100 shadow-sm overflow-auto h-max min-h-[calc(100%-2rem)]")
        [renderNode data 0]
  end.

(** [Object.keys(v).length === 0] for an object or an array. *)
Definition hasNoKeys (v : jsval) : bool :=
  match v with
  | VArray items => isEmpty items
  | VObject props => isEmpty props
  | _ => false
  end.

Section Preview.

(** The lookup in the translation table ([./translations] is not in the
    sources). *)
Variable t : jsstring -> jsstring.

(** Tree mode of [AIAssistedEditor], lines 346-355. *)
Definition previewPane (value : jsval) : Element :=
  if (match value with VNull | VUndefined => true | _ => false end)
     || (isObject value && hasNoKeys value)
  then
    ENode "div"
      (js "text-center py-12 px-4 text-gray-500 h-full flex flex-col justify-center items-center")
      [EIcon "Bot" 48 (js "mb-4 text-gray-200");
       ENode "p" (js "text-sm font-medium mb-1") [EText (t (js "noData"))];
       ENode "p" (js "text-xs") [EText (t (js "typeInstructions"))]]
  else HumanReadableDisplay value.

End Preview.

(** ** [AIAssistedEditor] *)

(** The [type] of a toast: ['success'], ['error'] or ['info']. *)
Module ToastType.
Inductive t := success | error | info.
End ToastType.

Definition Toast : Type := jsstring * ToastType.t.

Inductive Mode := preview | raw.

Definition Mode_eqb (a b : Mode) : bool :=
  match a, b with
  | preview, preview | raw, raw => true
  | _, _ => false
  end.

(** The [useState] cells of the component. *)
Record EditorState := {
  mode : Mode;
  rawText : jsstring;
  error : jsstring;
  prompt : jsstring;
  isProcessing : bool
}.

(** The editor as mounted: [mode] is ['preview'], the rest empty. *)
Definition initialEditor : EditorState :=
  {| mode := preview; rawText := []; error := []; prompt := [];
     isProcessing := false |}.

(** What is outside the component: the field of [formData] it edits (the
    Document), and the calls it has made. *)
Record World := {
  fieldKey : jsstring;         (* [activeTab], the key of the field *)
  document : jsval;            (* [formData[activeTab]] *)
  onChangeCalls : list jsval;
  toasts : list Toast;
  consoleErrors : list Exn
}.

Definition emptyObject : jsval := VObject [].

(** [activeTab === 'itinerary_data' ? [] : {}] *)
Definition emptyDocument (w : World) : jsval :=
  if jsstring_eqb (fieldKey w) (js "itinerary_data") then VArray [] else emptyObject.

(** The [value] prop, line 673. *)
Definition valueProp (w : World) : jsval :=
  jsOr (document w) (emptyDocument w).

(** [onChange(val)], line 674: the parent stores [val] in the field. *)
Definition onChange (val : jsval) (w : World) : World :=
  {| fieldKey := fieldKey w; document := val;
     onChangeCalls := onChangeCalls w ++ [val];
     toasts := toasts w; consoleErrors := consoleErrors w |}.

Definition toast (message : jsstring) (type : ToastType.t) (w : World) : World :=
  {| fieldKey := fieldKey w; document := document w;
     onChangeCalls := onChangeCalls w;
     toasts := toasts w ++ [(message, type)]; consoleErrors := consoleErrors w |}.

Definition consoleError (logged : list Exn) (w : World) : World :=
  {| fieldKey := fieldKey w; document := document w;
     onChangeCalls := onChangeCalls w;
     toasts := toasts w; consoleErrors := consoleErrors w ++ logged |}.

(** [JSON.stringify(v, null, 2)] where it is stored as a string; it returns
    [undefined] only for [v = undefined], which no caller passes. *)
Definition prettyPrint (v : jsval) : jsstring :=
  match JSON_stringify v 2 with
  | Some text => text
  | None => []
  end.

Definition setRawText (text : jsstring) (st : EditorState) : EditorState :=
  {| mode := mode st; rawText := text; error := error st;
     prompt := prompt st; isProcessing := isProcessing st |}.

Definition setError (message : jsstring) (st : EditorState) : EditorState :=
  {| mode := mode st; rawText := rawText st; error := message;
     prompt := prompt st; isProcessing := isProcessing st |}.

Definition setPrompt (text : jsstring) (st : EditorState) : EditorState :=
  {| mode := mode st; rawText := rawText st; error := error st;
     prompt := text; isProcessing := isProcessing st |}.

Definition setIsProcessing (b : bool) (st : EditorState) : EditorState :=
  {| mode := mode st; rawText := rawText st; error := error st;
     prompt := prompt st; isProcessing := b |}.

(** The effect of lines 248-253, which React runs after a render in which
    [mode] or [value] has changed. *)
Definition syncRawText (w : World) (st : EditorState) : EditorState :=
  match mode st with
  | raw => setError [] (setRawText (prettyPrint (jsOr (valueProp w) emptyObject)) st)
  | preview => st
  end.

(** A click on one of the two mode buttons.  Setting the mode it already has
    changes no state, so nothing renders and the effect does not run. *)
Definition setMode (m : Mode) (ws : World * EditorState) : World * EditorState :=
  let '(w, st) := ws in
  if Mode_eqb (mode st) m then (w, st)
  else (w, syncRawText w
             {| mode := m; rawText := rawText st; error := error st;
                prompt := prompt st; isProcessing := isProcessing st |}).

(** The inline error under the textarea, line 368: [{error && <div>...}]. *)
Definition errorBanner (st : EditorState) : option jsstring :=
  match error st with
  | [] => None
  | message => Some message
  end.

Section Editor.

(** The message an engine gives an error it throws itself. *)
Variable engineMessage : Exn -> jsstring.

(** [err.message] *)
Definition messageOf (e : Exn) : jsstring :=
  match e with
  | Error message => message
  | _ => engineMessage e
  end.

(** [onChange] of the textarea, lines 360-363: one keystroke. *)
Definition handleRawChange (text : jsstring) (ws : World * EditorState)
  : World * EditorState :=
  let '(w, st) := ws in
  let st := setRawText text st in
  match JSON_parse text with
  | Some _ => (w, setError [] st)
  | None => (w, setError (messageOf (SyntaxError text)) st)
  end.

(** [handleRawBlur], lines 255-263. *)
Definition handleRawBlur (ws : World * EditorState) : World * EditorState :=
  let '(w, st) := ws in
  match JSON_parse (rawText st) with
  | Some parsed => (onChange parsed w, setError [] st)
  | None => (w, setError (messageOf (SyntaxError (rawText st))) st)
  end.

(** [handleAIGenerate] up to its [await]: [None] when it returns at once;
    otherwise the request is sent, and the continuation keeps the [mode] of
    the render in which the handler was created. *)
Definition handleAIGenerate_start (ws : World * EditorState)
  : option (Mode * (World * EditorState)) :=
  let '(w, st) := ws in
  if isEmpty (trim (prompt st)) then None
  else Some (mode st, (w, setIsProcessing true st)).

(** [handleAIGenerate] from the answer of the network to its end. *)
Definition handleAIGenerate_resume (closedMode : Mode) (net : FetchOutcome)
  (ws : World * EditorState) : World * EditorState :=
  let '(w, st) := ws in
  let '(logged, result) := callOpenRouter net in
  let w := consoleError logged w in
  match result with
  | Returned newData =>
      let w := onChange newData w in
      let st := setPrompt [] st in
      let w := toast (js "Update successful") ToastType.success w in
      let st := match closedMode with
                | raw => setRawText (prettyPrint newData) st
                | preview => st
                end in
      (w, setIsProcessing false st)
  | Thrown err =>
      (toast (messageOf err) ToastType.error w, setIsProcessing false st)
  end.

(** One generation attempt with no other event in between. *)
Definition handleAIGenerate (net : FetchOutcome) (ws : World * EditorState)
  : World * EditorState :=
  match handleAIGenerate_start ws with
  | None => ws
  | Some (closedMode, ws') => handleAIGenerate_resume closedMode net ws'
  end.

(** What can happen to the textarea between two mode switches. *)
Inductive RawEvent :=
| Keystroke (text : jsstring)
| Blur.

Definition rawEvent (e : RawEvent) (ws : World * EditorState)
  : World * EditorState :=
  match e with
  | Keystroke text => handleRawChange text ws
  | Blur => handleRawBlur ws
  end.

Definition rawEvents (es : list RawEvent) (ws : World * EditorState)
  : World * EditorState :=
  fold_left (fun ws e => rawEvent e ws) es ws.

End Editor.

(** The event leaves no text that parses: a keystroke types text that
    [JSON.parse] rejects, a blur types nothing. *)
Definition typesInvalidText (e : RawEvent) : bool :=
  match e with
  | Keystroke text => match JSON_parse text with None => true | Some _ => false end
  | Blur => true
  end.

(** ** [TourEditor]: [handleSave] *)

Inductive Tab := TabBasic | TabField (key : jsstring) | TabPreview.

Record TourEditorState := {
  formData : list (jsstring * jsval);
  activeTab : Tab;
  isSaving : bool;
  slugError : jsstring
}.

Record SaveWorld := {
  saveToasts : list Toast;                       (* calls of [toast] *)
  onSaveCalls : list (list (jsstring * jsval))   (* calls of [onSave] *)
}.

Definition focusBasic (st : TourEditorState) : TourEditorState :=
  {| formData := formData st; activeTab := TabBasic;
     isSaving := isSaving st; slugError := slugError st |}.

Definition setIsSaving (b : bool) (st : TourEditorState) : TourEditorState :=
  {| formData := formData st; activeTab := activeTab st;
     isSaving := b; slugError := slugError st |}.

Definition saveToast (message : jsstring) (w : SaveWorld) : SaveWorld :=
  {| saveToasts := saveToasts w ++ [(message, ToastType.error)];
     onSaveCalls := onSaveCalls w |}.

(** [handleSave], lines 423-438, up to the [await]: the validation, and the
    call of [onSave] when it passes. *)
Definition handleSave (ws : SaveWorld * TourEditorState)
  : SaveWorld * TourEditorState :=
  let '(w, st) := ws in
  if negb (truthy (getOwn (js "title") (formData st)))
     || negb (truthy (getOwn (js "slug") (formData st))) then
    (saveToast (js "Title and slug are required") w, focusBasic st)
  else if negb (isEmpty (slugError st)) then
    (saveToast (js "Please fix slug errors") w, focusBasic st)
  else
    ({| saveToasts := saveToasts w;
        onSaveCalls := onSaveCalls w ++ [formData st] |},
     setIsSaving true st).

(** The rest of [handleSave], once [onSave] has resolved. *)
Definition handleSave_resume (ws : SaveWorld * TourEditorState)
  : SaveWorld * TourEditorState :=
  let '(w, st) := ws in (w, setIsSaving false st).

(** ** Documents *)

(** Keys as [Object.keys] can list them: no key twice, the array indices
    first and ascending. *)
Fixpoint orderedKeys (ks : list jsstring) : bool :=
  match ks with
  | [] => true
  | k :: r =>
      negb (existsb (jsstring_eqb k) r)
      && match arrayIndex k with
         | Some i => forallb (fun k' => match arrayIndex k' with
                                        | Some j => N.ltb i j
                                        | None => true
                                        end) r
         | None => forallb (fun k' => match arrayIndex k' with
                                      | Some _ => false
                                      | None => true
                                      end) r
         end
      && orderedKeys r
  end.

(** A Document as section 3 of the specification has it: nulls, booleans,
    numbers, strings, arrays and objects, and no [undefined]. *)
Fixpoint isDocument (v : jsval) : bool :=
  match v with
  | VUndefined => false
  | VNull | VBool _ | VString _ => true
  | VNumber x => wfNumber x
  | VArray items => forallb isDocument items
  | VObject props =>
      orderedKeys (map fst props) && forallb (fun kv => isDocument (snd kv)) props
  end.

(** The numbers that JSON can write: finite, and not the negative zero. *)
Definition jsonNumber (x : number) : bool :=
  isFiniteNumber x && negb (isNegativeZero x).

Fixpoint jsonNumbers (v : jsval) : bool :=
  match v with
  | VNumber x => jsonNumber x
  | VArray items => forallb jsonNumbers items
  | VObject props => forallb (fun kv => jsonNumbers (snd kv)) props
  | _ => true
  end.

(** ** Failed and successful answers *)

(** The endpoint answered with a status outside 200-299. *)
Definition non2xx (net : FetchOutcome) : Prop :=
  match net with
  | FetchResolved response => ok response = false
  | FetchRejected => False
  end.

(** The endpoint answered 2xx with a completion whose text, once
    normalized, is not JSON. *)
Definition unparsableAnswer (net : FetchOutcome) : Prop :=
  match net with
  | FetchResolved response =>
      ok response = true
      /\ exists data text,
           JSON_parse (body response) = Some data
           /\ choiceContent data = Returned (VString text)
           /\ JSON_parse (normalize text) = None
  | FetchRejected => False
  end.

(** ** Sample data *)

Definition answer (content : jsstring) : FetchOutcome :=
  FetchResolved {| ok := true; statusText := js "OK";
                   body := completionBody content |}.

Definition notFound : FetchOutcome :=
  FetchResolved {| ok := false; statusText := js "Not Found"; body := [] |}.

Definition proseAnswer : FetchOutcome := answer (js "Sorry, I cannot do that.").

Definition basePrice (digits : string) (n : Z) : jsval :=
  VObject [(js "base_price", VNumber (Finite false (js digits) n))].

(** [{"base_price": 150}] *)
Definition priceAnswer : jsstring :=
  js "{" ++ quoted "base_price" ++ js ": 150}".

Definition pricingWorld (doc : jsval) : World :=
  {| fieldKey := js "pricing_data"; document := doc;
     onChangeCalls := []; toasts := []; consoleErrors := [] |}.

Definition prompted (text : string) : EditorState :=
  setPrompt (js text) initialEditor.

Definition sampleEngine (e : Exn) : jsstring := js "Unexpected token".

Definition identityTranslation (key : jsstring) : jsstring := key.

(** A form on the pricing tab with the given title and slug. *)
Definition draft (title slug : string) : TourEditorState :=
  {| formData := [(js "title", VString (js title)); (js "slug", VString (js slug))];
     activeTab := TabField (js "pricing_data"); isSaving := false;
     slugError := [] |}.

(** What may follow a number: nothing that would belong to it. *)
Definition endsNumber (rest : jsstring) : bool :=
  negb (headIs (fun c => isDigit c || N.eqb c cuDot
                         || N.eqb c cuLowerE || N.eqb c cuUpperE) rest).

(** *** Positions in a Document *)

(** A place in a Document: the root, or a place below an array item or below
    the value of an object property. *)
Inductive Position :=
| Root
| Item (before : list jsval) (inner : Position) (after : list jsval)
| Property (before : list (jsstring * jsval)) (key : jsstring)
    (inner : Position) (after : list (jsstring * jsval)).

(** The Document that holds [v] at the position. *)
Fixpoint place (p : Position) (v : jsval) : jsval :=
  match p with
  | Root => v
  | Item before inner after => VArray (before ++ place inner v :: after)
  | Property before key inner after =>
      VObject (before ++ (key, place inner v) :: after)
  end.

Definition isRoot (p : Position) : bool :=
  match p with Root => true | _ => false end.

(** The values with nothing in them, and the marker [renderNode] shows for
    each: [null] and [undefined] share one. *)
Inductive Blank := EmptyList | Null | Undefined | EmptyObject.

Definition blank (b : Blank) : jsval :=
  match b with
  | EmptyList => VArray []
  | Null => VNull
  | Undefined => VUndefined
  | EmptyObject => VObject []
  end.

Definition markerText (b : Blank) : string :=
  match b with
  | EmptyList => "Empty list"
  | Null | Undefined => "Not provided"
  | EmptyObject => "Empty"
  end.

(** The text has no JavaScript white space but JSON white space at its
    ends. *)
Definition jsonMargins (text : jsstring) : bool :=
  jsstring_eqb (jsonTrim text) (trim text).

(** *** The shape of a serialized Document *)

Definition allSpace (s : jsstring) : bool := forallb isJsonSpace s.

Definition notSpace (c : codeUnit) : bool := negb (isJsonSpace c).

(** The text of an array element: [null] stands for what has no JSON
    text. *)
Definition textOf (gap indent : jsstring) (v : jsval) : jsstring :=
  match serialize gap indent v with
  | Some str => str
  | None => js "null"
  end.

(** The text of an object member. *)
Definition memberText (gap indent : jsstring) (kv : jsstring * jsval) : jsstring :=
  QuoteJSONString (fst kv) ++ [cuColon]
  ++ (if isEmpty gap then [] else js " ") ++ textOf gap indent (snd kv).

(** The line break and indentation before an item and before the closing
    bracket; nothing when there is no gap. *)
Definition lineBreak (gap indent : jsstring) : jsstring :=
  if isEmpty gap then [] else cuLF :: indent.

(** Items separated by commas, each after [before], then [after] and the
    closing bracket, then [rest]. *)
Fixpoint sequenceText (closing : codeUnit) (before after : jsstring)
  (texts : list jsstring) (rest : jsstring) : jsstring :=
  match texts with
  | [] => after ++ closing :: rest
  | text :: more =>
      before ++ text
      ++ match more with
         | [] => after ++ closing :: rest
         | _ => cuComma :: sequenceText closing before after more rest
         end
  end.

(** A text that starts a value: no white space and no closing bracket
    first. *)
Definition startsValue (text : jsstring) : bool :=
  headIs (fun c => notSpace c && negb (N.eqb c cuRBracket)
                   && negb (N.eqb c cuRBrace)) text.

(** No white space at either end. *)
Definition tight (text : jsstring) : bool :=
  headIs notSpace text && headIs notSpace (rev text).

(** The characters [Number::toString] prints for a finite Number. *)
Definition isNumberChar (c : codeUnit) : bool :=
  isDigit c || N.eqb c cuHyphen || N.eqb c cuPlus || N.eqb c cuDot
  || N.eqb c cuLowerE.

(** The parser reads the text of [v] back as [v], whatever white space
    comes before it and whatever comes after it that cannot continue a
    number. *)
Definition readsBack (gap indent : jsstring) (v : jsval) : Prop :=
  forall ws rest,
    allSpace ws = true -> endsNumber rest = true ->
    exists fuel, parseValue fuel (ws ++ textOf gap indent v ++ rest) = Ok v rest.
(** * The rest of [App.jsx] *)

(** ** Objects: own properties, spread and assignment *)

(** The items of a list under the indices [i], [i + 1], ... *)
Fixpoint indexed {A} (wrap : A -> jsval) (i : N) (items : list A)
  : list (jsstring * jsval) :=
  match items with
  | [] => []
  | x :: r => (decimal i, wrap x) :: indexed wrap (N.succ i) r
  end.

(** The own enumerable string-keyed properties of a value, as [Object.keys]
    and the spread syntax list them: the properties of an object, the items
    of an array under their indices, the code units of a string under
    theirs, and nothing for the other primitives. *)
Definition ownEntries (v : jsval) : list (jsstring * jsval) :=
  match v with
  | VObject props => props
  | VArray items => indexed (fun x => x) 0 items
  | VString s => indexed (fun c => VString [c]) 0 s
  | _ => []
  end.

(** [{ ...base, ...entries }]: [CopyDataProperties] creates the properties
    one by one. *)
Definition spread (entries base : list (jsstring * jsval))
  : list (jsstring * jsval) :=
  fold_left (fun output kv => setProp (fst kv) (snd kv) output) entries base.

Definition protoKey : jsstring := js "__proto__".

(** [output[key] = v] and [Object.assign(output, { [key]: v })] for an
    [output] made by an object literal: both end in [[Set]].  The key
    [__proto__], when [output] has no own property of that name, reaches the
    setter of [Object.prototype]: it changes the prototype or does nothing,
    and [output] gets no own property. *)
Definition assignProp (key : jsstring) (v : jsval)
  (output : list (jsstring * jsval)) : list (jsstring * jsval) :=
  if jsstring_eqb key protoKey && negb (hasKey key output) then output
  else setProp key v output.

(** [typeof v === 'object' && v !== null && !Array.isArray(v)] *)
Definition isPlainObject (v : jsval) : bool :=
  match v with VObject _ => true | _ => false end.

(** ** [deepMerge], lines 65-79

    [key in target] holds for the own keys of [target] and for the names it
    inherits (the methods, [length] of an array, [__proto__]).  For an
    inherited method or [length], [target[key]] is a function or a number,
    [deepMerge] returns [source[key]] for it, and [output] gets the property
    that the other branch assigns.  For an inherited [__proto__] the
    assignment ends in the setter, whatever is assigned.  So a key that is
    not an own key of [target] is treated in one way. *)
Fixpoint deepMerge (target source : jsval) {struct source} : jsval :=
  if negb (isObject target) then source
  else
    let tprops := ownEntries target in
    match source with
    | VObject sprops =>
        VObject
          ((fix forEach (entries : list (jsstring * jsval))
                (output : list (jsstring * jsval)) {struct entries} :=
              match entries with
              | [] => output
              | (key, sv) :: rest =>
                  forEach rest
                    (match sv with
                     | VObject _ =>
                         if negb (hasKey key tprops) then assignProp key sv output
                         else assignProp key (deepMerge (getOwn key tprops) sv) output
                     | _ => assignProp key sv output
                     end)
              end) sprops (spread tprops []))
    | VArray sitems =>
        VObject
          ((fix forEach (i : N) (items : list jsval)
                (output : list (jsstring * jsval)) {struct items} :=
              match items with
              | [] => output
              | sv :: rest =>
                  let key := decimal i in
                  forEach (N.succ i) rest
                    (match sv with
                     | VObject _ =>
                         if negb (hasKey key tprops) then assignProp key sv output
                         else assignProp key (deepMerge (getOwn key tprops) sv) output
                     | _ => assignProp key sv output
                     end)
              end) 0%N sitems (spread tprops []))
    | _ => source
    end.

(** What one round of the [forEach] of [deepMerge] gives the key. *)
Definition mergedProp (tprops : list (jsstring * jsval)) (key : jsstring)
  (sv : jsval) : jsval :=
  if isPlainObject sv && hasKey key tprops
  then deepMerge (getOwn key tprops) sv
  else sv.

Definition mergeStep (tprops : list (jsstring * jsval))
  (output : list (jsstring * jsval)) (kv : jsstring * jsval)
  : list (jsstring * jsval) :=
  assignProp (fst kv) (mergedProp tprops (fst kv) (snd kv)) output.

(** Keys as [Object.keys] lists them at every level of the value, and
    primitives that satisfy [leaf]. *)
Fixpoint everyValue (leaf : jsval -> bool) (v : jsval) : bool :=
  match v with
  | VArray items => forallb (everyValue leaf) items
  | VObject props =>
      orderedKeys (map fst props)
      && forallb (fun kv => everyValue leaf (snd kv)) props
  | _ => leaf v
  end.

(** What every value of the engine satisfies. *)
Definition wellKeyed (v : jsval) : bool := everyValue (fun _ => true) v.

(** The primitives of a Document. *)
Definition documentLeaf (v : jsval) : bool :=
  match v with
  | VUndefined => false
  | VNumber x => wfNumber x
  | _ => true
  end.

(** The primitives of a Document that JSON can write. *)
Definition jsonLeaf (v : jsval) : bool :=
  documentLeaf v && match v with VNumber x => jsonNumber x | _ => true end.

(** The place of [k'] after [k] in the order of [Object.keys]. *)
Definition afterKey (k k' : jsstring) : bool :=
  match arrayIndex k with
  | Some i => match arrayIndex k' with Some j => N.ltb i j | None => true end
  | None => match arrayIndex k' with Some _ => false | None => true end
  end.

(** An object whose properties are in order and whose values satisfy [q]. *)
Definition goodProps (q : jsval -> bool) (props : list (jsstring * jsval)) : bool :=
  orderedKeys (map fst props) && forallb (fun kv => q (snd kv)) props.

(** What [slugify] leaves of a text: word characters and hyphens. *)
Definition isSlugPart (c : codeUnit) : bool := isWordChar c || isHyphen c.

(** ** Conversions and comparisons *)

(** [ToString(v)], as a template literal and [Array.prototype.join] apply
    it.  An array is joined with commas, [null] and [undefined] items giving
    the empty string.  A plain object gives ["[object Object]"] through the
    [toString] it inherits; an own property of that name is not callable
    (the values come from JSON), and the conversion throws. *)
Fixpoint ToString (v : jsval) : outcome jsstring :=
  match v with
  | VUndefined => Returned (js "undefined")
  | VNull => Returned (js "null")
  | VBool true => Returned (js "true")
  | VBool false => Returned (js "false")
  | VNumber x => Returned (Number_toString x)
  | VString s => Returned s
  | VArray items =>
      (fix joinItems (items : list jsval) : outcome jsstring :=
         match items with
         | [] => Returned []
         | item :: rest =>
             andThen (match item with
                      | VUndefined | VNull => Returned []
                      | _ => ToString item
                      end) (fun head =>
             match rest with
             | [] => Returned head
             | _ => andThen (joinItems rest) (fun tail =>
                      Returned (head ++ [cuComma] ++ tail))
             end)
         end) items
  | VObject props =>
      if hasKey (js "toString") props then Thrown TypeError
      else Returned (js "[object Object]")
  end.

(** [v.toString()]: the same, but reading the method of [null] or
    [undefined] throws. *)
Definition toStringMethod (v : jsval) : outcome jsstring :=
  match v with
  | VUndefined | VNull => Thrown TypeError
  | _ => ToString v
  end.

(** [x === y] on Numbers: [NaN] equals nothing, the two zeros are equal. *)
Definition number_eqb (x y : number) : bool :=
  match x, y with
  | Infinity a, Infinity b => Bool.eqb a b
  | Finite a ds n, Finite b es m =>
      (isEmpty ds && isEmpty es)
      || (Bool.eqb a b && jsstring_eqb ds es && Z.eqb n m)
  | _, _ => false
  end.

(** [a === b].  Two objects are equal when they are one object; a value
    does not record which object it is, and two objects are taken to be
    distinct: each row, and each value in it, is made by the parser of the
    response it came in. *)
Definition strictEquals (a b : jsval) : bool :=
  match a, b with
  | VUndefined, VUndefined | VNull, VNull => true
  | VBool x, VBool y => Bool.eqb x y
  | VNumber x, VNumber y => number_eqb x y
  | VString s, VString s' => jsstring_eqb s s'
  | _, _ => false
  end.

(** [SameValueZero], the equality of [Set]: [NaN] equals [NaN]. *)
Definition sameValueZero (a b : jsval) : bool :=
  match a, b with
  | VNumber NaN, VNumber NaN => true
  | _, _ => strictEquals a b
  end.

(** ** The Supabase client

    What the program reads of the value a query resolves to: [data] and
    [error], with the [code] and the [message] of the latter. *)
Module Supabase.

Record Error := {
  code : jsstring;
  message : jsstring
}.

Record Result (A : Type) := {
  data : A;
  error : option Error
}.
Arguments data {A} r.
Arguments error {A} r.

End Supabase.

(** ** [TourEditor] *)

Definition setFormData (data : list (jsstring * jsval)) (st : TourEditorState)
  : TourEditorState :=
  {| formData := data; activeTab := activeTab st;
     isSaving := isSaving st; slugError := slugError st |}.

Definition setSlugError (message : jsstring) (st : TourEditorState)
  : TourEditorState :=
  {| formData := formData st; activeTab := activeTab st;
     isSaving := isSaving st; slugError := message |}.

Definition setActiveTab (tab : Tab) (st : TourEditorState) : TourEditorState :=
  {| formData := formData st; activeTab := tab;
     isSaving := isSaving st; slugError := slugError st |}.

Definition tourToast (message : jsstring) (type : ToastType.t) (w : SaveWorld)
  : SaveWorld :=
  {| saveToasts := saveToasts w ++ [(message, type)];
     onSaveCalls := onSaveCalls w |}.

(** The form of a new tour, lines 391-394. *)
Definition blankForm : list (jsstring * jsval) :=
  [(js "title", VString []); (js "slug", VString []);
   (js "tour_type", VString []); (js "primary_destination", VString []);
   (js "promo_link", VString []);
   (js "content_data", VObject []); (js "logistics_data", VObject []);
   (js "itinerary_data", VArray []); (js "provisions_data", VObject []);
   (js "requirements_data", VObject []); (js "pricing_data", VObject [])].

(** [JSONB_FIELDS], lines 378-385: the keys and the labels. *)
Definition JSONB_FIELDS : list (jsstring * jsstring) :=
  [(js "content_data", js "Content"); (js "logistics_data", js "Logistics");
   (js "itinerary_data", js "Itinerary"); (js "provisions_data", js "Provisions");
   (js "requirements_data", js "Requirements"); (js "pricing_data", js "Pricing")].

(** The [value] the editor of the field [key] receives, line 673. *)
Definition fieldValue (key : jsstring) (st : TourEditorState) : jsval :=
  jsOr (getOwn key (formData st))
       (if jsstring_eqb key (js "itinerary_data") then VArray [] else VObject []).

(** Its [onChange], line 674: [setFormData({ ...formData, [activeTab]: val })]. *)
Definition fieldOnChange (key : jsstring) (val : jsval) (st : TourEditorState)
  : TourEditorState :=
  setFormData (setProp key val (spread (formData st) [])) st.

(** The inputs of the basic tab, lines 607-656: [{ ...formData, key: text }]. *)
Definition inputOnChange (key : jsstring) (text : jsstring) (st : TourEditorState)
  : TourEditorState :=
  setFormData (setProp key (VString text) (spread (formData st) [])) st.

Section TourEditorHandlers.

Variable toLowerCase : jsstring -> jsstring.
Variable engineMessage : Exn -> jsstring.
Variable t : jsstring -> jsstring.

(** [slugify(text)], lines 56-63, for a value: [text.toString()] first. *)
Definition slugifyValue (text : jsval) : outcome jsstring :=
  andThen (toStringMethod text) (fun s => Returned (slugify toLowerCase s)).

(** [handleSlugGenerate], lines 419-421. *)
Definition handleSlugGenerate (st : TourEditorState) : outcome TourEditorState :=
  if truthy (getOwn (js "title") (formData st)) then
    andThen (slugifyValue (getOwn (js "title") (formData st))) (fun slug =>
      Returned (setFormData
                  (setProp (js "slug") (VString slug) (spread (formData st) []))
                  st))
  else Returned st.

(** The common body of [handleAIGenerateBasicInfo], lines 440-462, and
    [handleMasterAIGenerate], lines 464-492, which differ in the system
    prompt and in the key of the success message: one attempt, with no
    other event before the answer.  What [callOpenRouter] logs on the
    console is not part of [SaveWorld]. *)
Definition generateIntoForm (successKey : jsstring) (prompt : jsstring)
  (net : FetchOutcome) (ws : SaveWorld * TourEditorState)
  : SaveWorld * TourEditorState :=
  let '(w, st) := ws in
  if isEmpty (trim prompt) then (w, st)
  else
    let st := setIsSaving true st in
    match snd (callOpenRouter net) with
    | Returned data =>
        let st := setFormData
                    (spread (ownEntries data) (spread (formData st) [])) st in
        (tourToast (t successKey) ToastType.success w, setIsSaving false st)
    | Thrown e =>
        (tourToast (messageOf engineMessage e) ToastType.error w,
         setIsSaving false st)
    end.

Definition handleAIGenerateBasicInfo := generateIntoForm (js "aiAutoFillSuccess").

Definition handleMasterAIGenerate := generateIntoForm (js "masterSuccess").

End TourEditorHandlers.

(** The slug check of lines 403-417, from the debounced slug to the end,
    with the answer of the query when one is sent.  [slugChecking] is the
    state of the spinner; [slugQueries] lists the slugs that were looked
    up. *)
Record SlugCheck := {
  slugChecking : bool;
  slugQueries : list jsval
}.

Definition checkSlug (tour : jsval) (debouncedSlug : jsval)
  (answer : Supabase.Result (option (list jsval)))
  (ws : SaveWorld * SlugCheck * TourEditorState)
  : SaveWorld * SlugCheck * TourEditorState :=
  let '(w, c, st) := ws in
  if negb (truthy debouncedSlug) then (w, c, st)
  else if strictEquals
            (match tour with
             | VNull | VUndefined => VUndefined
             | _ => getOwn (js "slug") (ownEntries tour)
             end) debouncedSlug
  then (w, c, setSlugError [] st)
  else
    let c := {| slugChecking := false;
                slugQueries := slugQueries c ++ [debouncedSlug] |} in
    match Supabase.error answer with
    | Some e => (tourToast (Supabase.message e) ToastType.error w, c, st)
    | None =>
        match Supabase.data answer with
        | Some (_ :: _) => (w, c, setSlugError (js "Slug is already in use") st)
        | _ => (w, c, setSlugError [] st)
        end
    end.

(** ** [callOpenRouter]: the request, lines 23-36 *)

(** The object given to [JSON.stringify] for the body of the request. *)
Definition chatRequest (systemPrompt userPrompt : jsstring) : jsval :=
  VObject
    [(js "model", VString (js "openai/gpt-4o-mini"));
     (js "messages",
      VArray [VObject [(js "role", VString (js "system"));
                       (js "content", VString systemPrompt)];
              VObject [(js "role", VString (js "user"));
                       (js "content", VString userPrompt)]])].

Definition requestBody (systemPrompt userPrompt : jsstring) : jsstring :=
  match JSON_stringify (chatRequest systemPrompt userPrompt) 0 with
  | Some text => text
  | None => []
  end.

(** ** [AIAssistedEditor]: the copy button and the events *)

(** [handleCopy], lines 265-268: the text handed to the clipboard, and the
    toast.  The [value] prop is never [undefined]. *)
Definition handleCopy (w : World) : jsstring * World :=
  (prettyPrint (valueProp w), toast (js "Data Copied") ToastType.success w).

(** What the user can do in the editor; a generation is one event, with the
    answer of the network. *)
Inductive EditorEvent :=
| ClickMode (m : Mode)
| TypeRaw (text : jsstring)
| BlurRaw
| TypePrompt (text : jsstring)
| Generate (net : FetchOutcome)
| ClickCopy.

Section EditorEvents.

Variable engineMessage : Exn -> jsstring.

Definition editorEvent (ws : World * EditorState) (e : EditorEvent)
  : World * EditorState :=
  match e with
  | ClickMode m => setMode m ws
  | TypeRaw text => handleRawChange engineMessage text ws
  | BlurRaw => handleRawBlur engineMessage ws
  | TypePrompt text => (fst ws, setPrompt text (snd ws))
  | Generate net => handleAIGenerate engineMessage net ws
  | ClickCopy => (snd (handleCopy (fst ws)), snd ws)
  end.

Definition editorEvents (es : list EditorEvent) (ws : World * EditorState)
  : World * EditorState :=
  fold_left editorEvent es ws.

End EditorEvents.

(** The editor of the field [key] of a form, as [TourEditor] mounts it. *)
Definition worldOfField (key : jsstring) (st : TourEditorState) : World :=
  {| fieldKey := key; document := getOwn key (formData st);
     onChangeCalls := []; toasts := []; consoleErrors := [] |}.

(** ** [ToastProvider], lines 85-113 *)

Module ToastProvider.

Record Toast := {
  id : jsstring;          (* [Date.now().toString()] *)
  message : jsstring;
  type : ToastType.t
}.

(** The [toasts] state, and the timeouts that have been set and have not
    fired yet, each with the [id] its callback closes over. *)
Record State := {
  toasts : list Toast;
  timers : list jsstring
}.

Definition initial : State := {| toasts := []; timers := [] |}.

(** [addToast(message, type = 'info')] when [Date.now()] is [now]; [None]
    is a call without a type. *)
Definition addToast (now : N) (message : jsstring) (type : option ToastType.t)
  (s : State) : State :=
  let stamp := decimal now in
  {| toasts := toasts s
               ++ [{| id := stamp; message := message;
                      type := match type with
                              | Some given => given
                              | None => ToastType.info
                              end |}];
     timers := timers s ++ [stamp] |}.

Fixpoint removeFirst (fired : jsstring) (pending : list jsstring)
  : list jsstring :=
  match pending with
  | [] => []
  | x :: r => if jsstring_eqb x fired then r else x :: removeFirst fired r
  end.

(** A timeout fires, 3000 ms after the call that set it: the callback of
    lines 91-93.  Nothing happens for an [id] with no timeout pending. *)
Definition timeout (fired : jsstring) (s : State) : State :=
  if existsb (jsstring_eqb fired) (timers s) then
    {| toasts := filter (fun t => negb (jsstring_eqb (id t) fired)) (toasts s);
       timers := removeFirst fired (timers s) |}
  else s.

Inductive Event :=
| Add (now : N) (message : jsstring) (type : option ToastType.t)
| Fire (fired : jsstring).

Definition step (s : State) (e : Event) : State :=
  match e with
  | Add now message type => addToast now message type s
  | Fire fired => timeout fired s
  end.

Definition run (es : list Event) : State := fold_left step es initial.

End ToastProvider.

(** ** [App] *)

(** A row of [travel_tours]: an object. *)
Definition Row : Type := list (jsstring * jsval).

(** The queries sent to Supabase. *)
Inductive Request :=
| SelectTours (search sortCol : jsstring) (ascending : bool) (from to : Z)
| InsertTour (row : Row)
| UpdateTour (id : jsval) (row : Row)
| DeleteTour (id : jsval).

Record AppWorld := {
  appToasts : list Toast;
  requests : list Request
}.

Definition appToast (message : jsstring) (type : ToastType.t) (w : AppWorld)
  : AppWorld :=
  {| appToasts := appToasts w ++ [(message, type)]; requests := requests w |}.

Definition request (q : Request) (w : AppWorld) : AppWorld :=
  {| appToasts := appToasts w; requests := requests w ++ [q] |}.

Module App.

(** The [useState] cells of [App], lines 747-763, and the debounced
    search term.  [page], [perPage] and [totalCount] are integers. *)
Record State := {
  tours : list Row;
  loading : bool;
  error : jsstring;
  debouncedSearch : jsstring;
  editingTour : jsval;        (* [null]: the list; [{}]: a new tour *)
  deleteId : jsval;
  deleteConfirmText : jsstring;
  page : Z;
  perPage : Z;
  sortCol : jsstring;
  sortAsc : bool;
  totalCount : Z
}.

Definition initial : State :=
  {| tours := []; loading := true; error := []; debouncedSearch := [];
     editingTour := VNull; deleteId := VNull; deleteConfirmText := [];
     page := 1; perPage := 25; sortCol := js "id"; sortAsc := false;
     totalCount := 0 |}.

Definition setTours (v : list Row) (s : State) : State :=
  {| tours := v; loading := loading s; error := error s;
     debouncedSearch := debouncedSearch s; editingTour := editingTour s;
     deleteId := deleteId s; deleteConfirmText := deleteConfirmText s;
     page := page s; perPage := perPage s; sortCol := sortCol s;
     sortAsc := sortAsc s; totalCount := totalCount s |}.

Definition setLoading (v : bool) (s : State) : State :=
  {| tours := tours s; loading := v; error := error s;
     debouncedSearch := debouncedSearch s; editingTour := editingTour s;
     deleteId := deleteId s; deleteConfirmText := deleteConfirmText s;
     page := page s; perPage := perPage s; sortCol := sortCol s;
     sortAsc := sortAsc s; totalCount := totalCount s |}.

Definition setError (v : jsstring) (s : State) : State :=
  {| tours := tours s; loading := loading s; error := v;
     debouncedSearch := debouncedSearch s; editingTour := editingTour s;
     deleteId := deleteId s; deleteConfirmText := deleteConfirmText s;
     page := page s; perPage := perPage s; sortCol := sortCol s;
     sortAsc := sortAsc s; totalCount := totalCount s |}.

Definition setEditingTour (v : jsval) (s : State) : State :=
  {| tours := tours s; loading := loading s; error := error s;
     debouncedSearch := debouncedSearch s; editingTour := v;
     deleteId := deleteId s; deleteConfirmText := deleteConfirmText s;
     page := page s; perPage := perPage s; sortCol := sortCol s;
     sortAsc := sortAsc s; totalCount := totalCount s |}.

Definition setDeleteId (v : jsval) (s : State) : State :=
  {| tours := tours s; loading := loading s; error := error s;
     debouncedSearch := debouncedSearch s; editingTour := editingTour s;
     deleteId := v; deleteConfirmText := deleteConfirmText s;
     page := page s; perPage := perPage s; sortCol := sortCol s;
     sortAsc := sortAsc s; totalCount := totalCount s |}.

Definition setDeleteConfirmText (v : jsstring) (s : State) : State :=
  {| tours := tours s; loading := loading s; error := error s;
     debouncedSearch := debouncedSearch s; editingTour := editingTour s;
     deleteId := deleteId s; deleteConfirmText := v;
     page := page s; perPage := perPage s; sortCol := sortCol s;
     sortAsc := sortAsc s; totalCount := totalCount s |}.

Definition setPage (v : Z) (s : State) : State :=
  {| tours := tours s; loading := loading s; error := error s;
     debouncedSearch := debouncedSearch s; editingTour := editingTour s;
     deleteId := deleteId s; deleteConfirmText := deleteConfirmText s;
     page := v; perPage := perPage s; sortCol := sortCol s;
     sortAsc := sortAsc s; totalCount := totalCount s |}.

Definition setPerPage (v : Z) (s : State) : State :=
  {| tours := tours s; loading := loading s; error := error s;
     debouncedSearch := debouncedSearch s; editingTour := editingTour s;
     deleteId := deleteId s; deleteConfirmText := deleteConfirmText s;
     page := page s; perPage := v; sortCol := sortCol s;
     sortAsc := sortAsc s; totalCount := totalCount s |}.

Definition setSortCol (v : jsstring) (s : State) : State :=
  {| tours := tours s; loading := loading s; error := error s;
     debouncedSearch := debouncedSearch s; editingTour := editingTour s;
     deleteId := deleteId s; deleteConfirmText := deleteConfirmText s;
     page := page s; perPage := perPage s; sortCol := v;
     sortAsc := sortAsc s; totalCount := totalCount s |}.

Definition setSortAsc (v : bool) (s : State) : State :=
  {| tours := tours s; loading := loading s; error := error s;
     debouncedSearch := debouncedSearch s; editingTour := editingTour s;
     deleteId := deleteId s; deleteConfirmText := deleteConfirmText s;
     page := page s; perPage := perPage s; sortCol := sortCol s;
     sortAsc := v; totalCount := totalCount s |}.

Definition setTotalCount (v : Z) (s : State) : State :=
  {| tours := tours s; loading := loading s; error := error s;
     debouncedSearch := debouncedSearch s; editingTour := editingTour s;
     deleteId := deleteId s; deleteConfirmText := deleteConfirmText s;
     page := page s; perPage := perPage s; sortCol := sortCol s;
     sortAsc := sortAsc s; totalCount := v |}.

End App.

(** [const { id, ...rest } = row]: the own properties but [key]. *)
Definition withoutKey (key : jsstring) (row : Row) : Row :=
  filter (fun kv => negb (jsstring_eqb (fst kv) key)) row.

(** The range of rows [fetchTours] asks for, lines 778-780. *)
Definition rangeOf (st : App.State) : Z * Z :=
  let from := ((App.page st - 1) * App.perPage st)%Z in
  let to := (from + App.perPage st - 1)%Z in
  (from, to).

(** [fetchTours], lines 767-791, up to its [await]. *)
Definition fetchTours_start (ws : AppWorld * App.State) : AppWorld * App.State :=
  let '(w, st) := ws in
  let st := App.setLoading true st in
  (request (SelectTours (App.debouncedSearch st) (App.sortCol st) (App.sortAsc st)
              (fst (rangeOf st)) (snd (rangeOf st))) w,
   st).

(** What the query of [fetchTours] resolves to. *)
Record TourPage := {
  pageRows : option (list Row);      (* [data] *)
  pageCount : option Z;              (* [count] *)
  pageError : option Supabase.Error  (* [error] *)
}.

(** [fetchTours] from the answer on. *)
Definition fetchTours_resume (answer : TourPage) (ws : AppWorld * App.State)
  : AppWorld * App.State :=
  let '(w, st) := ws in
  match pageError answer with
  | Some err =>
      (appToast (Supabase.message err) ToastType.error w,
       App.setLoading false (App.setError (Supabase.message err) st))
  | None =>
      let rows := match pageRows answer with Some rows => rows | None => [] end in
      let count := match pageCount answer with Some n => n | None => 0%Z end in
      (w, App.setLoading false (App.setTotalCount count (App.setTours rows st)))
  end.

(** [handleSort], lines 863-866. *)
Definition handleSort (col : jsstring) (st : App.State) : App.State :=
  if jsstring_eqb (App.sortCol st) col
  then App.setSortAsc (negb (App.sortAsc st)) st
  else App.setSortAsc true (App.setSortCol col st).

(** The pagination controls, lines 1015-1019, and the page size, line 946. *)
Definition showingFrom (st : App.State) : Z :=
  Z.min ((App.page st - 1) * App.perPage st + 1) (App.totalCount st).

Definition showingTo (st : App.State) : Z :=
  Z.min (App.page st * App.perPage st) (App.totalCount st).

Definition prevDisabled (st : App.State) : bool := Z.eqb (App.page st) 1.

Definition nextDisabled (st : App.State) : bool :=
  Z.geb (App.page st * App.perPage st) (App.totalCount st).

Inductive PagerEvent :=
| ClickPrev
| ClickNext
| SelectPerPage (n : Z).

(** A disabled button receives no click. *)
Definition pagerEvent (st : App.State) (e : PagerEvent) : App.State :=
  match e with
  | ClickPrev => if prevDisabled st then st else App.setPage (App.page st - 1) st
  | ClickNext => if nextDisabled st then st else App.setPage (App.page st + 1) st
  | SelectPerPage n => App.setPage 1 (App.setPerPage n st)
  end.

(** The sizes the [select] offers. *)
Definition offeredSize (e : PagerEvent) : bool :=
  match e with
  | SelectPerPage n => Z.eqb n 10 || Z.eqb n 25 || Z.eqb n 50
  | _ => true
  end.

(** A page that shows a row, or the first page. *)
Definition pageInRange (st : App.State) : bool :=
  Z.leb 1 (App.page st)
  && (Z.eqb (App.page st) 1
      || Z.ltb ((App.page st - 1) * App.perPage st) (App.totalCount st)).

(** [handleDelete], lines 829-846, with the [error] of the answer. *)
Definition handleDelete (answer : option Supabase.Error)
  (ws : AppWorld * App.State) : AppWorld * App.State :=
  let '(w, st) := ws in
  if negb (truthy (App.deleteId st))
     || negb (jsstring_eqb (App.deleteConfirmText st) (js "DELETE"))
  then (w, st)
  else
    let targetId := App.deleteId st in
    let st := App.setTours
                (filter (fun row => negb (strictEquals (getOwn (js "id") row) targetId))
                   (App.tours st)) st in
    let st := App.setTotalCount (App.totalCount st - 1) st in
    let st := App.setDeleteId VNull st in
    let st := App.setDeleteConfirmText [] st in
    let w := request (DeleteTour targetId) w in
    match answer with
    | Some err =>
        fetchTours_start (appToast (Supabase.message err) ToastType.error w, st)
    | None => (appToast (js "Tour deleted successfully") ToastType.success w, st)
    end.

(** [handleCreateOrUpdate], lines 803-827, with the [error] of the answer. *)
Definition handleCreateOrUpdate (tourData : Row) (answer : option Supabase.Error)
  (ws : AppWorld * App.State) : AppWorld * App.State :=
  let '(w, st) := ws in
  let isNew := negb (truthy (getOwn (js "id") tourData)) in
  let w := request (if isNew then InsertTour (withoutKey (js "id") tourData)
                    else UpdateTour (getOwn (js "id") tourData) tourData) w in
  match answer with
  | Some err =>
      if jsstring_eqb (Supabase.code err) (js "42501") then
        (appToast (js "Permission denied: Check Supabase RLS policies.")
           ToastType.error w, st)
      else
        (appToast (js "Error: " ++ Supabase.message err) ToastType.error w, st)
  | None =>
      fetchTours_start
        (appToast (js "Tour successfully "
                   ++ (if isNew then js "created" else js "updated") ++ js "!")
           ToastType.success w,
         App.setEditingTour VNull st)
  end.

(** [handleDuplicate], lines 848-861; [random] is the value of
    [Math.floor(Math.random() * 1000)], an integer from 0 to 999. *)
Definition handleDuplicate (tour : Row) (random : N)
  (answer : Supabase.Result jsval) (ws : AppWorld * App.State)
  : outcome (AppWorld * App.State) :=
  let '(w, st) := ws in
  let dataCopy := withoutKey (js "id") tour in
  andThen (ToString (getOwn (js "title") dataCopy)) (fun title =>
  let dataCopy := setProp (js "title") (VString (title ++ js " (Copy)")) dataCopy in
  andThen (ToString (getOwn (js "slug") dataCopy)) (fun slug =>
  let dataCopy :=
    setProp (js "slug") (VString (slug ++ js "-copy-" ++ decimal random)) dataCopy in
  let w := request (InsertTour dataCopy) w in
  Returned
    match Supabase.error answer with
    | Some err => (appToast (Supabase.message err) ToastType.error w, st)
    | None =>
        fetchTours_start
          (appToast (js "Tour duplicated successfully") ToastType.success w,
           App.setEditingTour (Supabase.data answer) st)
    end)).

(** [new Set(values)], as [Array.from] lists it: the values in the order in
    which they were first met. *)
Fixpoint newSet (values seen : list jsval) : list jsval :=
  match values with
  | [] => seen
  | v :: rest =>
      if existsb (sameValueZero v) seen then newSet rest seen
      else newSet rest (seen ++ [v])
  end.

(** [existingDestinations] and [uniqueTypes], lines 797-801. *)
Definition existingDestinations (tours : list Row) : list jsval :=
  newSet (filter truthy (map (getOwn (js "primary_destination")) tours)) [].

Definition uniqueTypes (tours : list Row) : nat :=
  List.length (newSet (filter truthy (map (getOwn (js "tour_type")) tours)) []).

(** No two values of the list are the same value. *)
Fixpoint distinctValues (l : list jsval) : bool :=
  match l with
  | [] => true
  | v :: r => negb (existsb (sameValueZero v) r) && distinctValues r
  end.

(** The [tour] prop of [TourEditor], line 900. *)
Definition tourProp (editingTour : jsval) : jsval :=
  if isEmpty (ownEntries editingTour) then VNull else editingTour.

(** [TourEditor] as mounted with the [tour] prop, lines 391-399: the form
    is the tour, or the blank form when there is none; [tour] is [null] or
    an object. *)
Definition mountTourEditor (tour : jsval) : TourEditorState :=
  {| formData := if truthy tour then ownEntries tour else blankForm;
     activeTab := TabBasic; isSaving := false; slugError := [] |}.

(** ** [useDebounce], lines 128-135

    The hook as a machine: a render with a value, and the timeout that is
    pending.  The effect runs on mount and after a render whose [value] is
    not the one of the last run ([Object.is], here [sameValue]); its cleanup
    has cleared the timeout of the run before, so that one timeout at most
    is pending.  [delay] is the same at every render. *)
Module Debounce.

Section Hook.

Variable A : Type.
Variable sameValue : A -> A -> bool.

Record State := {
  value : A;                (* the [value] of the last run of the effect *)
  debouncedValue : A;
  handler : option A        (* the pending timeout, with the [value] it holds *)
}.

Definition mount (v : A) : State :=
  {| value := v; debouncedValue := v; handler := Some v |}.

Inductive Event :=
| Render (v : A)
| Timeout.

Definition step (s : State) (e : Event) : State :=
  match e with
  | Render v =>
      if sameValue v (value s) then s
      else {| value := v; debouncedValue := debouncedValue s; handler := Some v |}
  | Timeout =>
      match handler s with
      | Some v => {| value := value s; debouncedValue := v; handler := None |}
      | None => s
      end
  end.

Definition run (v : A) (es : list Event) : State := fold_left step es (mount v).

(** The [value] of the last render. *)
Definition lastRendered (v : A) (es : list Event) : A :=
  fold_left (fun last e => match e with Render x => x | Timeout => last end) es v.

End Hook.

Arguments value {A} s.
Arguments debouncedValue {A} s.
Arguments handler {A} s.
Arguments mount {A} v.
Arguments Render {A} v.
Arguments Timeout {A}.
Arguments step {A} sameValue s e.
Arguments run {A} sameValue v es.
Arguments lastRendered {A} v es.

End Debounce.

(** * The model on concrete inputs *)

Example slugify_title :
  slugify toLowerCaseAscii (js "  7 Days: Dubai & Abu-Dhabi -- Adventure!  ")
  = js "7-days-dubai-abu-dhabi-adventure".
Proof. vm_compute. reflexivity. Qed.

Example slugify_keeps_underscores :
  slugify toLowerCaseAscii (js "_Day_Trip_") = js "_day_trip_".
Proof. vm_compute. reflexivity. Qed.

Example normalize_json_fence :
  normalize (js "```JSON" ++ [cuLF] ++ js " [1, 2] " ++ [cuLF] ++ js "```")
  = js "[1, 2]".
Proof. vm_compute. reflexivity. Qed.

Example normalize_language_tag :
  normalize (js "```javascript" ++ [cuLF] ++ js "{}" ++ [cuLF] ++ js "```")
  = js "{}".
Proof. vm_compute. reflexivity. Qed.

Example normalize_prose_stays :
  normalize (js "Here you go: {}") = js "Here you go: {}".
Proof. vm_compute. reflexivity. Qed.

Example toString_integer :
  Number_toString (Finite false (js "15") 3) = js "150".
Proof. reflexivity. Qed.

Example toString_fraction :
  Number_toString (Finite true (js "15") 1) = js "-1.5".
Proof. reflexivity. Qed.

Example toString_small :
  Number_toString (Finite false (js "12") (-5)) = js "0.0000012".
Proof. reflexivity. Qed.

Example toString_exponent :
  Number_toString (Finite false (js "12") (-6)) = js "1.2e-7"
  /\ Number_toString (Finite false (js "1") 22) = js "1e+21"
  /\ Number_toString (Finite false (js "1") 21) = js "100000000000000000000".
Proof. repeat split. Qed.

Example parseNumber_forms :
  parseNumber (js "150,") = Some (Finite false (js "15") 3, js ",")
  /\ parseNumber (js "-0.00120e+2]") = Some (Finite true (js "12") 0, js "]")
  /\ parseNumber (js "1.2E-7") = Some (Finite false (js "12") (-6), [])
  /\ parseNumber (js "-0") = Some (Finite true [] 0, [])
  /\ parseNumber (js "01") = Some (Finite false [] 0, js "1")
  /\ parseNumber (js "1.") = None
  /\ parseNumber (js "-") = None.
Proof. repeat split. Qed.

Example stringify_pretty :
  JSON_stringify (VObject [(js "days", VArray [VNull; VBool true]);
                           (js "price", VNumber (Finite false (js "995") 2))]) 2
  = Some (js "{" ++ [cuLF]
          ++ js "  " ++ quoted "days" ++ js ": [" ++ [cuLF]
          ++ js "    null," ++ [cuLF]
          ++ js "    true" ++ [cuLF]
          ++ js "  ]," ++ [cuLF]
          ++ js "  " ++ quoted "price" ++ js ": 99.5" ++ [cuLF]
          ++ js "}").
Proof. vm_compute. reflexivity. Qed.

Example stringify_compact :
  JSON_stringify (VObject [(js "a", VArray [VUndefined; VNumber NaN]);
                           (js "b", VUndefined)]) 0
  = Some (js "{" ++ quoted "a" ++ js ":[null,null]}").
Proof. vm_compute. reflexivity. Qed.

Example stringify_undefined : JSON_stringify VUndefined 2 = None.
Proof. reflexivity. Qed.

Example stringify_escapes :
  JSON_stringify (VString [cuQuote; cuLF; 1%N; 55357%N; 56832%N; 55357%N]) 0
  = Some ([cuQuote; cuBackslash; cuQuote; cuBackslash] ++ js "n"
          ++ [cuBackslash] ++ js "u0001" ++ [55357%N; 56832%N; cuBackslash]
          ++ js "ud83d" ++ [cuQuote]).
Proof. vm_compute. reflexivity. Qed.

Example parse_orders_keys :
  JSON_parse (js " { " ++ quoted "b" ++ js ": 1, " ++ quoted "2" ++ js ":[], "
              ++ quoted "b" ++ js ": null, " ++ quoted "1" ++ js ": true } ")
  = Some (VObject [(js "1", VBool true); (js "2", VArray []); (js "b", VNull)]).
Proof. vm_compute. reflexivity. Qed.

Example parse_rejects :
  JSON_parse (js "hello") = None
  /\ JSON_parse (js "[1,]") = None
  /\ JSON_parse (js "{} {}") = None
  /\ JSON_parse (js "01") = None
  /\ JSON_parse [11%N; 49%N] = None
  /\ JSON_parse [] = None.
Proof. repeat split; vm_compute; reflexivity. Qed.

Example parse_skips_json_space :
  JSON_parse ([cuLF; 9%N; 32%N] ++ js "[ 1 , 2 ]" ++ [13%N])
  = Some (VArray [VNumber (Finite false (js "1") 1);
                  VNumber (Finite false (js "2") 1)]).
Proof. vm_compute. reflexivity. Qed.

Example render_scalars :
  renderNode (VArray [VNumber (Finite false (js "3") 1); VBool false]) 0
  = ENode "ul" (js "list-disc ps-5 mt-1 space-y-2 marker:text-[#c9922a]")
      [ENode "li" (js "text-gray-700")
         [ENode "span" (js "text-gray-700 text-sm font-medium") [EText (js "3")]];
       ENode "li" (js "text-gray-700")
         [ENode "span" (js "text-gray-700 text-sm font-medium")
            [EText (js "false")]]].
Proof. vm_compute. reflexivity. Qed.

Example save_valid_form :
  handleSave ({| saveToasts := []; onSaveCalls := [] |}, draft "Dubai" "dubai")
  = ({| saveToasts := []; onSaveCalls := [formData (draft "Dubai" "dubai")] |},
     setIsSaving true (draft "Dubai" "dubai")).
Proof. reflexivity. Qed.

Example blank_prompt_sends_nothing :
  handleAIGenerate sampleEngine notFound
    (pricingWorld (basePrice "1" 3), prompted "   ")
  = (pricingWorld (basePrice "1" 3), prompted "   ").
Proof. vm_compute. reflexivity. Qed.

(** * Verification *)

(** ** Character classes *)

Ltac bool_to_prop :=
  repeat first
    [ rewrite andb_true_iff | rewrite orb_true_iff | rewrite negb_true_iff
    | rewrite andb_false_iff | rewrite orb_false_iff | rewrite negb_false_iff
    | rewrite N.leb_le | rewrite N.leb_gt | rewrite N.eqb_eq | rewrite N.eqb_neq
    | rewrite N.ltb_lt | rewrite N.ltb_ge ].

Ltac bool_to_prop_in H :=
  repeat first
    [ rewrite andb_true_iff in H | rewrite orb_true_iff in H
    | rewrite negb_true_iff in H | rewrite andb_false_iff in H
    | rewrite orb_false_iff in H | rewrite negb_false_iff in H
    | rewrite N.leb_le in H | rewrite N.leb_gt in H
    | rewrite N.eqb_eq in H | rewrite N.eqb_neq in H
    | rewrite N.ltb_lt in H | rewrite N.ltb_ge in H ].

Ltac cu_unfold :=
  unfold isSlugChar, isSlugJunk, isWordChar, isLetter, isUpper, isLower,
    isDigit, isHyphen, isBacktick, isWhiteSpace, inRange, cuHyphen,
    cuUnderscore, cuBacktick, cuLF, cuQuote, cuBackslash in *.

(** Decides a statement about the class of a code unit by arithmetic. *)
Ltac cu_cases :=
  cu_unfold;
  repeat match goal with
    | H : _ = true |- _ => progress bool_to_prop_in H
    | H : _ = false |- _ => progress bool_to_prop_in H
    end;
  try match goal with
    | |- _ = true => idtac
    | |- _ = false => idtac
    | |- @eq bool _ _ => apply eq_true_iff_eq
    end;
  bool_to_prop; lia.

Lemma slugChar_spec c :
  isSlugChar c = negb (isSlugJunk c) && negb (isUpper c).
Proof. cu_cases. Qed.

Lemma slugChar_not_space c : isSlugChar c = true -> isWhiteSpace c = false.
Proof. intros H. cu_cases. Qed.

Lemma slugChar_not_junk c : isSlugChar c = true -> isSlugJunk c = false.
Proof. intros H. cu_cases. Qed.

Lemma hyphen_slugChar : isSlugChar cuHyphen = true.
Proof. reflexivity. Qed.

Lemma hyphen_not_upper : isUpper cuHyphen = false.
Proof. reflexivity. Qed.

(** ** Replacement *)

Lemma replaceAll_forallb (p : codeUnit -> bool) m repl :
  forallb p repl = true ->
  forall s k, forallb p s = true -> forallb p (replaceAll m repl k s) = true.
Proof.
  intros Hr; induction s as [|c r IH]; intros k Hs; simpl; trivial.
  simpl in Hs; apply andb_true_iff in Hs as [Hc Hs].
  destruct k as [|k]; [|now apply IH].
  destruct (m (c :: r)) as [[|n]|]; simpl.
  - now rewrite Hc, IH.
  - rewrite forallb_app, Hr. now apply IH.
  - now rewrite Hc, IH.
Qed.

Lemma runLength_zero_id p repl s :
  forallb (fun c => negb (p c)) s = true ->
  replaceAll (matchRun p) repl 0 s = s.
Proof.
  induction s as [|c r IH]; intros H; trivial.
  simpl in H. apply andb_true_iff in H as [Hc Hr]. apply negb_true_iff in Hc.
  assert (E : matchRun p (c :: r) = None)
    by (unfold matchRun; simpl; now rewrite Hc).
  cbn [replaceAll]. rewrite E. f_equal. now apply IH.
Qed.

Lemma filter_skip_run p s :
  filter (fun c => negb (p c)) (skipn (runLength p s) s)
  = filter (fun c => negb (p c)) s.
Proof.
  induction s as [|c r IH]; simpl; trivial.
  destruct (p c) eqn:E; simpl; [exact IH|now rewrite E].
Qed.

(** Deleting every run of [p] keeps exactly the code units outside [p]. *)
Lemma replaceAll_matchRun_filter p s :
  forall k, (k = 0 \/ k = runLength p s) ->
  replaceAll (matchRun p) [] k s = filter (fun c => negb (p c)) (skipn k s).
Proof.
  induction s as [|c r IH]; intros k Hk.
  - now destruct k.
  - destruct k as [|k].
    + simpl skipn. cbn [replaceAll]. unfold matchRun at 1. simpl runLength.
      destruct (p c) eqn:E.
      * simpl. rewrite E. simpl. rewrite IH by now right.
        apply filter_skip_run.
      * simpl. rewrite E. simpl. f_equal. now apply IH; left.
    + destruct Hk as [Hk|Hk]; [discriminate|].
      simpl in Hk. destruct (p c); [|discriminate].
      injection Hk as Hk. simpl. apply IH. now right.
Qed.

Lemma forallb_filter_self (p : codeUnit -> bool) s :
  forallb p (filter p s) = true.
Proof.
  induction s as [|c r IH]; simpl; trivial.
  destruct (p c) eqn:E; simpl; [now rewrite E|exact IH].
Qed.

Lemma forallb_filter_keep (p q : codeUnit -> bool) s :
  forallb p s = true -> forallb p (filter q s) = true.
Proof.
  induction s as [|c r IH]; simpl; trivial.
  intros H; apply andb_true_iff in H as [Hc Hr].
  destruct (q c); simpl; [now rewrite Hc, IH|now apply IH].
Qed.

(** ** Hyphen runs *)

Lemma reHyphens2_eq u :
  reHyphens2 u = match runLength isHyphen u with
                 | S (S n) => Some (S (S n))
                 | _ => None
                 end.
Proof. reflexivity. Qed.

Lemma collapse_no_double s :
  forall k, (k = 0 \/ k = runLength isHyphen s) ->
  hasDoubleHyphen (replaceAll reHyphens2 [cuHyphen] k s) = false
  /\ (k = runLength isHyphen s ->
      startsWithHyphen (replaceAll reHyphens2 [cuHyphen] k s) = false).
Proof.
  induction s as [|c r IH]; intros k Hk.
  - now destruct k.
  - destruct k as [|k].
    + cbn [replaceAll]. rewrite (reHyphens2_eq (c :: r)). simpl runLength.
      destruct (isHyphen c) eqn:Ec.
      * pose proof (IH 0) as IH0. pose proof (IH (runLength isHyphen r)) as IHr.
        destruct (runLength isHyphen r) as [|n].
        -- destruct IH0 as [A B]; [now left|]. specialize (B eq_refl).
           split; [|discriminate].
           simpl. rewrite A, orb_false_r.
           destruct (replaceAll reHyphens2 [cuHyphen] 0 r); simpl in *;
             [apply andb_false_r|now rewrite B, andb_false_r].
        -- destruct IHr as [A B]; [now right|]. specialize (B eq_refl).
           split; [|discriminate].
           simpl. rewrite A, orb_false_r.
           destruct (replaceAll reHyphens2 [cuHyphen] (S n) r); simpl in *;
             [reflexivity|now rewrite B].
      * destruct (IH 0) as [A _]; [now left|].
        split; simpl; now rewrite Ec.
    + destruct Hk as [Hk|Hk]; [discriminate|].
      simpl in Hk. destruct (isHyphen c); [|discriminate].
      injection Hk as Hk. cbn [replaceAll].
      destruct (IH k) as [A B]; [now right|]. split; [exact A|].
      intros _. now apply B.
Qed.

Lemma collapse_id repl s :
  hasDoubleHyphen s = false -> replaceAll reHyphens2 repl 0 s = s.
Proof.
  induction s as [|c r IH]; simpl; trivial.
  intros H; apply orb_false_iff in H as [Hc Hr].
  rewrite (reHyphens2_eq (c :: r)). simpl runLength.
  destruct (isHyphen c) eqn:Ec; [|now rewrite IH].
  destruct r as [|d r']; trivial.
  simpl in Hc. simpl runLength. rewrite Hc. now rewrite IH.
Qed.

Lemma hasDoubleHyphen_skipn s : forall n,
  hasDoubleHyphen s = false -> hasDoubleHyphen (skipn n s) = false.
Proof.
  induction s as [|c r IH]; intros [|n] H; trivial.
  simpl in *. apply orb_false_iff in H as [_ H]. now apply IH.
Qed.

Lemma hasDoubleHyphen_app_l s t :
  hasDoubleHyphen (s ++ t) = false -> hasDoubleHyphen s = false.
Proof.
  induction s as [|c r IH]; simpl; trivial.
  intros H; apply orb_false_iff in H as [Hc Hr].
  rewrite (IH Hr), orb_false_r.
  destruct r; simpl in *; [apply andb_false_r|exact Hc].
Qed.

Lemma skip_run_no_hyphen s :
  startsWithHyphen (skipn (runLength isHyphen s) s) = false.
Proof.
  induction s as [|c r IH]; simpl; trivial.
  destruct (isHyphen c) eqn:E; simpl; trivial.
Qed.

Lemma replaceAtStart_hyphens s :
  replaceAtStart reHyphens [] s = skipn (runLength isHyphen s) s.
Proof.
  unfold replaceAtStart, reHyphens, matchRun.
  now destruct (runLength isHyphen s).
Qed.

Lemma forallb_skipn (p : codeUnit -> bool) s : forall n,
  forallb p s = true -> forallb p (skipn n s) = true.
Proof.
  induction s as [|c r IH]; intros [|n] H; trivial.
  simpl in *. apply andb_true_iff in H as [_ H]. now apply IH.
Qed.

Lemma endsWithHyphen_cons c s :
  s <> [] -> endsWithHyphen (c :: s) = endsWithHyphen s.
Proof.
  intros Hs. unfold endsWithHyphen. simpl.
  destruct (rev s) eqn:E; trivial.
  apply (f_equal (@rev _)) in E. rewrite rev_involutive in E. now subst.
Qed.

Lemma endsWithHyphen_app_hyphens s t :
  t <> [] -> forallb isHyphen t = true -> endsWithHyphen (s ++ t) = true.
Proof.
  intros Ht Hall. unfold endsWithHyphen. rewrite rev_app_distr.
  destruct (rev t) as [|d t'] eqn:E.
  - apply (f_equal (@rev _)) in E. rewrite rev_involutive in E. now subst.
  - simpl. rewrite forallb_forall in Hall. apply Hall.
    apply in_rev. rewrite E. now left.
Qed.

Lemma replaceFirst_cons m repl c r :
  replaceFirst m repl (c :: r)
  = match m (c :: r) with
    | Some n => repl ++ skipn n (c :: r)
    | None => c :: replaceFirst m repl r
    end.
Proof. reflexivity. Qed.

Lemma reHyphensEnd_cons c r :
  reHyphensEnd (c :: r)
  = if forallb isHyphen (c :: r) then Some (List.length (c :: r)) else None.
Proof. reflexivity. Qed.

(** [/-+$/] cuts the string just before its trailing hyphens. *)
Lemma replaceFirst_hyphensEnd s :
  exists t, s = replaceFirst reHyphensEnd [] s ++ t
            /\ forallb isHyphen t = true
            /\ endsWithHyphen (replaceFirst reHyphensEnd [] s) = false.
Proof.
  induction s as [|c r IH].
  - now exists [].
  - rewrite replaceFirst_cons, reHyphensEnd_cons.
    destruct (forallb isHyphen (c :: r)) eqn:E.
    + rewrite skipn_all. exists (c :: r). now repeat split.
    + destruct IH as (t & Hs & Ht & He). exists t. repeat split; trivial.
      * simpl. now rewrite <- Hs.
      * destruct (replaceFirst reHyphensEnd [] r) as [|d r'] eqn:Er.
        -- simpl in Hs; subst r. simpl in E. rewrite Ht, andb_true_r in E.
           unfold endsWithHyphen; simpl. exact E.
        -- now rewrite endsWithHyphen_cons.
Qed.

Lemma replaceFirst_hyphensEnd_id s :
  endsWithHyphen s = false -> replaceFirst reHyphensEnd [] s = s.
Proof.
  intros H. destruct (replaceFirst_hyphensEnd s) as (t & Hs & Ht & _).
  destruct t as [|d t'].
  - now rewrite app_nil_r in Hs.
  - rewrite Hs in H at 1.
    rewrite endsWithHyphen_app_hyphens in H; [discriminate| |exact Ht].
    discriminate.
Qed.

Lemma prefix_keeps (p : codeUnit -> bool) s t :
  forallb p (s ++ t) = true -> forallb p s = true.
Proof. rewrite forallb_app. intros H. now apply andb_true_iff in H. Qed.

Lemma startsWithHyphen_app_l s t :
  startsWithHyphen (s ++ t) = false -> startsWithHyphen s = false.
Proof. now destruct s. Qed.

(** ** [slugify] *)

Section SlugifyFacts.

Variable toLowerCase : jsstring -> jsstring.

(** The two facts about [toLowerCase] that [slugify] depends on: its result
    holds no [A]-[Z], and it leaves text without cased letters alone. *)
Hypothesis toLowerCase_no_upper :
  forall s, forallb (fun c => negb (isUpper c)) (toLowerCase s) = true.
Hypothesis toLowerCase_slug :
  forall s, forallb isSlugChar s = true -> toLowerCase s = s.

Lemma slugify_wellFormed s : wellFormedSlug (slugify toLowerCase s) = true.
Proof.
  unfold slugify.
  set (s0 := toLowerCase s).
  set (s1 := replaceAll reSpaces [cuHyphen] 0 s0).
  set (s2 := replaceAll reNonWord [] 0 s1).
  set (s3 := replaceAll reHyphens2 [cuHyphen] 0 s2).
  set (s4 := replaceAtStart reHyphens [] s3).
  assert (U1 : forallb (fun c => negb (isUpper c)) s1 = true).
  { apply replaceAll_forallb; [reflexivity|apply toLowerCase_no_upper]. }
  assert (C2 : forallb isSlugChar s2 = true).
  { unfold s2, reNonWord. rewrite replaceAll_matchRun_filter by now left.
    simpl skipn.
    assert (A := forallb_filter_self (fun c => negb (isSlugJunk c)) s1).
    assert (B := forallb_filter_keep _ (fun c => negb (isSlugJunk c)) s1 U1).
    rewrite forallb_forall in *. intros c Hc.
    rewrite slugChar_spec. now rewrite (A c Hc), (B c Hc). }
  assert (C3 : forallb isSlugChar s3 = true).
  { now apply replaceAll_forallb. }
  destruct (collapse_no_double s2 0) as [D3 _]; [now left|].
  fold s3 in D3.
  assert (E4 : s4 = skipn (runLength isHyphen s3) s3)
    by apply replaceAtStart_hyphens.
  assert (C4 : forallb isSlugChar s4 = true)
    by (rewrite E4; now apply forallb_skipn).
  assert (D4 : hasDoubleHyphen s4 = false)
    by (rewrite E4; now apply hasDoubleHyphen_skipn).
  assert (S4 : startsWithHyphen s4 = false)
    by (rewrite E4; apply skip_run_no_hyphen).
  destruct (replaceFirst_hyphensEnd s4) as (t & Hs & Ht & He).
  set (s5 := replaceFirst reHyphensEnd [] s4) in *.
  rewrite Hs in C4, D4, S4.
  unfold wellFormedSlug.
  rewrite (prefix_keeps _ _ _ C4), (hasDoubleHyphen_app_l _ _ D4),
    (startsWithHyphen_app_l _ _ S4), He.
  reflexivity.
Qed.

Lemma slugify_fixes_slugs s : wellFormedSlug s = true -> slugify toLowerCase s = s.
Proof.
  unfold wellFormedSlug. intros H.
  apply andb_true_iff in H as [H He].
  apply andb_true_iff in H as [H Hs].
  apply andb_true_iff in H as [Hc Hd].
  apply negb_true_iff in He, Hs, Hd.
  unfold slugify. rewrite (toLowerCase_slug _ Hc).
  unfold reSpaces. rewrite runLength_zero_id.
  2:{ rewrite forallb_forall in *. intros c Hin.
      now rewrite (slugChar_not_space _ (Hc c Hin)). }
  unfold reNonWord. rewrite runLength_zero_id.
  2:{ rewrite forallb_forall in *. intros c Hin.
      now rewrite (slugChar_not_junk _ (Hc c Hin)). }
  rewrite (collapse_id _ _ Hd).
  rewrite replaceAtStart_hyphens.
  assert (R : runLength isHyphen s = 0).
  { destruct s; simpl in *; trivial. now rewrite Hs. }
  rewrite R. simpl skipn.
  now apply replaceFirst_hyphensEnd_id.
Qed.

(** C10. [slugify] is idempotent, and a slug holds only lowercase word
    characters ([a-z], [0-9], [_]) and single interior hyphens: no hyphen
    at either end and no two hyphens in a row.  [toLowerCase] is taken with
    the two properties it has in ECMAScript. *)
Theorem slugify_idempotent s :
  slugify toLowerCase (slugify toLowerCase s) = slugify toLowerCase s
  /\ wellFormedSlug (slugify toLowerCase s) = true.
Proof.
  split.
  - apply slugify_fixes_slugs, slugify_wellFormed.
  - apply slugify_wellFormed.
Qed.

End SlugifyFacts.

Lemma toLowerCaseAscii_no_upper s :
  forallb (fun c => negb (isUpper c)) (toLowerCaseAscii s) = true.
Proof.
  unfold toLowerCaseAscii. induction s as [|c r IH]; simpl; trivial.
  rewrite IH, andb_true_r.
  destruct (isUpper c) eqn:E; [|now rewrite E].
  cu_cases.
Qed.

Lemma toLowerCaseAscii_slug s :
  forallb isSlugChar s = true -> toLowerCaseAscii s = s.
Proof.
  unfold toLowerCaseAscii. induction s as [|c r IH]; simpl; trivial.
  intros H; apply andb_true_iff in H as [Hc Hr]. rewrite (IH Hr). f_equal.
  destruct (isUpper c) eqn:E; trivial. cu_cases.
Qed.

Lemma slugify_idempotent_witness :
  slugify toLowerCaseAscii (slugify toLowerCaseAscii (js "  7 Days -- Dubai!  "))
  = slugify toLowerCaseAscii (js "  7 Days -- Dubai!  ")
  /\ wellFormedSlug (slugify toLowerCaseAscii (js "  7 Days -- Dubai!  ")) = true.
Proof.
  exact (slugify_idempotent toLowerCaseAscii toLowerCaseAscii_no_upper
           toLowerCaseAscii_slug (js "  7 Days -- Dubai!  ")).
Defined.

(** ** Fence stripping *)

Lemma js_fence_json : js "```json" = (fence ++ [106; 115; 111; 110])%N.
Proof. reflexivity. Qed.

Lemma startsWith_fence_app t r :
  startsWith fence (t ++ cuLF :: r) = startsWith fence t.
Proof.
  destruct t as [|a [|b [|c t']]]; simpl; trivial;
    repeat match goal with
      | |- context [N.eqb cuBacktick ?y] => destruct (N.eqb cuBacktick y); simpl
      end; trivial.
Qed.

Lemma eqIgnoreCase_backtick c :
  eqIgnoreCase cuBacktick c = true -> N.eqb cuBacktick c = true.
Proof.
  unfold eqIgnoreCase, canonicalize.
  change (isLower cuBacktick) with false. cbv iota.
  destruct (isLower c) eqn:E; trivial.
  intros H. cu_cases.
Qed.

Lemma reFenceJson_fenceOnly : fenceOnly reFenceJson.
Proof.
  intros u H. unfold reFenceJson.
  destruct (startsWithIgnoreCase (js "```json") u) eqn:E; trivial.
  rewrite js_fence_json in E.
  unfold fence in E.
  destruct u as [|a [|b [|c u']]]; cbn [startsWithIgnoreCase app] in E;
    repeat (apply andb_true_iff in E; destruct E as [?Ea E]);
    try discriminate.
  apply eqIgnoreCase_backtick in Ea, Ea0, Ea1.
  unfold fence in H. cbn [startsWith] in H. now rewrite Ea, Ea0, Ea1 in H.
Qed.

Lemma reFenceLang_fenceOnly : fenceOnly reFenceLang.
Proof. intros u H. unfold reFenceLang. now rewrite H. Qed.

Lemma reFence_fenceOnly : fenceOnly reFence.
Proof. intros u H. unfold reFence. now rewrite H. Qed.

Lemma replaceAll_cons_none m repl c r :
  m (c :: r) = None ->
  replaceAll m repl 0 (c :: r) = c :: replaceAll m repl 0 r.
Proof. intros H. cbn [replaceAll]. now rewrite H. Qed.

(** A pattern that starts with a fence finds nothing in a text without one,
    up to the line feed that follows it. *)
Lemma replaceAll_no_fence m repl tail :
  fenceOnly m ->
  forall t, hasFence t = false ->
  replaceAll m repl 0 (t ++ cuLF :: tail)
  = t ++ cuLF :: replaceAll m repl 0 tail.
Proof.
  intros Hm. induction t as [|c t IH]; intros H.
  - simpl app. apply replaceAll_cons_none. now apply Hm.
  - simpl in H. apply orb_false_iff in H as [H1 H2].
    simpl app. rewrite replaceAll_cons_none.
    + now rewrite IH.
    + apply Hm. change (c :: t ++ cuLF :: tail) with ((c :: t) ++ cuLF :: tail).
      now rewrite startsWith_fence_app.
Qed.

Lemma trimStart_app_ws t w :
  isWhiteSpace w = true ->
  trimStart (t ++ [w])
  = match trimStart t with [] => [] | x => x ++ [w] end.
Proof.
  intros Hw. induction t as [|c t IH]; simpl.
  - now rewrite Hw.
  - destruct (isWhiteSpace c); trivial.
Qed.

Lemma trimEnd_app_ws x w :
  isWhiteSpace w = true -> trimEnd (x ++ [w]) = trimEnd x.
Proof.
  intros Hw. unfold trimEnd. rewrite rev_app_distr. simpl. now rewrite Hw.
Qed.

Lemma trim_between_line_feeds t : trim (t ++ [cuLF]) = trim t.
Proof.
  unfold trim. rewrite trimStart_app_ws by reflexivity.
  destruct (trimStart t); trivial.
  now rewrite trimEnd_app_ws.
Qed.

Lemma normalize_wrapJsonFence t :
  hasFence t = false -> normalize (wrapJsonFence t) = trim t.
Proof.
  intros H. unfold normalize, wrapJsonFence.
  rewrite js_fence_json.
  change (replaceAll reFenceJson [] 0
            ((fence ++ [106; 115; 111; 110]%N) ++ [cuLF] ++ t ++ [cuLF] ++ fence))
    with (replaceAll reFenceJson [] 0 ([] ++ cuLF :: (t ++ cuLF :: fence))).
  rewrite (replaceAll_no_fence _ [] _ reFenceJson_fenceOnly [] eq_refl).
  rewrite (replaceAll_no_fence _ [] _ reFenceJson_fenceOnly t H).
  change (replaceAll reFenceJson [] 0 fence) with fence.
  rewrite (replaceAll_no_fence _ [] _ reFenceLang_fenceOnly [] eq_refl).
  rewrite (replaceAll_no_fence _ [] _ reFenceLang_fenceOnly t H).
  change (replaceAll reFenceLang [] 0 fence) with fence.
  rewrite (replaceAll_no_fence _ [] _ reFence_fenceOnly [] eq_refl).
  rewrite (replaceAll_no_fence _ [] _ reFence_fenceOnly t H).
  change (replaceAll reFence [] 0 fence) with (@nil codeUnit).
  simpl app. unfold trim at 1. simpl trimStart.
  apply trim_between_line_feeds.
Qed.

Lemma normalize_wrapPlainFence t :
  hasFence t = false -> normalize (wrapPlainFence t) = trim t.
Proof.
  intros H. unfold normalize, wrapPlainFence.
  change (replaceAll reFenceJson [] 0 (fence ++ [cuLF] ++ t ++ [cuLF] ++ fence))
    with (fence ++ replaceAll reFenceJson [] 0 ([] ++ cuLF :: (t ++ cuLF :: fence))).
  rewrite (replaceAll_no_fence _ [] _ reFenceJson_fenceOnly [] eq_refl).
  rewrite (replaceAll_no_fence _ [] _ reFenceJson_fenceOnly t H).
  change (replaceAll reFenceJson [] 0 fence) with fence.
  change (replaceAll reFenceLang [] 0
            (fence ++ [] ++ cuLF :: t ++ cuLF :: fence))
    with (replaceAll reFenceLang [] 0 (t ++ cuLF :: fence)).
  rewrite (replaceAll_no_fence _ [] _ reFenceLang_fenceOnly t H).
  change (replaceAll reFenceLang [] 0 fence) with fence.
  rewrite (replaceAll_no_fence _ [] _ reFence_fenceOnly t H).
  change (replaceAll reFence [] 0 fence) with (@nil codeUnit).
  apply trim_between_line_feeds.
Qed.

(** ** [callOpenRouter] *)

Lemma callOpenRouter_non2xx response :
  ok response = false ->
  callOpenRouter (FetchResolved response)
  = ([Error (js "API Error: " ++ statusText response)],
     Thrown (Error generationFailed)).
Proof.
  intros H. unfold callOpenRouter, callOpenRouter_try. now rewrite H.
Qed.

Lemma callOpenRouter_unparsable net :
  unparsableAnswer net ->
  exists logged, callOpenRouter net = ([logged], Thrown (Error generationFailed)).
Proof.
  destruct net as [|response]; [intros []|].
  intros (Hok & data & text & Hbody & Hcontent & Hparse).
  unfold callOpenRouter, callOpenRouter_try.
  rewrite Hok, Hbody, Hcontent. simpl. rewrite Hparse. eauto.
Qed.

Lemma callOpenRouter_fails net :
  non2xx net \/ unparsableAnswer net ->
  exists logged, callOpenRouter net = ([logged], Thrown (Error generationFailed)).
Proof.
  intros [H|H].
  - destruct net as [|response]; [destruct H|].
    rewrite (callOpenRouter_non2xx _ H). eauto.
  - now apply callOpenRouter_unparsable.
Qed.

Lemma proseAnswer_unparsable : unparsableAnswer proseAnswer.
Proof.
  split; [reflexivity|].
  exists (completion (js "Sorry, I cannot do that.")), (js "Sorry, I cannot do that.").
  repeat split; vm_compute; reflexivity.
Qed.

(** C1, as stated, fails: on a 404 the caller gets the fixed message, in
    which the status text does not occur, and gets the very same error when
    a 2xx answer is prose. *)
Lemma status_text_not_surfaced :
  snd (callOpenRouter notFound) = Thrown (Error generationFailed)
  /\ includes (js "Not Found") generationFailed = false
  /\ unparsableAnswer proseAnswer
  /\ snd (callOpenRouter proseAnswer) = snd (callOpenRouter notFound).
Proof.
  split; [reflexivity|]. split; [vm_compute; reflexivity|].
  split; [exact proseAnswer_unparsable|]. vm_compute. reflexivity.
Qed.

(** C1, amended.  When the endpoint returns a non-2xx status the call fails
    with the fixed message "AI returned invalid JSON format or failed to
    generate."; the status text goes to [console.error] only.  The error
    thrown when a 2xx answer does not parse is the same one. *)
Theorem callOpenRouter_failures_collapse response net :
  ok response = false ->
  unparsableAnswer net ->
  callOpenRouter (FetchResolved response)
  = ([Error (js "API Error: " ++ statusText response)],
     Thrown (Error generationFailed))
  /\ snd (callOpenRouter net) = snd (callOpenRouter (FetchResolved response)).
Proof.
  intros Hok Hnet. rewrite (callOpenRouter_non2xx _ Hok). split; trivial.
  destruct (callOpenRouter_unparsable _ Hnet) as [logged ->]. reflexivity.
Qed.

Lemma callOpenRouter_failures_collapse_witness :
  callOpenRouter notFound
  = ([Error (js "API Error: " ++ js "Not Found")], Thrown (Error generationFailed))
  /\ snd (callOpenRouter proseAnswer) = snd (callOpenRouter notFound).
Proof.
  exact (callOpenRouter_failures_collapse
           {| ok := false; statusText := js "Not Found"; body := [] |}
           proseAnswer eq_refl proseAnswer_unparsable).
Defined.

(** ** [AIAssistedEditor]: generation *)

Section EditorFacts.

Variable engineMessage : Exn -> jsstring.

(** C2. A generation attempt that fails, on a non-2xx status or on text
    that is not JSON once normalized, leaves the Document as it was, calls
    [onChange] not at all, and emits exactly one error toast. *)
Theorem failed_generation_keeps_document w st net :
  isEmpty (trim (prompt st)) = false ->
  non2xx net \/ unparsableAnswer net ->
  let after := handleAIGenerate engineMessage net (w, st) in
  document (fst after) = document w
  /\ onChangeCalls (fst after) = onChangeCalls w
  /\ toasts (fst after) = toasts w ++ [(generationFailed, ToastType.error)].
Proof.
  intros Hprompt Hnet.
  unfold handleAIGenerate, handleAIGenerate_start. rewrite Hprompt.
  unfold handleAIGenerate_resume.
  destruct (callOpenRouter_fails _ Hnet) as [logged ->].
  simpl. auto.
Qed.

(** A generation whose answer parses hands the parsed value to [onChange]
    and emits one success toast. *)
Lemma successful_generation w st net newData :
  isEmpty (trim (prompt st)) = false ->
  callOpenRouter_try net = Returned newData ->
  let after := handleAIGenerate engineMessage net (w, st) in
  document (fst after) = newData
  /\ onChangeCalls (fst after) = onChangeCalls w ++ [newData]
  /\ toasts (fst after) = toasts w ++ [(js "Update successful", ToastType.success)].
Proof.
  intros Hprompt Hnet.
  unfold handleAIGenerate, handleAIGenerate_start. rewrite Hprompt.
  unfold handleAIGenerate_resume, callOpenRouter. rewrite Hnet.
  simpl. auto.
Qed.

End EditorFacts.

Lemma failed_generation_keeps_document_witness :
  isEmpty (trim (prompt (prompted "add a day"))) = false
  /\ non2xx notFound
  /\ document (fst (handleAIGenerate sampleEngine notFound
                      (pricingWorld (basePrice "1" 3), prompted "add a day")))
     = basePrice "1" 3
  /\ toasts (fst (handleAIGenerate sampleEngine notFound
                    (pricingWorld (basePrice "1" 3), prompted "add a day")))
     = [(generationFailed, ToastType.error)].
Proof.
  assert (H1 : isEmpty (trim (prompt (prompted "add a day"))) = false)
    by reflexivity.
  assert (H2 : non2xx notFound) by reflexivity.
  split; [exact H1|]. split; [exact H2|].
  destruct (failed_generation_keeps_document sampleEngine
              (pricingWorld (basePrice "1" 3)) (prompted "add a day") notFound
              H1 (or_introl H2)) as (A & _ & C).
  split; [exact A|exact C].
Defined.

Section EditorClaims.

Variable engineMessage : Exn -> jsstring.

(** C4. Every successful generation replaces the Document by the parsed
    answer as it is, with no merge, and emits exactly one success toast.
    For the Document [{"base_price": 100}] and the answer
    [{"base_price": 150}] the Document becomes [{"base_price": 150}], and
    the same answer inside a [```json] fence gives the same Document. *)
Theorem generation_replaces_document w st net newData :
  isEmpty (trim (prompt st)) = false ->
  callOpenRouter_try net = Returned newData ->
  (let after := handleAIGenerate engineMessage net (w, st) in
   document (fst after) = newData
   /\ onChangeCalls (fst after) = onChangeCalls w ++ [newData]
   /\ toasts (fst after) = toasts w ++ [(js "Update successful", ToastType.success)])
  /\ (let before := (pricingWorld (basePrice "1" 3), prompted "change price to 150") in
      let plain := handleAIGenerate engineMessage (answer priceAnswer) before in
      let fenced :=
        handleAIGenerate engineMessage (answer (wrapJsonFence priceAnswer)) before in
      document (fst plain) = basePrice "15" 3
      /\ toasts (fst plain) = [(js "Update successful", ToastType.success)]
      /\ document (fst fenced) = document (fst plain)
      /\ toasts (fst fenced) = [(js "Update successful", ToastType.success)]).
Proof.
  intros Hprompt Hnet. split.
  - now apply successful_generation.
  - vm_compute. auto.
Qed.

(** C5. In raw mode a keystroke parses the text, sets or clears the inline
    error and calls nothing; a blur replaces the Document by the parsed
    text when it parses and otherwise shows the parser's message inline and
    leaves the Document alone. *)
Theorem raw_text_commits_on_blur w st text :
  (let typed := handleRawChange engineMessage text (w, st) in
   fst typed = w
   /\ rawText (snd typed) = text
   /\ error (snd typed)
      = match JSON_parse text with
        | Some _ => []
        | None => messageOf engineMessage (SyntaxError text)
        end)
  /\ (let blurred := handleRawBlur engineMessage (w, st) in
      match JSON_parse (rawText st) with
      | Some parsed =>
          document (fst blurred) = parsed
          /\ onChangeCalls (fst blurred) = onChangeCalls w ++ [parsed]
          /\ error (snd blurred) = []
      | None =>
          fst blurred = w
          /\ error (snd blurred)
             = messageOf engineMessage (SyntaxError (rawText st))
          /\ errorBanner (snd blurred)
             = (if isEmpty (messageOf engineMessage (SyntaxError (rawText st)))
                then None
                else Some (messageOf engineMessage (SyntaxError (rawText st))))
      end).
Proof.
  split.
  - unfold handleRawChange. destruct (JSON_parse text); simpl; auto.
  - unfold handleRawBlur. destruct (JSON_parse (rawText st)); simpl; auto.
    repeat split. unfold errorBanner. simpl.
    now destruct (engineMessage (SyntaxError (rawText st))).
Qed.

End EditorClaims.

Lemma generation_replaces_document_witness :
  isEmpty (trim (prompt (prompted "change price to 150"))) = false
  /\ callOpenRouter_try (answer priceAnswer) = Returned (basePrice "15" 3)
  /\ document (fst (handleAIGenerate sampleEngine (answer priceAnswer)
                      (pricingWorld (basePrice "1" 3), prompted "change price to 150")))
     = basePrice "15" 3.
Proof.
  assert (H1 : isEmpty (trim (prompt (prompted "change price to 150"))) = false)
    by reflexivity.
  assert (H2 : callOpenRouter_try (answer priceAnswer) = Returned (basePrice "15" 3))
    by (vm_compute; reflexivity).
  split; [exact H1|]. split; [exact H2|].
  exact (proj1 (proj1 (generation_replaces_document sampleEngine
                         (pricingWorld (basePrice "1" 3))
                         (prompted "change price to 150") _ _ H1 H2))).
Defined.

(** ** [TourEditor]: [handleSave] *)

(** C9. With an empty title, an empty slug or a slug known to be taken,
    [handleSave] does not call [onSave]; it emits one error toast and
    focuses the basic-info tab. *)
Theorem invalid_form_is_not_saved w st :
  truthy (getOwn (js "title") (formData st)) = false
  \/ truthy (getOwn (js "slug") (formData st)) = false
  \/ slugError st <> [] ->
  let after := handleSave (w, st) in
  onSaveCalls (fst after) = onSaveCalls w
  /\ (exists message, saveToasts (fst after) = saveToasts w ++ [(message, ToastType.error)])
  /\ activeTab (snd after) = TabBasic
  /\ formData (snd after) = formData st.
Proof.
  intros H. unfold handleSave.
  destruct (negb (truthy (getOwn (js "title") (formData st)))
            || negb (truthy (getOwn (js "slug") (formData st)))) eqn:E.
  - simpl. eauto 6.
  - destruct (negb (isEmpty (slugError st))) eqn:E2.
    + simpl. eauto 6.
    + exfalso. apply orb_false_iff in E as [E1 E3].
      apply negb_false_iff in E1, E3, E2.
      destruct H as [H|[H|H]]; try congruence.
      destruct (slugError st); [now apply H|discriminate].
Qed.

Lemma invalid_form_is_not_saved_witness :
  truthy (getOwn (js "title") (formData (draft "" "dubai"))) = false
  /\ onSaveCalls (fst (handleSave ({| saveToasts := []; onSaveCalls := [] |},
                                   draft "" "dubai"))) = [].
Proof.
  split; [reflexivity|].
  exact (proj1 (invalid_form_is_not_saved
                  {| saveToasts := []; onSaveCalls := [] |} (draft "" "dubai")
                  (or_introl eq_refl))).
Defined.

(** ** Tree mode *)

Lemma renderNode_array before x after depth :
  renderNode (VArray (before ++ x :: after)) depth
  = ENode "ul" (js "list-disc ps-5 mt-1 space-y-2 marker:text-[#c9922a]")
      (map (fun item => listItem item (renderNode item (depth + 1))) before
       ++ listItem x (renderNode x (depth + 1))
       :: map (fun item => listItem item (renderNode item (depth + 1))) after).
Proof.
  cbn [renderNode]. rewrite map_app. cbn [map].
  now destruct before.
Qed.

Lemma renderNode_object before k x after depth :
  renderNode (VObject (before ++ (k, x) :: after)) depth
  = ENode "div" (js "mt-2 space-y-3 " ++ (if Nat.ltb 0 depth then js "ms-2" else []))
      (map (fun kv => propertyRow (fst kv) (snd kv) (renderNode (snd kv) (depth + 1)))
         before
       ++ propertyRow k x (renderNode x (depth + 1))
       :: map (fun kv => propertyRow (fst kv) (snd kv) (renderNode (snd kv) (depth + 1)))
            after).
Proof.
  cbn [renderNode]. rewrite map_app. cbn [map fst snd].
  now destruct before.
Qed.

Lemma place_isObject p v :
  isRoot p = false -> isObject (place p v) = true.
Proof. now destruct p. Qed.

Lemma renderNode_blank a depth :
  renderNode (blank a) depth = marker (markerText a).
Proof. now destruct a. Qed.

Lemma marker_injective a b : marker a = marker b -> js a = js b.
Proof. intros H. now injection H. Qed.

Lemma blank_markers_differ a b depth :
  markerText a <> markerText b ->
  renderNode (blank a) depth <> renderNode (blank b) depth.
Proof.
  intros Hab H. rewrite !renderNode_blank in H. apply marker_injective in H.
  destruct a, b; try (now elim Hab); vm_compute in H; discriminate H.
Qed.

Lemma blank_items_differ a b depth :
  markerText a <> markerText b ->
  listItem (blank a) (renderNode (blank a) depth)
  <> listItem (blank b) (renderNode (blank b) depth).
Proof.
  intros Hab H. destruct a, b; try (now elim Hab);
    vm_compute in H; discriminate H.
Qed.

Lemma blank_rows_differ k a b depth :
  markerText a <> markerText b ->
  propertyRow k (blank a) (renderNode (blank a) depth)
  <> propertyRow k (blank b) (renderNode (blank b) depth).
Proof.
  intros Hab H. unfold propertyRow in H.
  destruct a, b; try (now elim Hab); cbn [blank renderNode] in H;
    injection H as H; vm_compute in H; discriminate H.
Qed.

(** The renderings of blank values with different markers differ wherever
    they stand. *)
Lemma blank_renderings_differ a b :
  markerText a <> markerText b ->
  forall p depth,
    renderNode (place p (blank a)) depth <> renderNode (place p (blank b)) depth.
Proof.
  intros Hab. induction p as [|before inner IH after|before key inner IH after];
    intros depth.
  - now apply blank_markers_differ.
  - cbn [place]. rewrite !renderNode_array. intros H.
    injection H as H. apply app_inv_head in H.
    apply (f_equal (hd ENull)) in H. cbn [hd] in H.
    destruct inner as [| |].
    + revert H. now apply blank_items_differ.
    + unfold listItem in H. rewrite !place_isObject in H by reflexivity.
      injection H as H. now apply IH in H.
    + unfold listItem in H. rewrite !place_isObject in H by reflexivity.
      injection H as H. now apply IH in H.
  - cbn [place]. rewrite !renderNode_object. intros H.
    injection H as H. apply app_inv_head in H.
    apply (f_equal (hd ENull)) in H. cbn [hd] in H.
    destruct inner as [| |].
    + revert H. now apply blank_rows_differ.
    + unfold propertyRow in H. cbn [place] in H. injection H as H.
      now apply (IH (depth + 1)).
    + unfold propertyRow in H. cbn [place] in H. injection H as H.
      now apply (IH (depth + 1)).
Qed.

Lemma previewPane_below_root t p v :
  isRoot p = false ->
  previewPane t (place p v) = HumanReadableDisplay (place p v).
Proof.
  intros Hp. unfold previewPane.
  destruct p as [|before inner after|before key inner after]; [discriminate| |];
    cbn [place]; now destruct before.
Qed.

Lemma HumanReadableDisplay_injective v1 v2 :
  isObject v1 = true -> isObject v2 = true ->
  HumanReadableDisplay v1 = HumanReadableDisplay v2 ->
  renderNode v1 0 = renderNode v2 0.
Proof.
  intros H1 H2 H. destruct v1; try discriminate; destruct v2; try discriminate;
    unfold HumanReadableDisplay in H; now injection H.
Qed.

(** C8, as stated, fails: at the root of the tree-mode pane an empty array,
    [null] and an empty object are all rendered as the same "no data"
    placeholder. *)
Lemma blank_documents_render_alike :
  previewPane identityTranslation (place Root (blank EmptyList))
  = previewPane identityTranslation (place Root (blank Null))
  /\ previewPane identityTranslation (place Root (blank Null))
     = previewPane identityTranslation (place Root (blank EmptyObject))
  /\ previewPane identityTranslation (place Root (blank EmptyList))
     = ENode "div"
         (js "text-center py-12 px-4 text-gray-500 h-full flex flex-col justify-center items-center")
         [EIcon "Bot" 48 (js "mb-4 text-gray-200");
          ENode "p" (js "text-sm font-medium mb-1") [EText (js "noData")];
          ENode "p" (js "text-xs") [EText (js "typeInstructions")]].
Proof. repeat split. Qed.

(** C8, amended.  [renderNode] gives an empty array ("Empty list"),
    [null] or [undefined] ("Not provided") and an empty object ("Empty")
    three pairwise distinct outputs at every depth, and the tree-mode pane
    renders a Document differently according to which of the three stands
    at a place below its root.  At the root itself the pane shows one
    placeholder for all of them. *)
Theorem blank_markers_distinct t a b p depth :
  markerText a <> markerText b ->
  isRoot p = false ->
  renderNode (blank a) depth = marker (markerText a)
  /\ renderNode (blank a) depth <> renderNode (blank b) depth
  /\ previewPane t (place p (blank a)) <> previewPane t (place p (blank b))
  /\ previewPane t (blank a) = previewPane t (blank b).
Proof.
  intros Hab Hp. split; [apply renderNode_blank|].
  split; [now apply blank_markers_differ|]. split.
  - rewrite !previewPane_below_root by exact Hp. intros H.
    apply HumanReadableDisplay_injective in H; try now apply place_isObject.
    revert H. now apply blank_renderings_differ.
  - now destruct a, b.
Qed.

Lemma blank_markers_distinct_witness :
  markerText EmptyList <> markerText Null
  /\ isRoot (Property [] (js "highlights") Root []) = false
  /\ previewPane identityTranslation
       (VObject [(js "highlights", VArray [])])
     <> previewPane identityTranslation
          (VObject [(js "highlights", VNull)]).
Proof.
  assert (H : markerText EmptyList <> markerText Null) by discriminate.
  split; [exact H|]. split; [reflexivity|].
  exact (proj1 (proj2 (proj2 (blank_markers_distinct identityTranslation _ _
                                (Property [] (js "highlights") Root []) 0
                                H eq_refl)))).
Defined.

(** ** Raw mode *)

Lemma valueProp_truthy w : truthy (valueProp w) = true.
Proof.
  unfold valueProp, jsOr. destruct (truthy (document w)) eqn:E; trivial.
  unfold emptyDocument. now destruct (jsstring_eqb _ _).
Qed.

Lemma valueProp_or_empty w : jsOr (valueProp w) emptyObject = valueProp w.
Proof. unfold jsOr at 1. now rewrite valueProp_truthy. Qed.

Lemma valueProp_document w : truthy (document w) = true -> valueProp w = document w.
Proof. unfold valueProp, jsOr. now intros ->. Qed.

Lemma setMode_raw_from_preview w st :
  mode st = preview ->
  setMode raw (w, st)
  = (w, {| mode := raw; rawText := prettyPrint (valueProp w); error := [];
           prompt := prompt st; isProcessing := isProcessing st |}).
Proof.
  intros H. unfold setMode. rewrite H. cbn.
  now rewrite valueProp_or_empty.
Qed.

Lemma setMode_preview_from_raw w st :
  mode st = raw ->
  setMode preview (w, st)
  = (w, {| mode := preview; rawText := rawText st; error := error st;
           prompt := prompt st; isProcessing := isProcessing st |}).
Proof. intros H. unfold setMode. now rewrite H. Qed.

Section RawModeFacts.

Variable engineMessage : Exn -> jsstring.

Lemma rawEvents_cons e es ws :
  rawEvents engineMessage (e :: es) ws
  = rawEvents engineMessage es (rawEvent engineMessage e ws).
Proof. reflexivity. Qed.

(** Events that leave unparsable text leave the world alone. *)
Lemma rawEvents_invalid es : forall w st,
  JSON_parse (rawText st) = None ->
  forallb typesInvalidText es = true ->
  fst (rawEvents engineMessage es (w, st)) = w
  /\ mode (snd (rawEvents engineMessage es (w, st))) = mode st
  /\ prompt (snd (rawEvents engineMessage es (w, st))) = prompt st
  /\ isProcessing (snd (rawEvents engineMessage es (w, st))) = isProcessing st.
Proof.
  induction es as [|e es IH]; intros w st Hraw Hes; [now cbn|].
  cbn in Hes. apply andb_true_iff in Hes as [He Hes].
  rewrite rawEvents_cons.
  destruct e as [text|]; cbn [rawEvent].
  - cbn in He. unfold handleRawChange.
    destruct (JSON_parse text) eqn:E; [discriminate|].
    exact (IH w (setError (messageOf engineMessage (SyntaxError text))
                   (setRawText text st)) E Hes).
  - unfold handleRawBlur. rewrite Hraw.
    exact (IH w (setError (messageOf engineMessage (SyntaxError (rawText st))) st)
             Hraw Hes).
Qed.

Lemma rawEvents_after_invalid_keystroke text more w st :
  forallb typesInvalidText (Keystroke text :: more) = true ->
  fst (rawEvents engineMessage (Keystroke text :: more) (w, st)) = w
  /\ mode (snd (rawEvents engineMessage (Keystroke text :: more) (w, st))) = mode st
  /\ prompt (snd (rawEvents engineMessage (Keystroke text :: more) (w, st))) = prompt st
  /\ isProcessing (snd (rawEvents engineMessage (Keystroke text :: more) (w, st)))
     = isProcessing st.
Proof.
  intros H. cbn in H. apply andb_true_iff in H as [He Hes].
  rewrite rawEvents_cons. cbn [rawEvent].
  unfold handleRawChange. destruct (JSON_parse text) eqn:E; [discriminate|].
  exact (rawEvents_invalid more w
           (setError (messageOf engineMessage (SyntaxError text)) (setRawText text st))
           E Hes).
Qed.

(** C6, amended.  Entering raw mode, typing text that does not parse (any
    number of such keystrokes and blurs), switching to tree mode and
    entering raw mode again gives back the buffer that was shown on first
    entering raw mode, and commits nothing.  That buffer is the
    pretty-printed serialization of the [value] prop: of the Document when
    it is truthy, and of the empty value of the field ([{}], or [[]] for the
    itinerary) when the Document is [null], [false], [0] or [""]. *)
Theorem invalid_raw_edits_are_discarded w st text more :
  mode st = preview ->
  forallb typesInvalidText (Keystroke text :: more) = true ->
  let entered := setMode raw (w, st) in
  let edited := rawEvents engineMessage (Keystroke text :: more) entered in
  let back := setMode raw (setMode preview edited) in
  rawText (snd back) = rawText (snd entered)
  /\ rawText (snd back) = prettyPrint (valueProp w)
  /\ (if truthy (document w)
      then rawText (snd back) = prettyPrint (document w)
      else rawText (snd back) = prettyPrint (emptyDocument w))
  /\ error (snd back) = []
  /\ fst back = w.
Proof.
  intros Hmode Hes. cbv zeta.
  rewrite (setMode_raw_from_preview w st Hmode).
  set (st1 := {| mode := raw; rawText := prettyPrint (valueProp w);
                 error := []; prompt := prompt st;
                 isProcessing := isProcessing st |}).
  destruct (rawEvents_after_invalid_keystroke text more w st1 Hes)
    as (A & B & _).
  destruct (rawEvents engineMessage (Keystroke text :: more) (w, st1))
    as [w2 st2] eqn:E.
  cbn [fst snd] in A, B. subst w2.
  rewrite (setMode_preview_from_raw w st2 B).
  rewrite setMode_raw_from_preview by reflexivity.
  cbn [fst snd rawText error]. repeat split.
  unfold valueProp, jsOr. now destruct (truthy (document w)).
Qed.

End RawModeFacts.

(** C6, as stated, fails: with the Document [null], the buffer after the
    discarded edit is [{}], not the serialization [null] of the Document. *)
Lemma discarded_edit_shows_empty_object :
  let w := pricingWorld VNull in
  let entered := setMode raw (w, initialEditor) in
  let edited := rawEvents sampleEngine [Keystroke (js "{oops")] entered in
  let back := setMode raw (setMode preview edited) in
  JSON_parse (js "{oops") = None
  /\ rawText (snd back) = js "{}"
  /\ prettyPrint (document w) = js "null"
  /\ rawText (snd back) <> prettyPrint (document w).
Proof.
  cbv zeta. repeat split; try (vm_compute; reflexivity).
  vm_compute. discriminate.
Qed.

Lemma invalid_raw_edits_are_discarded_witness :
  mode initialEditor = preview
  /\ forallb typesInvalidText [Keystroke (js "{oops"); Blur] = true
  /\ rawText (snd (setMode raw (setMode preview
                     (rawEvents sampleEngine [Keystroke (js "{oops"); Blur]
                        (setMode raw (pricingWorld (basePrice "1" 3), initialEditor))))))
     = prettyPrint (basePrice "1" 3).
Proof.
  assert (H1 : mode initialEditor = preview) by reflexivity.
  assert (H2 : forallb typesInvalidText [Keystroke (js "{oops"); Blur] = true)
    by (vm_compute; reflexivity).
  split; [exact H1|]. split; [exact H2|].
  exact (proj1 (proj2 (proj2 (invalid_raw_edits_are_discarded sampleEngine
                                (pricingWorld (basePrice "1" 3)) initialEditor
                                (js "{oops") [Blur] H1 H2)))).
Defined.

(** ** [JSON.parse] reads what [JSON.stringify] writes *)

(** *** Strings *)

Lemma hex4_digits (c : N) :
  (c < 65536)%N ->
  (4096 * (N.modulo (N.div c 4096) 16) + 256 * (N.modulo (N.div c 256) 16)
   + 16 * (N.modulo (N.div c 16) 16) + N.modulo c 16 = c)%N.
Proof. intros H. zify. Z.to_euclidean_division_equations. lia. Qed.

Lemma hexValue_hexDigit d : (d < 16)%N -> hexValue (hexDigit d) = Some d.
Proof.
  intros H. unfold hexValue, hexDigit, isDigit, inRange.
  destruct (N.ltb_spec d 10).
  - replace (N.leb 48 (48 + d) && N.leb (48 + d) 57) with true.
    + f_equal. lia.
    + symmetry. apply andb_true_iff. split; apply N.leb_le; lia.
  - replace (N.leb 48 (87 + d) && N.leb (87 + d) 57) with false.
    + replace (N.leb 97 (87 + d) && N.leb (87 + d) 102) with true.
      * f_equal. lia.
      * symmetry. apply andb_true_iff. split; apply N.leb_le; lia.
    + symmetry. apply andb_false_iff. right. apply N.leb_gt. lia.
Qed.

Lemma parseChars_unicodeEscape c s :
  (c < 65536)%N ->
  parseChars (unicodeEscape c ++ s) = consChar c (parseChars s).
Proof.
  intros H. unfold unicodeEscape. cbn [app parseChars].
  change (N.eqb cuBackslash cuQuote) with false.
  change (N.eqb cuBackslash cuBackslash) with true.
  change (N.eqb 117 117) with true. cbv iota.
  unfold hex4Value.
  rewrite !hexValue_hexDigit by (apply N.mod_lt; discriminate).
  now rewrite hex4_digits.
Qed.

Lemma parseChars_plain c s :
  N.eqb c cuQuote = false -> N.eqb c cuBackslash = false -> N.ltb c 32 = false ->
  parseChars (c :: s) = consChar c (parseChars s).
Proof. intros H1 H2 H3. cbn [parseChars]. now rewrite H1, H2, H3. Qed.

Lemma parseChars_escapeOf c e s :
  escapeOf c = Some e -> parseChars (e ++ s) = consChar c (parseChars s).
Proof.
  unfold escapeOf.
  repeat match goal with
    | |- context [N.eqb c ?k] =>
        destruct (N.eqb_spec c k);
        [subst c; intros He; injection He as <-; reflexivity|]
    end.
  destruct (N.ltb_spec c 32) as [Hlt|]; [|discriminate].
  intros He; injection He as <-. apply parseChars_unicodeEscape. lia.
Qed.

Lemma escapeOf_none c :
  escapeOf c = None ->
  N.eqb c cuQuote = false /\ N.eqb c cuBackslash = false /\ N.ltb c 32 = false.
Proof.
  unfold escapeOf.
  repeat match goal with
    | |- context [if N.eqb c ?k then _ else _] =>
        destruct (N.eqb c k) eqn:?; [discriminate|]
    end.
  destruct (N.ltb c 32); [discriminate|]. auto.
Qed.

Lemma surrogate_range c :
  isHighSurrogate c || isLowSurrogate c = true -> (c < 65536)%N.
Proof.
  unfold isHighSurrogate, isLowSurrogate, inRange. intros H.
  bool_to_prop_in H. lia.
Qed.

Lemma lowSurrogate_plain d :
  isLowSurrogate d = true ->
  N.eqb d cuQuote = false /\ N.eqb d cuBackslash = false /\ N.ltb d 32 = false.
Proof.
  unfold isLowSurrogate, inRange, cuQuote, cuBackslash. intros H.
  bool_to_prop_in H. repeat split; bool_to_prop; lia.
Qed.

Lemma parseChars_quoteChars_bounded n :
  forall s, List.length s <= n ->
  forall rest, parseChars (quoteChars s ++ cuQuote :: rest) = Some (s, rest).
Proof.
  induction n as [|n IH]; intros s Hn rest.
  - destruct s; [reflexivity|simpl in Hn; lia].
  - destruct s as [|c r]; [reflexivity|]. simpl in Hn.
    cbn [quoteChars].
    destruct (escapeOf c) as [e|] eqn:Ee.
    + rewrite <- app_assoc, (parseChars_escapeOf _ _ _ Ee), IH by lia. reflexivity.
    + destruct (escapeOf_none _ Ee) as (Q & B & L).
      destruct (isHighSurrogate c) eqn:Eh.
      * destruct r as [|d r'].
        -- rewrite parseChars_unicodeEscape
             by (apply surrogate_range; now rewrite Eh).
           reflexivity.
        -- destruct (isLowSurrogate d) eqn:Ed.
           ++ destruct (lowSurrogate_plain _ Ed) as (Q' & B' & L').
              cbn [app]. rewrite (parseChars_plain _ _ Q B L).
              rewrite (parseChars_plain _ _ Q' B' L').
              simpl in Hn. rewrite IH by lia. reflexivity.
           ++ rewrite <- app_assoc, parseChars_unicodeEscape
                by (apply surrogate_range; now rewrite Eh).
              rewrite IH by (simpl in *; lia). reflexivity.
      * destruct (isLowSurrogate c) eqn:El.
        -- rewrite <- app_assoc, parseChars_unicodeEscape
             by (apply surrogate_range; now rewrite El, orb_true_r).
           rewrite IH by lia. reflexivity.
        -- cbn [app]. rewrite (parseChars_plain _ _ Q B L), IH by lia. reflexivity.
Qed.

(** The characters of a quoted string are read back as the string. *)
Lemma parseChars_quoteChars s rest :
  parseChars (quoteChars s ++ cuQuote :: rest) = Some (s, rest).
Proof. now apply (parseChars_quoteChars_bounded (List.length s)). Qed.

(** *** Numbers *)

Lemma runLength_app (p : codeUnit -> bool) a b :
  forallb p a = true -> headIs p b = false ->
  runLength p (a ++ b) = List.length a.
Proof.
  intros Ha Hb. induction a as [|c a IH]; simpl in *.
  - destruct b; simpl in *; [trivial|now rewrite Hb].
  - apply andb_true_iff in Ha as [Hc Ha]. rewrite Hc. f_equal. now apply IH.
Qed.

Lemma takeDigits_app a b :
  forallb isDigit a = true -> headIs isDigit b = false ->
  takeDigits (a ++ b) = (a, b).
Proof.
  intros Ha Hb. unfold takeDigits. rewrite (runLength_app _ _ _ Ha Hb).
  rewrite firstn_app, skipn_app, Nat.sub_diag, firstn_all, skipn_all. simpl.
  now rewrite app_nil_r.
Qed.

Lemma uintOfString_uintToString u : uintOfString (uintToString u) = u.
Proof. induction u; simpl; now rewrite ?IHu. Qed.

Lemma uintToString_digits u : forallb isDigit (uintToString u) = true.
Proof. induction u; simpl; trivial. Qed.

Lemma decimal_digits x : forallb isDigit (decimal x) = true.
Proof. apply uintToString_digits. Qed.

Lemma digitsValue_decimal x : digitsValue (decimal x) = x.
Proof.
  unfold digitsValue, decimal. rewrite uintOfString_uintToString.
  apply DecimalN.Unsigned.of_to.
Qed.

Lemma decimal_nonempty x : decimal x <> [].
Proof.
  unfold decimal. destruct x as [|p]; [discriminate|]. simpl.
  pose proof (DecimalPos.Unsigned.to_uint_nonnil p) as H.
  destruct (Pos.to_uint p); [congruence|discriminate..].
Qed.

Lemma repeat_zero_digits m : forallb isDigit (repeat cuZero m) = true.
Proof. induction m; simpl; trivial. Qed.

Lemma repeat_zero_zeros m : forallb isZeroDigit (repeat cuZero m) = true.
Proof. induction m; simpl; trivial. Qed.

Lemma rev_repeat (c : codeUnit) m : rev (repeat c m) = repeat c m.
Proof.
  induction m; simpl; trivial. rewrite IHm.
  clear IHm. induction m; simpl; trivial. now rewrite IHm.
Qed.

Lemma dropWhile_app (p : codeUnit -> bool) a b :
  forallb p a = true -> headIs p b = false -> dropWhile p (a ++ b) = b.
Proof.
  intros Ha Hb. unfold dropWhile. rewrite (runLength_app _ _ _ Ha Hb).
  rewrite skipn_app, Nat.sub_diag, skipn_all. reflexivity.
Qed.

Lemma dropWhile_none (p : codeUnit -> bool) b :
  headIs p b = false -> dropWhile p b = b.
Proof. intros H. now apply (dropWhile_app p [] b). Qed.

(** The digits between leading and trailing zeros are the digits of the
    Number. *)
Lemma makeNumber_digits neg int frac e z m d1 tl :
  int ++ frac = repeat cuZero z ++ (d1 :: tl) ++ repeat cuZero m ->
  isZeroDigit d1 = false ->
  headIs isZeroDigit (rev (d1 :: tl)) = false ->
  makeNumber neg int frac e
  = Finite neg (d1 :: tl) (Z.of_nat (List.length int) - Z.of_nat z + e).
Proof.
  intros Hall Hd1 Hlast. unfold makeNumber. rewrite Hall.
  rewrite (runLength_app isZeroDigit (repeat cuZero z) _ (repeat_zero_zeros z))
    by exact Hd1.
  rewrite skipn_app.
  rewrite (skipn_all2 (repeat cuZero z)) by (rewrite repeat_length; lia).
  rewrite repeat_length, Nat.sub_diag. cbn [app skipn].
  change (d1 :: tl ++ repeat cuZero m) with ((d1 :: tl) ++ repeat cuZero m).
  unfold dropWhileEnd. rewrite rev_app_distr, rev_repeat.
  rewrite (dropWhile_app isZeroDigit _ _ (repeat_zero_zeros m) Hlast).
  now rewrite rev_involutive.
Qed.

Lemma parseFraction_end rest :
  endsNumber rest = true -> parseFraction rest = Some ([], rest).
Proof.
  destruct rest as [|c r]; [reflexivity|]. unfold endsNumber. cbn [headIs].
  intros H. apply negb_true_iff in H.
  apply orb_false_iff in H as [H _]. apply orb_false_iff in H as [H _].
  apply orb_false_iff in H as [_ H]. unfold parseFraction. now rewrite H.
Qed.

Lemma parseExponent_end rest :
  endsNumber rest = true -> parseExponent rest = Some (0%Z, rest).
Proof.
  destruct rest as [|c r]; [reflexivity|]. unfold endsNumber. cbn [headIs].
  intros H. apply negb_true_iff in H.
  apply orb_false_iff in H as [H H3]. apply orb_false_iff in H as [H H2].
  unfold parseExponent. now rewrite H2, H3.
Qed.

Lemma endsNumber_not_digit rest :
  endsNumber rest = true -> headIs isDigit rest = false.
Proof.
  destruct rest as [|c r]; [reflexivity|]. unfold endsNumber. cbn [headIs].
  intros H. apply negb_true_iff in H.
  apply orb_false_iff in H as [H _]. apply orb_false_iff in H as [H _].
  now apply orb_false_iff in H as [H _].
Qed.

Lemma parseExponent_decimal (e : Z) rest :
  headIs isDigit rest = false ->
  parseExponent (cuLowerE :: (if (e <? 0)%Z then cuHyphen else cuPlus)
                 :: decimal (Z.to_N (Z.abs e)) ++ rest)
  = Some (e, rest).
Proof.
  intros Hrest. unfold parseExponent.
  change (N.eqb cuLowerE cuLowerE) with true. cbn [orb].
  assert (T : takeDigits (decimal (Z.to_N (Z.abs e)) ++ rest)
              = (decimal (Z.to_N (Z.abs e)), rest))
    by (apply takeDigits_app; [apply decimal_digits|exact Hrest]).
  pose proof (decimal_nonempty (Z.to_N (Z.abs e))) as Hne.
  destruct (Z.ltb_spec e 0).
  - change (N.eqb cuHyphen cuHyphen) with true. cbv iota. rewrite T.
    destruct (decimal (Z.to_N (Z.abs e))) eqn:E; [congruence|].
    rewrite <- E, digitsValue_decimal. f_equal. f_equal. lia.
  - change (N.eqb cuPlus cuHyphen) with false.
    change (N.eqb cuPlus cuPlus) with true. cbv iota. rewrite T.
    destruct (decimal (Z.to_N (Z.abs e))) eqn:E; [congruence|].
    rewrite <- E, digitsValue_decimal. f_equal. f_equal. lia.
Qed.

Lemma digit_not_hyphen c : isDigit c = true -> N.eqb c cuHyphen = false.
Proof. intros H. cu_cases. Qed.

Lemma parseNumber_signed neg c s :
  isDigit c = true ->
  parseNumber (signOf neg ++ c :: s) = parseUnsigned neg (c :: s).
Proof.
  intros H. destruct neg; [reflexivity|].
  cbn [signOf app parseNumber]. now rewrite (digit_not_hyphen _ H).
Qed.

Lemma parseInt_digits d1 a b :
  isDigit d1 = true -> isZeroDigit d1 = false ->
  forallb isDigit a = true -> headIs isDigit b = false ->
  parseInt (d1 :: a ++ b) = Some (d1 :: a, b).
Proof.
  intros Hd Hz Ha Hb. unfold parseInt. rewrite Hz, Hd.
  change (d1 :: a ++ b) with ((d1 :: a) ++ b).
  rewrite takeDigits_app; trivial. simpl. now rewrite Hd, Ha.
Qed.

Lemma forallb_firstn (p : codeUnit -> bool) s : forall n,
  forallb p s = true -> forallb p (firstn n s) = true.
Proof.
  induction s as [|c r IH]; intros [|n] H; trivial.
  simpl in *. apply andb_true_iff in H as [Hc H]. now rewrite Hc, IH.
Qed.

Lemma parseNumber_body neg c body rest x :
  isDigit c = true ->
  parseUnsigned neg (c :: body ++ rest) = Some (x, rest) ->
  parseNumber ((signOf neg ++ c :: body) ++ rest) = Some (x, rest).
Proof.
  intros Hc H. rewrite <- app_assoc. cbn [app].
  now rewrite (parseNumber_signed _ _ _ Hc).
Qed.

Lemma parseInt_single d1 b :
  isDigit d1 = true -> isZeroDigit d1 = false -> headIs isDigit b = false ->
  parseInt (d1 :: b) = Some ([d1], b).
Proof. intros Hd Hz Hb. now apply (parseInt_digits d1 [] b). Qed.

Ltac finish_number :=
  cbn [List.length]; rewrite ?length_app, ?repeat_length, ?length_firstn;
  repeat match goal with
    | |- Some _ = Some _ => f_equal
    | |- (_, _) = (_, _) => f_equal
    | |- Finite _ _ _ = Finite _ _ _ => f_equal
    end;
  lia.

Lemma parseNumber_toString x rest :
  wfNumber x = true -> jsonNumber x = true -> endsNumber rest = true ->
  parseNumber (Number_toString x ++ rest) = Some (x, rest).
Proof.
  intros Hwf Hjson Hrest.
  destruct x as [|neg|neg ds n]; try discriminate.
  pose proof (endsNumber_not_digit _ Hrest) as Hnd.
  destruct ds as [|d1 tl].
  - destruct neg; [discriminate|]. simpl in Hwf.
    apply Z.eqb_eq in Hwf. subst n.
    cbn [Number_toString app parseNumber].
    change (N.eqb cuZero cuHyphen) with false. cbv iota.
    unfold parseUnsigned. cbn [parseInt].
    change (isZeroDigit cuZero) with true. cbv iota.
    now rewrite (parseFraction_end _ Hrest), (parseExponent_end _ Hrest).
  - unfold wfNumber in Hwf.
    apply andb_true_iff in Hwf as [Hwf _].
    apply andb_true_iff in Hwf as [Hwf Hlast].
    apply andb_true_iff in Hwf as [Hdigits Hfirst].
    apply negb_true_iff in Hlast, Hfirst. cbn [headIs] in Hfirst.
    pose proof Hdigits as Hdigits'. cbn [forallb] in Hdigits'.
    apply andb_true_iff in Hdigits' as [Hd1 Htl].
    cbn [Number_toString].
    set (k := Z.of_nat (List.length (d1 :: tl))).
    assert (Hk : k = Z.of_nat (S (List.length tl))) by reflexivity.
    destruct ((k <=? n)%Z && (n <=? 21)%Z) eqn:CaseA.
    { (* digits, then zeros *)
      apply andb_true_iff in CaseA as [A1 A2]. apply Z.leb_le in A1, A2.
      cbn [app]. apply (parseNumber_body _ _ _ _ _ Hd1).
      unfold parseUnsigned.
      rewrite (parseInt_digits _ _ _ Hd1 Hfirst)
        by (trivial; rewrite forallb_app, Htl; apply repeat_zero_digits).
      rewrite (parseFraction_end _ Hrest), (parseExponent_end _ Hrest).
      rewrite (makeNumber_digits neg _ [] 0 0 (Z.to_nat (n - k)) d1 tl);
        trivial.
      - finish_number.
      - now rewrite app_nil_r. }
    destruct ((0 <? n)%Z && (n <=? 21)%Z) eqn:CaseB.
    { (* digits with a decimal point among them *)
      apply andb_true_iff in CaseB as [B1 B2].
      apply Z.ltb_lt in B1. apply Z.leb_le in B2.
      apply andb_false_iff in CaseA as [A|A];
        [apply Z.leb_gt in A|apply Z.leb_gt in A; lia].
      destruct (Z.to_nat n) as [|n'] eqn:En; [lia|].
      cbn [firstn skipn app]. apply (parseNumber_body _ _ _ _ _ Hd1).
      rewrite <- app_assoc. cbn [app].
      unfold parseUnsigned.
      rewrite (parseInt_digits _ _ _ Hd1 Hfirst);
        [|now apply forallb_firstn|reflexivity].
      unfold parseFraction. change (N.eqb cuDot cuDot) with true. cbv iota.
      rewrite takeDigits_app; [|now apply forallb_skipn|exact Hnd].
      assert (Hlen : n' < List.length tl) by (cbn [List.length] in Hk; lia).
      destruct (skipn n' tl) as [|f fs] eqn:Es.
      { apply (f_equal (@List.length _)) in Es. rewrite length_skipn in Es.
        simpl in Es. lia. }
      rewrite <- Es. rewrite (parseExponent_end _ Hrest).
      rewrite (makeNumber_digits neg _ _ 0 0 0 d1 tl); trivial.
      - finish_number.
      - cbn [repeat app]. rewrite app_nil_r.
        now rewrite firstn_skipn. }
    destruct ((-6 <? n)%Z && (n <=? 0)%Z) eqn:CaseC.
    { (* zero, a decimal point, zeros, digits *)
      apply andb_true_iff in CaseC as [C1 C2].
      apply Z.ltb_lt in C1. apply Z.leb_le in C2.
      apply (parseNumber_body _ _ _ _ _ (eq_refl : isDigit cuZero = true)).
      unfold parseUnsigned.
      cbn [app parseInt]. change (isZeroDigit cuZero) with true. cbv iota.
      unfold parseFraction. change (N.eqb cuDot cuDot) with true. cbv iota.
      rewrite <- app_assoc.
      change (repeat cuZero (Z.to_nat (- n)) ++ (d1 :: tl) ++ rest)
        with (repeat cuZero (Z.to_nat (- n)) ++ (d1 :: tl) ++ rest).
      rewrite app_assoc.
      rewrite takeDigits_app;
        [|rewrite forallb_app, repeat_zero_digits; exact Hdigits|exact Hnd].
      destruct (repeat cuZero (Z.to_nat (- n)) ++ d1 :: tl) as [|f fs] eqn:Ef.
      { now destruct (repeat cuZero (Z.to_nat (- n))). }
      rewrite <- Ef. rewrite (parseExponent_end _ Hrest).
      rewrite (makeNumber_digits neg _ _ 0 (S (Z.to_nat (- n))) 0 d1 tl);
        trivial.
      - finish_number.
      - cbn [repeat app]. now rewrite app_nil_r. }
    (* exponent notation *)
    apply (parseNumber_body _ _ _ _ _ Hd1). unfold parseUnsigned.
    destruct tl as [|d2 tl'].
    + cbn [app]. rewrite (parseInt_single d1 _ Hd1 Hfirst) by reflexivity.
      unfold parseFraction at 1. change (N.eqb cuLowerE cuDot) with false.
      cbv iota. rewrite (parseExponent_decimal _ _ Hnd).
      rewrite (makeNumber_digits neg _ _ _ 0 0 d1 []); trivial.
      finish_number.
    + rewrite <- app_assoc. cbn [app].
      rewrite (parseInt_single d1 _ Hd1 Hfirst) by reflexivity.
      unfold parseFraction. change (N.eqb cuDot cuDot) with true. cbv iota.
      change (d2 :: tl' ++ cuLowerE :: ?x) with ((d2 :: tl') ++ cuLowerE :: x).
      rewrite takeDigits_app; [|exact Htl|reflexivity].
      rewrite (parseExponent_decimal _ _ Hnd).
      rewrite (makeNumber_digits neg _ _ _ 0 0 d1 (d2 :: tl')); trivial.
      * finish_number.
      * cbn [repeat app]. now rewrite app_nil_r.
Qed.

(** *** Fuel *)

Lemma parseValue_S fuel s :
  parseValue (S fuel) s
  = match skipWs s with
    | [] => SyntaxErr
    | c :: r =>
        if N.eqb c cuLBrace then
          match skipWs r with
          | d :: r' =>
              if N.eqb d cuRBrace then Ok (VObject []) r'
              else parseMembers fuel [] r
          | [] => SyntaxErr
          end
        else if N.eqb c cuLBracket then
          match skipWs r with
          | d :: r' =>
              if N.eqb d cuRBracket then Ok (VArray []) r'
              else match parseElements fuel r with
                   | Ok items rest => Ok (VArray items) rest
                   | SyntaxErr => SyntaxErr
                   | OutOfFuel => OutOfFuel
                   end
          | [] => SyntaxErr
          end
        else if N.eqb c cuQuote then
          match parseChars r with
          | Some (str, rest) => Ok (VString str) rest
          | None => SyntaxErr
          end
        else if startsWith (js "true") (c :: r) then Ok (VBool true) (skipn 3 r)
        else if startsWith (js "false") (c :: r) then Ok (VBool false) (skipn 4 r)
        else if startsWith (js "null") (c :: r) then Ok VNull (skipn 3 r)
        else
          match parseNumber (c :: r) with
          | Some (x, rest) => Ok (VNumber x) rest
          | None => SyntaxErr
          end
    end.
Proof. reflexivity. Qed.

Lemma parseElements_S fuel s :
  parseElements (S fuel) s
  = match parseValue fuel s with
    | Ok v r =>
        match skipWs r with
        | c :: r' =>
            if N.eqb c cuComma then
              match parseElements fuel r' with
              | Ok items rest => Ok (v :: items) rest
              | SyntaxErr => SyntaxErr
              | OutOfFuel => OutOfFuel
              end
            else if N.eqb c cuRBracket then Ok [v] r'
            else SyntaxErr
        | [] => SyntaxErr
        end
    | SyntaxErr => SyntaxErr
    | OutOfFuel => OutOfFuel
    end.
Proof. reflexivity. Qed.

Lemma parseMembers_S fuel acc s :
  parseMembers (S fuel) acc s
  = match skipWs s with
    | q :: r =>
        if N.eqb q cuQuote then
          match parseChars r with
          | Some (key, r1) =>
              match skipWs r1 with
              | c :: r2 =>
                  if N.eqb c cuColon then
                    match parseValue fuel r2 with
                    | Ok v r3 =>
                        match skipWs r3 with
                        | d :: r4 =>
                            if N.eqb d cuComma then
                              parseMembers fuel (setProp key v acc) r4
                            else if N.eqb d cuRBrace then
                              Ok (VObject (setProp key v acc)) r4
                            else SyntaxErr
                        | [] => SyntaxErr
                        end
                    | SyntaxErr => SyntaxErr
                    | OutOfFuel => OutOfFuel
                    end
                  else SyntaxErr
              | [] => SyntaxErr
              end
          | None => SyntaxErr
          end
        else SyntaxErr
    | [] => SyntaxErr
    end.
Proof. reflexivity. Qed.

(** More fuel does not change a result that did not lack fuel. *)
Lemma parse_more_fuel fuel :
  (forall s, parseValue fuel s <> OutOfFuel ->
             parseValue (S fuel) s = parseValue fuel s)
  /\ (forall s, parseElements fuel s <> OutOfFuel ->
                parseElements (S fuel) s = parseElements fuel s)
  /\ (forall acc s, parseMembers fuel acc s <> OutOfFuel ->
                    parseMembers (S fuel) acc s = parseMembers fuel acc s).
Proof.
  induction fuel as [|fuel (IHv & IHe & IHm)].
  - repeat split; intros; exfalso; auto.
  - repeat split.
    + intros s H. rewrite (parseValue_S (S fuel)). rewrite parseValue_S in H |- *.
      destruct (skipWs s) as [|c r]; trivial.
      destruct (N.eqb c cuLBrace).
      { destruct (skipWs r) as [|d r']; trivial.
        destruct (N.eqb d cuRBrace); trivial. now apply IHm. }
      destruct (N.eqb c cuLBracket); trivial.
      destruct (skipWs r) as [|d r']; trivial.
      destruct (N.eqb d cuRBracket); trivial.
      rewrite IHe; trivial. intros E. now rewrite E in H.
    + intros s H. rewrite (parseElements_S (S fuel)).
      rewrite parseElements_S in H |- *.
      rewrite IHv by (intros E; now rewrite E in H).
      destruct (parseValue fuel s) as [v r| |]; trivial.
      destruct (skipWs r) as [|c r']; trivial.
      destruct (N.eqb c cuComma); trivial.
      rewrite IHe; trivial. intros E. now rewrite E in H.
    + intros acc s H. rewrite (parseMembers_S (S fuel)).
      rewrite parseMembers_S in H |- *.
      destruct (skipWs s) as [|q r]; trivial.
      destruct (N.eqb q cuQuote); trivial.
      destruct (parseChars r) as [[key r1]|]; trivial.
      destruct (skipWs r1) as [|c r2]; trivial.
      destruct (N.eqb c cuColon); trivial.
      rewrite IHv by (intros E; now rewrite E in H).
      destruct (parseValue fuel r2) as [v r3| |]; trivial.
      destruct (skipWs r3) as [|d r4]; trivial.
      destruct (N.eqb d cuComma); trivial. now apply IHm.
Qed.

Lemma parseValue_fuel_le f g s :
  f <= g -> parseValue f s <> OutOfFuel -> parseValue g s = parseValue f s.
Proof.
  induction 1 as [|g Hle IH]; intros H; trivial.
  rewrite <- (IH H). apply parse_more_fuel. now rewrite (IH H).
Qed.

Lemma parseElements_fuel_le f g s :
  f <= g -> parseElements f s <> OutOfFuel -> parseElements g s = parseElements f s.
Proof.
  induction 1 as [|g Hle IH]; intros H; trivial.
  rewrite <- (IH H). apply parse_more_fuel. now rewrite (IH H).
Qed.

Lemma parseMembers_fuel_le f g acc s :
  f <= g -> parseMembers f acc s <> OutOfFuel ->
  parseMembers g acc s = parseMembers f acc s.
Proof.
  induction 1 as [|g Hle IH]; intros H; trivial.
  rewrite <- (IH H). apply parse_more_fuel. now rewrite (IH H).
Qed.

(** Every successful step consumes input. *)

Lemma dropWhile_length p s : List.length (dropWhile p s) <= List.length s.
Proof. unfold dropWhile. rewrite length_skipn. lia. Qed.

Lemma skipWs_length s : List.length (skipWs s) <= List.length s.
Proof. apply dropWhile_length. Qed.

Lemma skipWs_cons_length s c r :
  skipWs s = c :: r -> List.length r < List.length s.
Proof.
  intros H. pose proof (skipWs_length s) as L. rewrite H in L. simpl in L. lia.
Qed.

Lemma consChar_length c p str rest :
  consChar c p = Some (str, rest) ->
  exists str', p = Some (str', rest).
Proof.
  destruct p as [[s' r']|]; [|discriminate]. simpl. intros H.
  injection H as _ <-. eauto.
Qed.

Lemma parseChars_length_bounded n :
  forall s, List.length s <= n ->
  forall str rest, parseChars s = Some (str, rest) ->
  List.length rest < List.length s.
Proof.
  induction n as [|n IH]; intros s Hn str rest H.
  - destruct s; [discriminate|simpl in Hn; lia].
  - destruct s as [|c r]; [discriminate|]. simpl in Hn. cbn [parseChars] in H.
    destruct (N.eqb c cuQuote).
    { injection H as _ <-. simpl. lia. }
    destruct (N.eqb c cuBackslash).
    { destruct r as [|e r1]; [discriminate|].
      destruct (N.eqb e 117).
      - destruct r1 as [|h1 [|h2 [|h3 [|h4 r2]]]]; try discriminate.
        destruct (hex4Value h1 h2 h3 h4); [|discriminate].
        apply consChar_length in H as [str' H].
        apply IH in H; simpl in *; lia.
      - destruct (unescape e); [|discriminate].
        apply consChar_length in H as [str' H].
        apply IH in H; simpl in *; lia. }
    destruct (N.ltb c 32); [discriminate|].
    apply consChar_length in H as [str' H].
    apply IH in H; simpl in *; lia.
Qed.

Lemma parseChars_length s str rest :
  parseChars s = Some (str, rest) -> List.length rest < List.length s.
Proof. now apply (parseChars_length_bounded (List.length s)). Qed.

Lemma takeDigits_length s ds rest :
  takeDigits s = (ds, rest) -> List.length rest <= List.length s.
Proof.
  unfold takeDigits. intros H. injection H as _ <-. rewrite length_skipn. lia.
Qed.

Lemma parseFraction_length s f rest :
  parseFraction s = Some (f, rest) -> List.length rest <= List.length s.
Proof.
  unfold parseFraction. destruct s as [|c r].
  - intros H. injection H as _ <-. trivial.
  - destruct (N.eqb c cuDot).
    + destruct (takeDigits r) as [ds r'] eqn:E.
      apply takeDigits_length in E.
      destruct ds; [discriminate|]. intros H. injection H as _ <-. simpl. lia.
    + intros H. injection H as _ <-. trivial.
Qed.

Lemma parseExponent_length s e rest :
  parseExponent s = Some (e, rest) -> List.length rest <= List.length s.
Proof.
  unfold parseExponent. destruct s as [|c r].
  - intros H. injection H as _ <-. trivial.
  - destruct (N.eqb c cuLowerE || N.eqb c cuUpperE).
    + destruct r as [|d r'].
      * simpl. discriminate.
      * destruct (N.eqb d cuHyphen); [|destruct (N.eqb d cuPlus)];
          match goal with
          | |- context [takeDigits ?x] =>
              destruct (takeDigits x) as [ds r2] eqn:E;
              apply takeDigits_length in E
          end;
          (destruct ds; [discriminate|]); intros H; injection H as _ <-;
          simpl in *; lia.
    + intros H. injection H as _ <-. trivial.
Qed.

Lemma parseInt_length s i rest :
  parseInt s = Some (i, rest) -> List.length rest < List.length s.
Proof.
  unfold parseInt. destruct s as [|c r]; [discriminate|].
  destruct (isZeroDigit c).
  - intros H. injection H as _ <-. simpl. lia.
  - destruct (isDigit c) eqn:Ed; [|discriminate].
    unfold takeDigits. intros H. injection H as _ <-.
    rewrite length_skipn. simpl. rewrite Ed. simpl. lia.
Qed.

Lemma parseUnsigned_length neg s x rest :
  parseUnsigned neg s = Some (x, rest) -> List.length rest < List.length s.
Proof.
  unfold parseUnsigned.
  destruct (parseInt s) as [[i r1]|] eqn:E1; [|discriminate].
  destruct (parseFraction r1) as [[f r2]|] eqn:E2; [|discriminate].
  destruct (parseExponent r2) as [[e r3]|] eqn:E3; [|discriminate].
  intros H. injection H as _ <-.
  apply parseInt_length in E1. apply parseFraction_length in E2.
  apply parseExponent_length in E3. lia.
Qed.

Lemma parseNumber_length s x rest :
  parseNumber s = Some (x, rest) -> List.length rest < List.length s.
Proof.
  unfold parseNumber. destruct s as [|c r]; [discriminate|].
  destruct (N.eqb c cuHyphen); intros H; apply parseUnsigned_length in H;
    simpl in *; lia.
Qed.

Lemma parse_consumes fuel :
  (forall s v rest, parseValue fuel s = Ok v rest ->
                    List.length rest < List.length s)
  /\ (forall s vs rest, parseElements fuel s = Ok vs rest ->
                        List.length rest < List.length s)
  /\ (forall acc s v rest, parseMembers fuel acc s = Ok v rest ->
                           List.length rest < List.length s).
Proof.
  induction fuel as [|fuel (IHv & IHe & IHm)].
  - repeat split; intros; discriminate.
  - repeat split.
    + intros s v rest H. rewrite parseValue_S in H.
      destruct (skipWs s) as [|c r] eqn:Es; [discriminate|].
      apply skipWs_cons_length in Es.
      destruct (N.eqb c cuLBrace).
      { destruct (skipWs r) as [|d r'] eqn:Er; [discriminate|].
        apply skipWs_cons_length in Er.
        destruct (N.eqb d cuRBrace).
        - injection H as _ <-. lia.
        - apply IHm in H. lia. }
      destruct (N.eqb c cuLBracket).
      { destruct (skipWs r) as [|d r'] eqn:Er; [discriminate|].
        apply skipWs_cons_length in Er.
        destruct (N.eqb d cuRBracket).
        - injection H as _ <-. lia.
        - destruct (parseElements fuel r) as [items rest'| |] eqn:E;
            try discriminate.
          injection H as _ <-. apply IHe in E. lia. }
      destruct (N.eqb c cuQuote).
      { destruct (parseChars r) as [[str rest']|] eqn:E; [|discriminate].
        injection H as _ <-. apply parseChars_length in E. lia. }
      destruct (startsWith (js "true") (c :: r)).
      { assert (Hr : rest = skipn 3 r) by (now injection H).
        rewrite Hr, length_skipn. lia. }
      destruct (startsWith (js "false") (c :: r)).
      { assert (Hr : rest = skipn 4 r) by (now injection H).
        rewrite Hr, length_skipn. lia. }
      destruct (startsWith (js "null") (c :: r)).
      { assert (Hr : rest = skipn 3 r) by (now injection H).
        rewrite Hr, length_skipn. lia. }
      destruct (parseNumber (c :: r)) as [[x rest']|] eqn:E; [|discriminate].
      injection H as _ <-. apply parseNumber_length in E. simpl in E. lia.
    + intros s vs rest H. rewrite parseElements_S in H.
      destruct (parseValue fuel s) as [v r| |] eqn:Ev; try discriminate.
      apply IHv in Ev.
      destruct (skipWs r) as [|c r'] eqn:Er; [discriminate|].
      apply skipWs_cons_length in Er.
      destruct (N.eqb c cuComma).
      * destruct (parseElements fuel r') as [items rest'| |] eqn:E;
          try discriminate.
        injection H as _ <-. apply IHe in E. lia.
      * destruct (N.eqb c cuRBracket); [|discriminate].
        injection H as _ <-. lia.
    + intros acc s v rest H. rewrite parseMembers_S in H.
      destruct (skipWs s) as [|q r] eqn:Es; [discriminate|].
      apply skipWs_cons_length in Es.
      destruct (N.eqb q cuQuote); [|discriminate].
      destruct (parseChars r) as [[key r1]|] eqn:Ek; [|discriminate].
      apply parseChars_length in Ek.
      destruct (skipWs r1) as [|c r2] eqn:E1; [discriminate|].
      apply skipWs_cons_length in E1.
      destruct (N.eqb c cuColon); [|discriminate].
      destruct (parseValue fuel r2) as [v' r3| |] eqn:Ev; try discriminate.
      apply IHv in Ev.
      destruct (skipWs r3) as [|d r4] eqn:E3; [discriminate|].
      apply skipWs_cons_length in E3.
      destruct (N.eqb d cuComma).
      * apply IHm in H. lia.
      * destruct (N.eqb d cuRBrace); [|discriminate].
        injection H as _ <-. lia.
Qed.

(** With twice the length of the text as fuel, the parser never lacks
    fuel. *)
Lemma parse_fuel_suffices fuel :
  (forall s, 2 * List.length s + 1 <= fuel -> parseValue fuel s <> OutOfFuel)
  /\ (forall s, 2 * List.length s + 2 <= fuel ->
                parseElements fuel s <> OutOfFuel)
  /\ (forall acc s, 2 * List.length s + 2 <= fuel ->
                    parseMembers fuel acc s <> OutOfFuel).
Proof.
  induction fuel as [|fuel (IHv & IHe & IHm)].
  - repeat split; intros; lia.
  - repeat split.
    + intros s Hf. rewrite parseValue_S.
      destruct (skipWs s) as [|c r] eqn:Es; [discriminate|].
      apply skipWs_cons_length in Es.
      destruct (N.eqb c cuLBrace).
      { destruct (skipWs r) as [|d r'] eqn:Er; [discriminate|].
        destruct (N.eqb d cuRBrace); [discriminate|]. apply IHm. lia. }
      destruct (N.eqb c cuLBracket).
      { destruct (skipWs r) as [|d r'] eqn:Er; [discriminate|].
        destruct (N.eqb d cuRBracket); [discriminate|].
        assert (E : parseElements fuel r <> OutOfFuel) by (apply IHe; lia).
        destruct (parseElements fuel r); congruence. }
      destruct (N.eqb c cuQuote).
      { destruct (parseChars r) as [[? ?]|]; discriminate. }
      destruct (startsWith (js "true") (c :: r)); [discriminate|].
      destruct (startsWith (js "false") (c :: r)); [discriminate|].
      destruct (startsWith (js "null") (c :: r)); [discriminate|].
      destruct (parseNumber (c :: r)) as [[? ?]|]; discriminate.
    + intros s Hf. rewrite parseElements_S.
      assert (Ev : parseValue fuel s <> OutOfFuel) by (apply IHv; lia).
      destruct (parseValue fuel s) as [v r| |] eqn:E; try congruence.
      apply (proj1 (parse_consumes fuel)) in E.
      destruct (skipWs r) as [|c r'] eqn:Er; [discriminate|].
      apply skipWs_cons_length in Er.
      destruct (N.eqb c cuComma).
      * assert (Ee : parseElements fuel r' <> OutOfFuel) by (apply IHe; lia).
        destruct (parseElements fuel r'); congruence.
      * destruct (N.eqb c cuRBracket); discriminate.
    + intros acc s Hf. rewrite parseMembers_S.
      destruct (skipWs s) as [|q r] eqn:Es; [discriminate|].
      apply skipWs_cons_length in Es.
      destruct (N.eqb q cuQuote); [|discriminate].
      destruct (parseChars r) as [[key r1]|] eqn:Ek; [|discriminate].
      apply parseChars_length in Ek.
      destruct (skipWs r1) as [|c r2] eqn:E1; [discriminate|].
      apply skipWs_cons_length in E1.
      destruct (N.eqb c cuColon); [|discriminate].
      assert (Ev : parseValue fuel r2 <> OutOfFuel) by (apply IHv; lia).
      destruct (parseValue fuel r2) as [v r3| |] eqn:E; try congruence.
      apply (proj1 (parse_consumes fuel)) in E.
      destruct (skipWs r3) as [|d r4] eqn:E3; [discriminate|].
      apply skipWs_cons_length in E3.
      destruct (N.eqb d cuComma).
      * apply IHm. lia.
      * destruct (N.eqb d cuRBrace); discriminate.
Qed.

(** [JSON_parse] never fails for lack of fuel. *)
Lemma parseValue_total text : parseValue (parseFuel text) text <> OutOfFuel.
Proof. apply parse_fuel_suffices. unfold parseFuel. lia. Qed.

(** A result found with some fuel is the result [JSON_parse] finds. *)
Lemma parseValue_enough f s v rest :
  parseValue f s = Ok v rest -> parseValue (parseFuel s) s = Ok v rest.
Proof.
  intros H. destruct (Nat.le_ge_cases f (parseFuel s)) as [L|L].
  - rewrite (parseValue_fuel_le _ _ _ L); [exact H|]. now rewrite H.
  - rewrite <- H. symmetry. apply parseValue_fuel_le; trivial.
    apply parseValue_total.
Qed.

(** *** Property order *)

Lemma jsstring_eqb_eq a b : jsstring_eqb a b = true <-> a = b.
Proof.
  unfold jsstring_eqb. destruct (list_eq_dec N.eq_dec a b); split; congruence.
Qed.

Lemma jsstring_eqb_sym a b : jsstring_eqb a b = jsstring_eqb b a.
Proof.
  unfold jsstring_eqb.
  destruct (list_eq_dec N.eq_dec a b), (list_eq_dec N.eq_dec b a); congruence.
Qed.

Lemma orderedKeys_app_l a b : orderedKeys (a ++ b) = true -> orderedKeys a = true.
Proof.
  induction a as [|k a IH]; trivial. cbn [app orderedKeys].
  intros H. apply andb_true_iff in H as [H Hrest].
  apply andb_true_iff in H as [Hdup Hidx].
  rewrite (IH Hrest), andb_true_r. apply andb_true_iff. split.
  - rewrite existsb_app in Hdup. apply negb_true_iff in Hdup.
    apply orb_false_iff in Hdup as [Hdup _]. now rewrite Hdup.
  - destruct (arrayIndex k); rewrite forallb_app in Hidx;
      now apply andb_true_iff in Hidx as [Hidx _].
Qed.

Lemma ordered_last_is_new acc k :
  orderedKeys (map fst acc ++ [k]) = true -> hasKey k acc = false.
Proof.
  induction acc as [|[k0 v0] acc IH]; trivial. cbn [map fst app orderedKeys hasKey].
  intros H. apply andb_true_iff in H as [H Hrest].
  apply andb_true_iff in H as [Hdup _].
  rewrite (IH Hrest), orb_false_r.
  rewrite existsb_app in Hdup. apply negb_true_iff in Hdup.
  apply orb_false_iff in Hdup as [_ Hdup]. cbn in Hdup.
  rewrite orb_false_r in Hdup. now rewrite jsstring_eqb_sym.
Qed.

Lemma ordered_last_index acc k v i :
  orderedKeys (map fst acc ++ [k]) = true -> arrayIndex k = Some i ->
  insertIndex i k v acc = acc ++ [(k, v)].
Proof.
  intros H Hk. induction acc as [|[k0 v0] acc IH]; trivial.
  cbn [map fst app orderedKeys] in H.
  apply andb_true_iff in H as [H Hrest].
  apply andb_true_iff in H as [_ Hidx].
  cbn [insertIndex app]. rewrite (IH Hrest).
  destruct (arrayIndex k0) as [j|]; rewrite forallb_app in Hidx;
    apply andb_true_iff in Hidx as [_ Hidx]; cbn in Hidx; rewrite Hk in Hidx.
  - rewrite andb_true_r in Hidx. now rewrite Hidx.
  - discriminate.
Qed.

(** A key that [Object.keys] lists last was created last. *)
Lemma setProp_last acc k v :
  orderedKeys (map fst acc ++ [k]) = true -> setProp k v acc = acc ++ [(k, v)].
Proof.
  intros H. unfold setProp. rewrite (ordered_last_is_new _ _ H).
  destruct (arrayIndex k) as [i|] eqn:E; trivial.
  now apply ordered_last_index.
Qed.

(** *** White space and brackets *)

Lemma skipWs_app ws t :
  allSpace ws = true -> headIs isJsonSpace t = false -> skipWs (ws ++ t) = t.
Proof. intros. now apply dropWhile_app. Qed.

Lemma skipWs_none t : headIs isJsonSpace t = false -> skipWs t = t.
Proof. intros. now apply dropWhile_none. Qed.

Lemma lineBreak_space gap indent :
  allSpace indent = true -> allSpace (lineBreak gap indent) = true.
Proof. intros H. unfold lineBreak. now destruct (isEmpty gap). Qed.

Lemma allSpace_app a b :
  allSpace a = true -> allSpace b = true -> allSpace (a ++ b) = true.
Proof. unfold allSpace. intros Ha Hb. now rewrite forallb_app, Ha, Hb. Qed.

Lemma endsNumber_after_space ws c rest :
  allSpace ws = true -> endsNumber [c] = true -> endsNumber (ws ++ c :: rest) = true.
Proof.
  intros Hws Hc. destruct ws as [|w ws]; [exact Hc|].
  cbn in Hws. apply andb_true_iff in Hws as [Hw _].
  unfold endsNumber. cbn [app headIs]. apply negb_true_iff.
  unfold isJsonSpace in Hw. clear - Hw. cu_unfold.
  unfold cuDot, cuLowerE, cuUpperE. bool_to_prop_in Hw. bool_to_prop. lia.
Qed.

Lemma join_sequence closing before after texts rest :
  texts <> [] ->
  before ++ join (cuComma :: before) texts ++ after ++ [closing] ++ rest
  = sequenceText closing before after texts rest.
Proof.
  induction texts as [|text more IH]; [congruence|]. intros _.
  destruct more as [|text2 more].
  - reflexivity.
  - change (sequenceText closing before after (text :: text2 :: more) rest)
      with (before ++ text
            ++ cuComma :: sequenceText closing before after (text2 :: more) rest).
    change (join (cuComma :: before) (text :: text2 :: more))
      with (text ++ (cuComma :: before) ++ join (cuComma :: before) (text2 :: more)).
    rewrite <- (IH ltac:(discriminate)).
    rewrite <- !app_assoc. reflexivity.
Qed.

Lemma wrapPartial_sequence opening closing gap stepback indent text more rest :
  wrapPartial opening closing gap stepback indent (text :: more) ++ rest
  = opening :: sequenceText closing (lineBreak gap indent) (lineBreak gap stepback)
                 (text :: more) rest.
Proof.
  rewrite <- join_sequence by discriminate.
  unfold wrapPartial, lineBreak. destruct (isEmpty gap).
  - cbn [app]. repeat (rewrite <- app_assoc; cbn [app]). reflexivity.
  - cbn [app]. repeat (rewrite <- app_assoc; cbn [app]). reflexivity.
Qed.

(** *** Values *)

Lemma jsval_induction (P : jsval -> Prop) :
  P VUndefined -> P VNull -> (forall b, P (VBool b)) ->
  (forall x, P (VNumber x)) -> (forall s, P (VString s)) ->
  (forall items, Forall P items -> P (VArray items)) ->
  (forall props, Forall (fun kv => P (snd kv)) props -> P (VObject props)) ->
  forall v, P v.
Proof.
  intros Hu Hn Hb Hx Hs Ha Ho. fix IH 1.
  intros [| |b|x|s|items|props].
  - exact Hu.
  - exact Hn.
  - apply Hb.
  - apply Hx.
  - apply Hs.
  - apply Ha. induction items as [|v items IHl]; constructor;
      [apply IH|exact IHl].
  - apply Ho. induction props as [|[k v] props IHl]; constructor;
      [apply IH|exact IHl].
Qed.

Lemma parseValue_lift f g s v rest :
  parseValue f s = Ok v rest -> f <= g -> parseValue g s = Ok v rest.
Proof.
  intros H L. rewrite (parseValue_fuel_le _ _ _ L); [exact H|]. now rewrite H.
Qed.

Lemma parseElements_lift f g s vs rest :
  parseElements f s = Ok vs rest -> f <= g -> parseElements g s = Ok vs rest.
Proof.
  intros H L. rewrite (parseElements_fuel_le _ _ _ L); [exact H|]. now rewrite H.
Qed.

Lemma parseMembers_lift f g acc s v rest :
  parseMembers f acc s = Ok v rest -> f <= g -> parseMembers g acc s = Ok v rest.
Proof.
  intros H L. rewrite (parseMembers_fuel_le _ _ _ _ L); [exact H|]. now rewrite H.
Qed.

Lemma parseElements_sequence gap indent items :
  items <> [] ->
  Forall (readsBack gap indent) items ->
  forall before after rest,
    allSpace before = true -> allSpace after = true ->
    exists fuel,
      parseElements fuel
        (sequenceText cuRBracket before after (map (textOf gap indent) items) rest)
      = Ok items rest.
Proof.
  induction items as [|v items IH]; [congruence|].
  intros _ Hall before after rest Hb Ha.
  inversion Hall as [|? ? Hv Hrest]; subst.
  destruct items as [|v2 items].
  - cbn [map sequenceText].
    destruct (Hv before (after ++ cuRBracket :: rest) Hb) as [f Hf].
    { now apply endsNumber_after_space. }
    exists (S f). rewrite parseElements_S, Hf.
    rewrite (skipWs_app _ _ Ha) by reflexivity.
    reflexivity.
  - change (sequenceText cuRBracket before after
              (map (textOf gap indent) (v :: v2 :: items)) rest)
      with (before ++ textOf gap indent v
            ++ cuComma :: sequenceText cuRBracket before after
                            (map (textOf gap indent) (v2 :: items)) rest).
    destruct (IH ltac:(discriminate) Hrest before after rest Hb Ha) as [f2 Hf2].
    destruct (Hv before
                (cuComma :: sequenceText cuRBracket before after
                              (map (textOf gap indent) (v2 :: items)) rest)
                Hb eq_refl) as [f1 Hf1].
    exists (S (Nat.max f1 f2)). rewrite parseElements_S.
    rewrite (parseValue_lift _ _ _ _ _ Hf1) by lia.
    rewrite skipWs_none by reflexivity.
    change (N.eqb cuComma cuComma) with true. cbv iota.
    rewrite (parseElements_lift _ _ _ _ _ Hf2) by lia. reflexivity.
Qed.

Lemma memberText_app gap indent k v tail :
  memberText gap indent (k, v) ++ tail
  = cuQuote :: quoteChars k
    ++ cuQuote :: cuColon
       :: (if isEmpty gap then [] else js " ") ++ textOf gap indent v ++ tail.
Proof.
  unfold memberText, QuoteJSONString. cbn [fst snd app].
  repeat (rewrite <- app_assoc; cbn [app]). reflexivity.
Qed.

Lemma colonSpace_space (gap : jsstring) :
  allSpace (if isEmpty gap then [] else js " ") = true.
Proof. now destruct (isEmpty gap). Qed.

Lemma parseMembers_member f acc before gap indent k v tail :
  allSpace before = true ->
  parseValue f ((if isEmpty gap then [] else js " ") ++ textOf gap indent v ++ tail)
  = Ok v tail ->
  parseMembers (S f) acc (before ++ memberText gap indent (k, v) ++ tail)
  = match skipWs tail with
    | d :: r4 =>
        if N.eqb d cuComma then parseMembers f (setProp k v acc) r4
        else if N.eqb d cuRBrace then Ok (VObject (setProp k v acc)) r4
        else SyntaxErr
    | [] => SyntaxErr
    end.
Proof.
  intros Hb Hv. rewrite parseMembers_S, memberText_app.
  rewrite (skipWs_app _ _ Hb) by reflexivity.
  change (N.eqb cuQuote cuQuote) with true. cbv iota.
  rewrite parseChars_quoteChars.
  rewrite skipWs_none by reflexivity.
  change (N.eqb cuColon cuColon) with true. cbv iota.
  now rewrite Hv.
Qed.

Lemma parseMembers_sequence gap indent props :
  props <> [] ->
  Forall (fun kv => readsBack gap indent (snd kv)) props ->
  forall acc before after rest,
    orderedKeys (map fst (acc ++ props)) = true ->
    allSpace before = true -> allSpace after = true ->
    exists fuel,
      parseMembers fuel acc
        (sequenceText cuRBrace before after (map (memberText gap indent) props) rest)
      = Ok (VObject (acc ++ props)) rest.
Proof.
  induction props as [|[k v] props IH]; [congruence|].
  intros _ Hall acc before after rest Hord Hb Ha.
  inversion Hall as [|? ? Hv Hrest]; subst. cbn [snd] in Hv.
  assert (Hset : setProp k v acc = acc ++ [(k, v)]).
  { apply setProp_last. rewrite map_app in Hord. cbn [map fst] in Hord.
    change (k :: map fst props) with ([k] ++ map fst props) in Hord.
    rewrite app_assoc in Hord. now apply orderedKeys_app_l in Hord. }
  destruct props as [|kv2 props].
  - cbn [map sequenceText].
    destruct (Hv (if isEmpty gap then [] else js " ") (after ++ cuRBrace :: rest)
                (colonSpace_space gap)) as [f Hf].
    { now apply endsNumber_after_space. }
    exists (S f). rewrite (parseMembers_member _ _ _ _ _ _ _ _ Hb Hf).
    rewrite (skipWs_app _ _ Ha) by reflexivity.
    change (N.eqb cuRBrace cuComma) with false.
    change (N.eqb cuRBrace cuRBrace) with true. cbv iota.
    now rewrite Hset.
  - change (sequenceText cuRBrace before after
              (map (memberText gap indent) ((k, v) :: kv2 :: props)) rest)
      with (before ++ memberText gap indent (k, v)
            ++ cuComma :: sequenceText cuRBrace before after
                            (map (memberText gap indent) (kv2 :: props)) rest).
    destruct (IH ltac:(discriminate) Hrest (acc ++ [(k, v)]) before after rest)
      as [f2 Hf2]; trivial.
    { now rewrite <- app_assoc. }
    destruct (Hv (if isEmpty gap then [] else js " ")
                (cuComma :: sequenceText cuRBrace before after
                              (map (memberText gap indent) (kv2 :: props)) rest)
                (colonSpace_space gap) eq_refl) as [f1 Hf1].
    exists (S (Nat.max f1 f2)).
    rewrite (parseMembers_member _ _ _ _ _ _ _ _ Hb
               (parseValue_lift _ (Nat.max f1 f2) _ _ _ Hf1 ltac:(lia))).
    rewrite skipWs_none by reflexivity.
    change (N.eqb cuComma cuComma) with true. cbv iota.
    rewrite Hset, (parseMembers_lift _ _ _ _ _ _ Hf2) by lia.
    now rewrite <- app_assoc.
Qed.

Lemma digits_numberChars s :
  forallb isDigit s = true -> forallb isNumberChar s = true.
Proof.
  induction s as [|c s IH]; trivial. cbn [forallb]. intros H.
  apply andb_true_iff in H as [Hc Hs]. unfold isNumberChar at 1.
  now rewrite Hc, IH.
Qed.

Lemma signOf_numberChars neg : forallb isNumberChar (signOf neg) = true.
Proof. now destruct neg. Qed.

(** [Number::toString] prints digits, a sign, a point and an [e] only, and
    starts with a digit or a minus sign. *)
Lemma Number_toString_chars x :
  wfNumber x = true -> isFiniteNumber x = true ->
  forallb isNumberChar (Number_toString x) = true
  /\ headIs (fun c => isDigit c || N.eqb c cuHyphen) (Number_toString x) = true.
Proof.
  intros Hwf Hfin. destruct x as [| |neg ds n]; try discriminate.
  destruct ds as [|d1 tl]; [split; reflexivity|].
  unfold wfNumber in Hwf.
  apply andb_true_iff in Hwf as [Hwf _].
  apply andb_true_iff in Hwf as [Hwf _].
  apply andb_true_iff in Hwf as [Hdigits _].
  pose proof Hdigits as Hdigits'. cbn [forallb] in Hdigits'.
  apply andb_true_iff in Hdigits' as [Hd1 Htl].
  pose proof (digits_numberChars _ Hdigits) as Hds.
  pose proof (digits_numberChars _ Htl) as Htl'.
  assert (Hd1' : isNumberChar d1 = true) by (unfold isNumberChar; now rewrite Hd1).
  cbn [Number_toString].
  destruct ((Z.of_nat (List.length (d1 :: tl)) <=? n)%Z && (n <=? 21)%Z).
  { split.
    - rewrite !forallb_app, signOf_numberChars, Hds.
      now rewrite (digits_numberChars _ (repeat_zero_digits _)).
    - destruct neg; cbn [signOf app headIs]; [reflexivity|now rewrite Hd1]. }
  destruct ((0 <? n)%Z && (n <=? 21)%Z) eqn:CaseB.
  { apply andb_true_iff in CaseB as [B1 _]. apply Z.ltb_lt in B1.
    destruct (Z.to_nat n) as [|n'] eqn:En; [lia|]. split.
    - rewrite !forallb_app, signOf_numberChars. cbn [firstn skipn forallb].
      rewrite Hd1'.
      rewrite (digits_numberChars _ (forallb_firstn _ _ n' Htl)).
      now rewrite (digits_numberChars _ (forallb_skipn _ _ n' Htl)).
    - destruct neg; cbn [signOf app headIs firstn]; [reflexivity|now rewrite Hd1]. }
  destruct ((-6 <? n)%Z && (n <=? 0)%Z).
  { split.
    - rewrite forallb_app, signOf_numberChars. cbn [forallb].
      rewrite forallb_app, Hds.
      now rewrite (digits_numberChars _ (repeat_zero_digits _)).
    - now destruct neg. }
  split.
  - rewrite forallb_app, signOf_numberChars. cbn [forallb]. rewrite Hd1'.
    rewrite forallb_app. cbn [forallb].
    rewrite (digits_numberChars _ (decimal_digits _)).
    assert (He : isNumberChar (if (n - 1 <? 0)%Z then cuHyphen else cuPlus) = true)
      by now destruct (n - 1 <? 0)%Z.
    rewrite He. destruct tl; [reflexivity|].
    cbn [forallb] in *. now rewrite Htl'.
  - destruct neg; cbn [signOf app headIs]; [reflexivity|now rewrite Hd1].
Qed.

Lemma numberChar_notSpace c : isNumberChar c = true -> notSpace c = true.
Proof.
  unfold isNumberChar, notSpace, isJsonSpace, cuPlus, cuDot, cuLowerE.
  intros H. cu_cases.
Qed.

Lemma tight_of_notSpace s :
  s <> [] -> forallb notSpace s = true -> tight s = true.
Proof.
  intros Hne Hall. unfold tight. rewrite forallb_forall in Hall.
  apply andb_true_iff. split.
  - destruct s as [|c s]; [congruence|]. apply Hall. now left.
  - destruct (rev s) as [|c r] eqn:E.
    + apply (f_equal (@rev _)) in E. rewrite rev_involutive in E. now subst.
    + apply Hall, in_rev. rewrite E. now left.
Qed.

Lemma jsonTrim_tight text : tight text = true -> jsonTrim text = text.
Proof.
  unfold tight. intros H. apply andb_true_iff in H as [Hh Hl].
  unfold jsonTrim, dropWhileEnd.
  rewrite (dropWhile_none isJsonSpace (rev text)).
  - rewrite rev_involutive. apply dropWhile_none.
    destruct text; trivial. cbn in *. now apply negb_true_iff.
  - destruct (rev text); trivial. cbn in *. now apply negb_true_iff.
Qed.

Lemma startsValue_notSpace text :
  startsValue text = true -> headIs isJsonSpace text = false.
Proof.
  destruct text as [|c t]; [discriminate|]. unfold startsValue. cbn [headIs].
  intros H. apply andb_true_iff in H as [H _].
  apply andb_true_iff in H as [H _]. now apply negb_true_iff.
Qed.

Lemma startsValue_app text tail :
  startsValue text = true -> startsValue (text ++ tail) = true.
Proof. now destruct text. Qed.

Lemma sequenceText_starts closing before after text more rest :
  allSpace before = true -> startsValue text = true ->
  startsValue (skipWs (sequenceText closing before after (text :: more) rest))
  = true.
Proof.
  intros Hb Hs. cbn [sequenceText].
  rewrite (skipWs_app _ _ Hb).
  - now apply startsValue_app.
  - destruct text; [discriminate|]. now apply (startsValue_notSpace (c :: text)).
Qed.

Lemma parseValue_array f ws body :
  allSpace ws = true -> startsValue (skipWs body) = true ->
  parseValue (S f) (ws ++ cuLBracket :: body)
  = match parseElements f body with
    | Ok items rest => Ok (VArray items) rest
    | SyntaxErr => SyntaxErr
    | OutOfFuel => OutOfFuel
    end.
Proof.
  intros Hws Hb. rewrite parseValue_S, (skipWs_app _ _ Hws) by reflexivity.
  change (N.eqb cuLBracket cuLBrace) with false.
  change (N.eqb cuLBracket cuLBracket) with true. cbv iota.
  destruct (skipWs body) as [|d r']; [discriminate|].
  unfold startsValue in Hb. cbn [headIs] in Hb.
  apply andb_true_iff in Hb as [Hb _]. apply andb_true_iff in Hb as [_ Hb].
  apply negb_true_iff in Hb. now rewrite Hb.
Qed.

Lemma parseValue_object f ws body :
  allSpace ws = true -> startsValue (skipWs body) = true ->
  parseValue (S f) (ws ++ cuLBrace :: body) = parseMembers f [] body.
Proof.
  intros Hws Hb. rewrite parseValue_S, (skipWs_app _ _ Hws) by reflexivity.
  change (N.eqb cuLBrace cuLBrace) with true. cbv iota.
  destruct (skipWs body) as [|d r']; [discriminate|].
  unfold startsValue in Hb. cbn [headIs] in Hb.
  apply andb_true_iff in Hb as [_ Hb].
  apply negb_true_iff in Hb. now rewrite Hb.
Qed.

Lemma parseValue_number f ws c r :
  allSpace ws = true -> isDigit c || N.eqb c cuHyphen = true ->
  parseValue (S f) (ws ++ c :: r)
  = match parseNumber (c :: r) with
    | Some (x, rest) => Ok (VNumber x) rest
    | None => SyntaxErr
    end.
Proof.
  intros Hws Hc. rewrite parseValue_S.
  assert (Hs : isJsonSpace c = false) by (unfold isJsonSpace; cu_cases).
  rewrite (skipWs_app _ _ Hws) by exact Hs.
  assert (E1 : N.eqb c cuLBrace = false) by (unfold cuLBrace; cu_cases).
  assert (E2 : N.eqb c cuLBracket = false) by (unfold cuLBracket; cu_cases).
  assert (E3 : N.eqb c cuQuote = false) by cu_cases.
  rewrite E1, E2, E3.
  assert (T1 : startsWith (js "true") (c :: r) = false).
  { change (js "true") with [116; 114; 117; 101]%N. cbn [startsWith].
    apply andb_false_iff. left. cu_cases. }
  assert (T2 : startsWith (js "false") (c :: r) = false).
  { change (js "false") with [102; 97; 108; 115; 101]%N. cbn [startsWith].
    apply andb_false_iff. left. cu_cases. }
  assert (T3 : startsWith (js "null") (c :: r) = false).
  { change (js "null") with [110; 117; 108; 108]%N. cbn [startsWith].
    apply andb_false_iff. left. cu_cases. }
  now rewrite T1, T2, T3.
Qed.

Lemma members_of_documents gap indent props :
  Forall (fun kv => serialize gap indent (snd kv) <> None) props ->
  flat_map (fun kv =>
              match serialize gap indent (snd kv) with
              | Some str =>
                  [QuoteJSONString (fst kv) ++ [cuColon]
                   ++ (if isEmpty gap then [] else js " ") ++ str]
              | None => []
              end) props
  = map (memberText gap indent) props.
Proof.
  induction 1 as [|kv props Hkv _ IH]; trivial.
  cbn [flat_map map]. rewrite IH. unfold memberText, textOf.
  now destruct (serialize gap indent (snd kv)).
Qed.

Lemma wrapPartial_tight opening closing gap stepback indent partial :
  notSpace opening = true -> notSpace closing = true ->
  tight (wrapPartial opening closing gap stepback indent partial) = true.
Proof.
  intros Ho Hc. unfold wrapPartial, tight.
  destruct partial as [|p ps]; [cbn; now rewrite Ho, Hc|].
  destruct (isEmpty gap).
  - rewrite app_assoc, rev_app_distr. cbn [rev app headIs]. now rewrite Ho, Hc.
  - rewrite !app_assoc, rev_app_distr. cbn [rev app headIs]. now rewrite Ho, Hc.
Qed.

Lemma wrapPartial_starts opening closing gap stepback indent partial :
  startsValue [opening] = true ->
  startsValue (wrapPartial opening closing gap stepback indent partial) = true.
Proof.
  intros Ho. unfold wrapPartial.
  destruct partial; [exact Ho|]. now destruct (isEmpty gap).
Qed.

Lemma memberText_starts gap indent kv :
  startsValue (memberText gap indent kv) = true.
Proof. reflexivity. Qed.

(** For every Document whose numbers JSON can write: it has a text, the text
    is tight, and the parser reads it back. *)
Lemma serialize_readsBack v :
  isDocument v = true -> jsonNumbers v = true ->
  forall gap indent,
    allSpace gap = true -> allSpace indent = true ->
    serialize gap indent v <> None
    /\ startsValue (textOf gap indent v) = true
    /\ tight (textOf gap indent v) = true
    /\ readsBack gap indent v.
Proof.
  induction v as [| |b|x|s|items IH|props IH] using jsval_induction;
    intros Hdoc Hnum gap indent Hgap Hindent.
  - discriminate.
  - repeat split; try discriminate.
    intros ws rest Hws _. exists 1.
    change (textOf gap indent VNull ++ rest)
      with (110 :: 117 :: 108 :: 108 :: rest)%N.
    rewrite parseValue_S, (skipWs_app _ _ Hws) by reflexivity. reflexivity.
  - destruct b.
    + repeat split; try discriminate.
      intros ws rest Hws _. exists 1.
      change (textOf gap indent (VBool true) ++ rest)
        with (116 :: 114 :: 117 :: 101 :: rest)%N.
      rewrite parseValue_S, (skipWs_app _ _ Hws) by reflexivity. reflexivity.
    + repeat split; try discriminate.
      intros ws rest Hws _. exists 1.
      change (textOf gap indent (VBool false) ++ rest)
        with (102 :: 97 :: 108 :: 115 :: 101 :: rest)%N.
      rewrite parseValue_S, (skipWs_app _ _ Hws) by reflexivity. reflexivity.
  - cbn [isDocument] in Hdoc. cbn [jsonNumbers] in Hnum.
    pose proof Hnum as Hfin. unfold jsonNumber in Hfin.
    apply andb_true_iff in Hfin as [Hfin _].
    destruct (Number_toString_chars x Hdoc Hfin) as [Hchars Hhead].
    assert (Htext : textOf gap indent (VNumber x) = Number_toString x)
      by (unfold textOf; cbn [serialize]; now rewrite Hfin).
    rewrite Htext.
    destruct (Number_toString x) as [|c r] eqn:E; [discriminate|].
    cbn [headIs] in Hhead. pose proof Hchars as Hc. cbn [forallb] in Hc.
    apply andb_true_iff in Hc as [Hc _].
    repeat split; try discriminate.
    + unfold startsValue. cbn [headIs].
      rewrite (numberChar_notSpace _ Hc).
      unfold cuRBracket, cuRBrace. clear - Hhead. cu_cases.
    + apply tight_of_notSpace; [discriminate|].
      rewrite forallb_forall in *. intros d Hd.
      now apply numberChar_notSpace, Hchars.
    + intros ws rest Hws Hrest. exists 1. rewrite Htext. cbn [app].
      rewrite (parseValue_number _ _ _ _ Hws Hhead).
      change (c :: r ++ rest) with ((c :: r) ++ rest). rewrite <- E.
      now rewrite (parseNumber_toString _ _ Hdoc Hnum Hrest).
  - repeat split; try discriminate.
    + unfold textOf. cbn [serialize]. unfold QuoteJSONString, tight.
      change (cuQuote :: quoteChars s ++ [cuQuote])
        with ((cuQuote :: quoteChars s) ++ [cuQuote]).
      rewrite rev_app_distr. reflexivity.
    + intros ws rest Hws _. exists 1.
      change (textOf gap indent (VString s) ++ rest)
        with (cuQuote :: (quoteChars s ++ [cuQuote]) ++ rest).
      rewrite parseValue_S, (skipWs_app _ _ Hws) by reflexivity.
      change (N.eqb cuQuote cuLBrace) with false.
      change (N.eqb cuQuote cuLBracket) with false.
      change (N.eqb cuQuote cuQuote) with true. cbv iota.
      rewrite <- app_assoc. cbn [app]. now rewrite parseChars_quoteChars.
  - cbn [isDocument] in Hdoc. cbn [jsonNumbers] in Hnum.
    assert (Htext : textOf gap indent (VArray items)
                    = wrapPartial cuLBracket cuRBracket gap indent (indent ++ gap)
                        (map (textOf gap (indent ++ gap)) items))
      by reflexivity.
    rewrite Htext.
    assert (Hin : allSpace (indent ++ gap) = true) by now apply allSpace_app.
    repeat split; try discriminate.
    + now apply wrapPartial_starts.
    + now apply wrapPartial_tight.
    + intros ws rest Hws _. rewrite Htext.
      destruct items as [|v items].
      { exists 1. cbn [map wrapPartial app].
        rewrite parseValue_S, (skipWs_app _ _ Hws) by reflexivity.
        reflexivity. }
      assert (Hall : Forall (readsBack gap (indent ++ gap)) (v :: items)).
      { rewrite Forall_forall in *. intros u Hu.
        rewrite forallb_forall in Hdoc, Hnum.
        now apply (IH u Hu (Hdoc u Hu) (Hnum u Hu) gap (indent ++ gap)). }
      assert (Hstart : startsValue (textOf gap (indent ++ gap) v) = true).
      { rewrite Forall_forall in IH. rewrite forallb_forall in Hdoc, Hnum.
        now apply (IH v (or_introl eq_refl) (Hdoc v (or_introl eq_refl))
                     (Hnum v (or_introl eq_refl)) gap (indent ++ gap)). }
      destruct (parseElements_sequence gap (indent ++ gap) (v :: items)
                  ltac:(discriminate) Hall
                  (lineBreak gap (indent ++ gap)) (lineBreak gap indent) rest
                  (lineBreak_space _ _ Hin) (lineBreak_space _ _ Hindent))
        as [f Hf].
      exists (S f). cbn [map]. rewrite wrapPartial_sequence.
      rewrite (parseValue_array _ _ _ Hws).
      * cbn [map] in Hf. now rewrite Hf.
      * apply sequenceText_starts; trivial. now apply lineBreak_space.
  - cbn [isDocument] in Hdoc. cbn [jsonNumbers] in Hnum.
    apply andb_true_iff in Hdoc as [Hord Hdoc].
    assert (Hin : allSpace (indent ++ gap) = true) by now apply allSpace_app.
    assert (Hsome : Forall (fun kv => serialize gap (indent ++ gap) (snd kv) <> None)
                      props).
    { rewrite Forall_forall in *. intros kv Hkv.
      rewrite forallb_forall in Hdoc, Hnum.
      now apply (IH kv Hkv (Hdoc kv Hkv) (Hnum kv Hkv) gap (indent ++ gap)). }
    assert (Htext : textOf gap indent (VObject props)
                    = wrapPartial cuLBrace cuRBrace gap indent (indent ++ gap)
                        (map (memberText gap (indent ++ gap)) props)).
    { unfold textOf. cbn [serialize]. now rewrite members_of_documents. }
    rewrite Htext.
    repeat split; try discriminate.
    + now apply wrapPartial_starts.
    + now apply wrapPartial_tight.
    + intros ws rest Hws _. rewrite Htext.
      destruct props as [|kv props].
      { exists 1. cbn [map wrapPartial app].
        rewrite parseValue_S, (skipWs_app _ _ Hws) by reflexivity.
        reflexivity. }
      assert (Hall : Forall (fun kv => readsBack gap (indent ++ gap) (snd kv))
                       (kv :: props)).
      { rewrite Forall_forall in *. intros u Hu.
        rewrite forallb_forall in Hdoc, Hnum.
        now apply (IH u Hu (Hdoc u Hu) (Hnum u Hu) gap (indent ++ gap)). }
      destruct (parseMembers_sequence gap (indent ++ gap) (kv :: props)
                  ltac:(discriminate) Hall []
                  (lineBreak gap (indent ++ gap)) (lineBreak gap indent) rest
                  Hord (lineBreak_space _ _ Hin) (lineBreak_space _ _ Hindent))
        as [f Hf].
      exists (S f). cbn [map]. rewrite wrapPartial_sequence.
      rewrite (parseValue_object _ _ _ Hws).
      * cbn [map] in Hf. now rewrite Hf.
      * apply sequenceText_starts; [now apply lineBreak_space|].
        apply memberText_starts.
Qed.

(** [JSON.parse(JSON.stringify(d, null, space))] is [d]. *)
Lemma JSON_parse_stringify d space :
  isDocument d = true -> jsonNumbers d = true ->
  exists text, JSON_stringify d space = Some text /\ JSON_parse text = Some d.
Proof.
  intros Hdoc Hnum. unfold JSON_stringify.
  assert (Hgap : allSpace (repeat 32%N (Nat.min 10 space)) = true).
  { induction (Nat.min 10 space); trivial. }
  destruct (serialize_readsBack d Hdoc Hnum _ [] Hgap eq_refl)
    as (Hsome & _ & Htight & Hread).
  unfold textOf in Htight, Hread. unfold readsBack, textOf in Hread.
  destruct (serialize (repeat 32%N (Nat.min 10 space)) [] d) as [text|];
    [|congruence].
  exists text. split; trivial.
  destruct (Hread [] [] eq_refl eq_refl) as [f Hf].
  cbn [app] in Hf. rewrite app_nil_r in Hf.
  unfold JSON_parse. rewrite (jsonTrim_tight _ Htight).
  now rewrite (parseValue_enough _ _ _ _ Hf).
Qed.

(** ** Raw mode: serializing and parsing back *)

Lemma prettyPrint_parses d :
  isDocument d = true -> jsonNumbers d = true ->
  JSON_parse (prettyPrint d) = Some d.
Proof.
  intros Hdoc Hnum. unfold prettyPrint.
  destruct (JSON_parse_stringify d 2 Hdoc Hnum) as (text & -> & Hparse).
  exact Hparse.
Qed.

Section RoundTrip.

Variable engineMessage : Exn -> jsstring.

(** C7, amended.  For every truthy Document made of nulls, booleans,
    strings, arrays, objects and numbers that are finite and not the
    negative zero, the text shown on entering raw mode is the
    pretty-printed Document, it parses back to the Document, and the blur
    that commits it leaves the Document equal to the original.  (A falsy
    Document, [null], [false], [0] or [""], is shown as the empty value of
    the field instead.) *)
Theorem raw_text_round_trip w st :
  mode st = preview ->
  isDocument (document w) = true ->
  jsonNumbers (document w) = true ->
  truthy (document w) = true ->
  let entered := setMode raw (w, st) in
  rawText (snd entered) = prettyPrint (document w)
  /\ JSON_parse (rawText (snd entered)) = Some (document w)
  /\ document (fst (handleRawBlur engineMessage entered)) = document w.
Proof.
  intros Hmode Hdoc Hnum Htruthy. cbv zeta.
  rewrite (setMode_raw_from_preview w st Hmode).
  rewrite (valueProp_document w Htruthy). cbn [fst snd rawText].
  pose proof (prettyPrint_parses _ Hdoc Hnum) as Hparse.
  repeat split; trivial.
  unfold handleRawBlur. cbn [rawText]. now rewrite Hparse.
Qed.

End RoundTrip.

(** C7, as stated, fails: the Document [null] is serialized as [{}] on
    entering raw mode, and the blur commits the empty object. *)
Lemma null_document_becomes_empty_object :
  let w := pricingWorld VNull in
  let entered := setMode raw (w, initialEditor) in
  isDocument (document w) = true
  /\ rawText (snd entered) = js "{}"
  /\ document (fst (handleRawBlur sampleEngine entered)) = VObject []
  /\ document (fst (handleRawBlur sampleEngine entered)) <> document w.
Proof.
  cbv zeta. repeat split; try (vm_compute; reflexivity).
  vm_compute. discriminate.
Qed.

Lemma raw_text_round_trip_witness :
  mode initialEditor = preview
  /\ isDocument (basePrice "15" 3) = true
  /\ jsonNumbers (basePrice "15" 3) = true
  /\ truthy (basePrice "15" 3) = true
  /\ document (fst (handleRawBlur sampleEngine
                      (setMode raw (pricingWorld (basePrice "15" 3), initialEditor))))
     = basePrice "15" 3.
Proof.
  assert (H1 : mode initialEditor = preview) by reflexivity.
  assert (H2 : isDocument (document (pricingWorld (basePrice "15" 3))) = true)
    by reflexivity.
  assert (H3 : jsonNumbers (document (pricingWorld (basePrice "15" 3))) = true)
    by reflexivity.
  assert (H4 : truthy (document (pricingWorld (basePrice "15" 3))) = true)
    by reflexivity.
  split; [exact H1|]. split; [exact H2|]. split; [exact H3|].
  split; [exact H4|].
  exact (proj2 (proj2 (raw_text_round_trip sampleEngine
                         (pricingWorld (basePrice "15" 3)) initialEditor
                         H1 H2 H3 H4))).
Defined.

(** ** Fence stripping and parsing *)

Lemma dropWhile_cons p c s :
  dropWhile p (c :: s) = if p c then dropWhile p s else c :: s.
Proof. unfold dropWhile. cbn [runLength]. now destruct (p c). Qed.

Lemma dropWhile_head p s : headIs p (dropWhile p s) = false.
Proof.
  induction s as [|c s IH]; trivial. rewrite dropWhile_cons.
  destruct (p c) eqn:E; trivial.
Qed.

Lemma dropWhile_keeps_end p s :
  headIs p (rev s) = false -> headIs p (rev (dropWhile p s)) = false.
Proof.
  induction s as [|c s IH]; trivial. rewrite dropWhile_cons. intros H.
  destruct (p c) eqn:E; trivial. apply IH.
  cbn [rev] in H. destruct (rev s) as [|d r] eqn:Er; trivial.
Qed.

Lemma jsonTrim_idempotent s : jsonTrim (jsonTrim s) = jsonTrim s.
Proof.
  unfold jsonTrim at 1.
  assert (Hend : headIs isJsonSpace (rev (jsonTrim s)) = false).
  { unfold jsonTrim. apply dropWhile_keeps_end. unfold dropWhileEnd.
    rewrite rev_involutive. apply dropWhile_head. }
  unfold dropWhileEnd. rewrite (dropWhile_none _ _ Hend), rev_involutive.
  apply dropWhile_none. unfold jsonTrim. apply dropWhile_head.
Qed.

(** [JSON.parse] does not see the white space around the text. *)
Lemma JSON_parse_jsonTrim s : JSON_parse (jsonTrim s) = JSON_parse s.
Proof. unfold JSON_parse. now rewrite jsonTrim_idempotent. Qed.

Lemma JSON_parse_trim t :
  jsonMargins t = true -> JSON_parse (trim t) = JSON_parse t.
Proof.
  unfold jsonMargins. intros H. apply jsstring_eqb_eq in H.
  rewrite <- H. apply JSON_parse_jsonTrim.
Qed.

(** C3, as stated, fails: a fence inside the inner text is stripped too,
    so the JSON string ["a```b"] comes back as ["ab"]. *)
Lemma fence_inside_text_is_lost :
  let t := quoted "a```b" in
  JSON_parse t = Some (VString (js "a```b"))
  /\ JSON_parse (normalize (wrapJsonFence t)) = Some (VString (js "ab"))
  /\ JSON_parse (normalize (wrapPlainFence t)) = Some (VString (js "ab"))
  /\ JSON_parse (normalize (wrapJsonFence t)) <> JSON_parse t.
Proof.
  cbv zeta. repeat split; try (vm_compute; reflexivity).
  vm_compute. discriminate.
Qed.

(** C3, amended.  For every inner text with no three backticks in a row,
    normalizing either wrapping, [```json\n t \n```] or [```\n t \n```],
    gives the inner text trimmed and otherwise intact; when the white space
    at the ends of the inner text is JSON white space, parsing the
    normalized text gives what parsing the inner text gives. *)
Theorem normalize_strips_fences t :
  hasFence t = false ->
  normalize (wrapJsonFence t) = trim t
  /\ normalize (wrapPlainFence t) = trim t
  /\ (jsonMargins t = true ->
      JSON_parse (normalize (wrapJsonFence t)) = JSON_parse t
      /\ JSON_parse (normalize (wrapPlainFence t)) = JSON_parse t).
Proof.
  intros H.
  rewrite (normalize_wrapJsonFence t H), (normalize_wrapPlainFence t H).
  repeat split; now apply JSON_parse_trim.
Qed.

Lemma normalize_strips_fences_witness :
  hasFence priceAnswer = false
  /\ jsonMargins priceAnswer = true
  /\ normalize (wrapJsonFence priceAnswer) = trim priceAnswer
  /\ JSON_parse (normalize (wrapJsonFence priceAnswer)) = JSON_parse priceAnswer.
Proof.
  assert (H1 : hasFence priceAnswer = false) by reflexivity.
  assert (H2 : jsonMargins priceAnswer = true) by reflexivity.
  split; [exact H1|]. split; [exact H2|]. split.
  - exact (proj1 (normalize_strips_fences priceAnswer H1)).
  - exact (proj1 (proj2 (proj2 (normalize_strips_fences priceAnswer H1)) H2)).
Defined.
(** * Properties of the rest of [App.jsx] *)

(** ** Objects *)

Lemma digit_cases c :
  isDigit c = true ->
  (c = 48 \/ c = 49 \/ c = 50 \/ c = 51 \/ c = 52
   \/ c = 53 \/ c = 54 \/ c = 55 \/ c = 56 \/ c = 57)%N.
Proof. intros H. cu_unfold. bool_to_prop_in H. lia. Qed.

Lemma uintToString_uintOfString k :
  forallb isDigit k = true -> uintToString (uintOfString k) = k.
Proof.
  induction k as [|c k IH]; trivial. cbn [forallb]. intros H.
  apply andb_true_iff in H as [Hc Hk].
  destruct (digit_cases c Hc) as [->|[->|[->|[->|[->|[->|[->|[->|[->| ->]]]]]]]]];
    simpl; now rewrite (IH Hk).
Qed.

Lemma unorm_uintOfString c r :
  forallb isDigit (c :: r) = true ->
  isZeroDigit c = false \/ r = [] ->
  Decimal.unorm (uintOfString (c :: r)) = uintOfString (c :: r).
Proof.
  cbn [forallb]. intros H Hz. apply andb_true_iff in H as [Hc Hr].
  destruct (digit_cases c Hc) as [->|[->|[->|[->|[->|[->|[->|[->|[->| ->]]]]]]]]];
    try reflexivity.
  destruct Hz as [Hz| ->]; [discriminate|reflexivity].
Qed.

(** An array index is the decimal string of its number. *)
Lemma arrayIndex_decimal k i : arrayIndex k = Some i -> k = decimal i.
Proof.
  unfold arrayIndex. destruct k as [|c r]; [discriminate|].
  destruct (forallb isDigit (c :: r)) eqn:Hd; [|discriminate].
  cbn [andb].
  destruct (negb (isZeroDigit c) || match r with [] => true | _ => false end) eqn:Hz;
    [|discriminate].
  destruct (N.leb _ _); [|discriminate]. intros [= <-].
  unfold decimal, digitsValue. rewrite DecimalN.Unsigned.to_of.
  rewrite unorm_uintOfString; trivial.
  - symmetry. now apply uintToString_uintOfString.
  - apply orb_true_iff in Hz as [Hz|Hz].
    + left. now apply negb_true_iff.
    + right. now destruct r.
Qed.

Lemma arrayIndex_inj k k' i :
  arrayIndex k = Some i -> arrayIndex k' = Some i -> k = k'.
Proof.
  intros H H'. rewrite (arrayIndex_decimal _ _ H), (arrayIndex_decimal _ _ H').
  reflexivity.
Qed.

Lemma jsstring_eqb_refl k : jsstring_eqb k k = true.
Proof. now apply jsstring_eqb_eq. Qed.

Lemma jsstring_eqb_neq a b : jsstring_eqb a b = false <-> a <> b.
Proof.
  split.
  - intros H E. apply jsstring_eqb_eq in E. congruence.
  - intros H. destruct (jsstring_eqb a b) eqn:E; trivial.
    apply jsstring_eqb_eq in E. contradiction.
Qed.

Lemma hasKey_keys k props :
  hasKey k props = existsb (jsstring_eqb k) (map fst props).
Proof. induction props as [|[k' v] r IH]; simpl; [trivial|now rewrite IH]. Qed.

Lemma hasKey_app k a b : hasKey k (a ++ b) = hasKey k a || hasKey k b.
Proof.
  induction a as [|[k' v] a IH]; simpl; trivial.
  rewrite IH. now rewrite orb_assoc.
Qed.

Lemma getOwn_app k a b :
  getOwn k (a ++ b) = if hasKey k a then getOwn k a else getOwn k b.
Proof.
  induction a as [|[k' v] a IH]; simpl; trivial.
  destruct (jsstring_eqb k k'); simpl; trivial.
Qed.

Lemma getOwn_missing k props : hasKey k props = false -> getOwn k props = VUndefined.
Proof.
  induction props as [|[k' v] r IH]; simpl; trivial.
  intros H. apply orb_false_iff in H as [-> H]. now apply IH.
Qed.

(** *** [updateProp] *)

Lemma updateProp_keys k v props : map fst (updateProp k v props) = map fst props.
Proof.
  induction props as [|[k' v'] r IH]; simpl; trivial.
  destruct (jsstring_eqb k k') eqn:E; simpl.
  - apply jsstring_eqb_eq in E. now subst.
  - now rewrite IH.
Qed.

Lemma getOwn_updateProp k v k' props :
  getOwn k' (updateProp k v props)
  = if jsstring_eqb k' k && hasKey k props then v else getOwn k' props.
Proof.
  induction props as [|[k0 v0] r IH]; simpl.
  - now rewrite andb_false_r.
  - destruct (jsstring_eqb k k0) eqn:E; simpl.
    + apply jsstring_eqb_eq in E. subst k0.
      destruct (jsstring_eqb k' k); reflexivity.
    + rewrite IH. destruct (jsstring_eqb k' k) eqn:E1; simpl.
      * apply jsstring_eqb_eq in E1. subst k'. rewrite E. reflexivity.
      * reflexivity.
Qed.

(** *** [insertIndex] *)

Lemma insertIndex_split i k v props :
  exists a b, props = a ++ b /\ insertIndex i k v props = a ++ (k, v) :: b.
Proof.
  induction props as [|[k' v'] r (a & b & Hr & Hi)].
  - now exists [], [].
  - cbn [insertIndex].
    destruct (arrayIndex k') as [j|]; [destruct (N.ltb j i)|].
    + exists ((k', v') :: a), b. simpl. now rewrite <- Hr, Hi.
    + now exists [], ((k', v') :: r).
    + now exists [], ((k', v') :: r).
Qed.

Lemma hasKey_insertIndex i k v k' props :
  hasKey k' (insertIndex i k v props) = jsstring_eqb k' k || hasKey k' props.
Proof.
  destruct (insertIndex_split i k v props) as (a & b & -> & ->).
  rewrite !hasKey_app. simpl.
  destruct (hasKey k' a), (jsstring_eqb k' k); reflexivity.
Qed.

Lemma getOwn_insertIndex i k v k' props :
  hasKey k props = false ->
  getOwn k' (insertIndex i k v props)
  = if jsstring_eqb k' k then v else getOwn k' props.
Proof.
  destruct (insertIndex_split i k v props) as (a & b & -> & ->).
  rewrite hasKey_app. intros H. apply orb_false_iff in H as [Ha Hb].
  rewrite !getOwn_app. simpl.
  destruct (jsstring_eqb k' k) eqn:E.
  - apply jsstring_eqb_eq in E. subst k'. now rewrite Ha.
  - reflexivity.
Qed.

(** *** [setProp]: what a property holds after an assignment *)

Lemma hasKey_setProp k v k' props :
  hasKey k' (setProp k v props) = jsstring_eqb k' k || hasKey k' props.
Proof.
  unfold setProp. destruct (hasKey k props) eqn:E.
  - rewrite !hasKey_keys, updateProp_keys.
    destruct (jsstring_eqb k' k) eqn:E1; trivial.
    apply jsstring_eqb_eq in E1. subst k'. now rewrite <- hasKey_keys, E.
  - destruct (arrayIndex k).
    + apply hasKey_insertIndex.
    + rewrite hasKey_app. simpl. rewrite orb_false_r. apply orb_comm.
Qed.

Lemma getOwn_setProp k v k' props :
  getOwn k' (setProp k v props)
  = if jsstring_eqb k' k then v else getOwn k' props.
Proof.
  unfold setProp. destruct (hasKey k props) eqn:E.
  - rewrite getOwn_updateProp, E, andb_true_r. reflexivity.
  - destruct (arrayIndex k).
    + now apply getOwn_insertIndex.
    + rewrite getOwn_app. simpl.
      destruct (jsstring_eqb k' k) eqn:E1.
      * apply jsstring_eqb_eq in E1. subst k'. now rewrite E.
      * destruct (hasKey k' props) eqn:E2; trivial.
        symmetry. now apply getOwn_missing.
Qed.
(** *** The order of the keys *)

Lemma orderedKeys_cons k r :
  orderedKeys (k :: r)
  = negb (existsb (jsstring_eqb k) r) && forallb (afterKey k) r && orderedKeys r.
Proof.
  cbn [orderedKeys]. unfold afterKey. destruct (arrayIndex k); reflexivity.
Qed.

Lemma afterKey_trans a b c :
  afterKey a b = true -> afterKey b c = true -> afterKey a c = true.
Proof.
  unfold afterKey.
  destruct (arrayIndex a) as [i|], (arrayIndex b) as [j|], (arrayIndex c) as [l|];
    trivial; try discriminate.
  rewrite !N.ltb_lt. lia.
Qed.

Lemma afterKey_all a b r :
  afterKey a b = true -> forallb (afterKey b) r = true ->
  forallb (afterKey a) r = true.
Proof.
  intros Hab H. rewrite forallb_forall in *. intros x Hx.
  apply (afterKey_trans a b x Hab). now apply H.
Qed.

Lemma insertIndex_ordered i k v props :
  arrayIndex k = Some i -> hasKey k props = false ->
  orderedKeys (map fst props) = true ->
  orderedKeys (map fst (insertIndex i k v props)) = true.
Proof.
  intros Hk. induction props as [|[k' v'] r IH]; intros Hnew Hord.
  - cbn. now rewrite Hk.
  - cbn [hasKey] in Hnew. apply orb_false_iff in Hnew as [Hkk' Hnew].
    cbn [map fst] in Hord. rewrite orderedKeys_cons in Hord.
    apply andb_true_iff in Hord as [Hord Hr].
    apply andb_true_iff in Hord as [Hdup Hafter].
    assert (Hkk : afterKey k k' = true -> orderedKeys (k :: k' :: map fst r) = true).
    { intros Ha. rewrite orderedKeys_cons. cbn [existsb forallb].
      rewrite Hkk', Ha, <- hasKey_keys, Hnew. cbn [negb orb andb].
      rewrite (afterKey_all k k' _ Ha Hafter).
      rewrite orderedKeys_cons, Hdup, Hafter, Hr. reflexivity. }
    cbn [insertIndex].
    destruct (arrayIndex k') as [j|] eqn:Hk'; [destruct (N.ltb j i) eqn:Hji|].
    + cbn [map fst]. rewrite orderedKeys_cons.
      rewrite <- hasKey_keys, hasKey_insertIndex, jsstring_eqb_sym, Hkk'.
      rewrite hasKey_keys. cbn [orb]. rewrite Hdup. cbn [negb andb].
      rewrite (IH Hnew Hr), andb_true_r.
      destruct (insertIndex_split i k v r) as (a & b & Hab & ->).
      rewrite Hab, map_app, forallb_app in Hafter.
      apply andb_true_iff in Hafter as [Ha Hb].
      rewrite map_app, forallb_app. cbn [map fst forallb].
      rewrite Ha, Hb, andb_true_r. cbn.
      unfold afterKey. now rewrite Hk', Hk, Hji.
    + apply Hkk. unfold afterKey. rewrite Hk, Hk'.
      apply N.ltb_lt. apply N.ltb_ge in Hji.
      assert (i <> j).
      { intros ->. apply jsstring_eqb_neq in Hkk'. apply Hkk'.
        now apply (arrayIndex_inj k k' j). }
      lia.
    + apply Hkk. unfold afterKey. now rewrite Hk, Hk'.
Qed.

Lemma appendKey_ordered k v props :
  arrayIndex k = None -> hasKey k props = false ->
  orderedKeys (map fst props) = true ->
  orderedKeys (map fst (props ++ [(k, v)])) = true.
Proof.
  intros Hk. induction props as [|[k' v'] r IH]; intros Hnew Hord.
  - cbn. now rewrite Hk.
  - cbn [hasKey] in Hnew. apply orb_false_iff in Hnew as [Hkk' Hnew].
    cbn [map fst app] in Hord |- *. rewrite orderedKeys_cons in Hord.
    rewrite orderedKeys_cons.
    apply andb_true_iff in Hord as [Hord Hr].
    apply andb_true_iff in Hord as [Hdup Hafter].
    rewrite (IH Hnew Hr), andb_true_r.
    rewrite map_app, existsb_app, forallb_app. cbn [map fst existsb forallb].
    rewrite Hafter, jsstring_eqb_sym, Hkk'.
    apply negb_true_iff in Hdup. rewrite Hdup. cbn.
    unfold afterKey. rewrite Hk. now destruct (arrayIndex k').
Qed.

(** An assignment keeps the keys in the order of [Object.keys]. *)
Lemma setProp_ordered k v props :
  orderedKeys (map fst props) = true ->
  orderedKeys (map fst (setProp k v props)) = true.
Proof.
  intros H. unfold setProp. destruct (hasKey k props) eqn:E.
  - now rewrite updateProp_keys.
  - destruct (arrayIndex k) as [i|] eqn:Hk.
    + now apply insertIndex_ordered.
    + now apply appendKey_ordered.
Qed.

Lemma updateProp_values (q : jsval -> bool) k v props :
  q v = true -> forallb (fun kv => q (snd kv)) props = true ->
  forallb (fun kv => q (snd kv)) (updateProp k v props) = true.
Proof.
  intros Hv. induction props as [|[k' v'] r IH]; trivial.
  cbn [forallb updateProp snd]. intros H. apply andb_true_iff in H as [H1 H2].
  destruct (jsstring_eqb k k'); cbn [forallb snd].
  - now rewrite Hv, H2.
  - now rewrite H1, IH.
Qed.

Lemma setProp_values (q : jsval -> bool) k v props :
  q v = true -> forallb (fun kv => q (snd kv)) props = true ->
  forallb (fun kv => q (snd kv)) (setProp k v props) = true.
Proof.
  intros Hv H. unfold setProp. destruct (hasKey k props).
  - now apply updateProp_values.
  - destruct (arrayIndex k) as [i|].
    + destruct (insertIndex_split i k v props) as (a & b & -> & ->).
      rewrite forallb_app in *. cbn [forallb snd]. rewrite Hv.
      apply andb_true_iff in H as [-> ->]. reflexivity.
    + rewrite forallb_app. cbn. now rewrite H, Hv.
Qed.

Lemma setProp_good q k v props :
  q v = true -> goodProps q props = true -> goodProps q (setProp k v props) = true.
Proof.
  unfold goodProps. intros Hv H. apply andb_true_iff in H as [H1 H2].
  now rewrite setProp_ordered, setProp_values.
Qed.

Lemma assignProp_good q k v props :
  q v = true -> goodProps q props = true -> goodProps q (assignProp k v props) = true.
Proof.
  intros Hv H. unfold assignProp.
  destruct (jsstring_eqb k protoKey && negb (hasKey k props)); trivial.
  now apply setProp_good.
Qed.

(** Copying an object property by property gives the object. *)
Lemma spread_onto acc props :
  orderedKeys (map fst (acc ++ props)) = true -> spread props acc = acc ++ props.
Proof.
  revert acc. induction props as [|[k v] r IH]; intros acc H.
  - now rewrite app_nil_r.
  - cbn [spread fold_left fst snd].
    assert (E : acc ++ (k, v) :: r = (acc ++ [(k, v)]) ++ r)
      by now rewrite <- app_assoc.
    rewrite E in H |- *.
    rewrite setProp_last.
    + now apply IH.
    + rewrite map_app in H. apply orderedKeys_app_l in H.
      now rewrite map_app in H.
Qed.

Lemma spread_self props :
  orderedKeys (map fst props) = true -> spread props [] = props.
Proof. intros H. now apply (spread_onto []). Qed.

(** *** The keys of an array *)

Lemma unorm_fixed_head u u' :
  Decimal.unorm u = u -> u = Decimal.D0 u' -> u' = Decimal.Nil.
Proof.
  intros H ->. unfold Decimal.unorm in H. cbn [Decimal.nzhead] in H.
  destruct (Decimal.nzhead u') eqn:E; try discriminate.
  - now injection H.
  - pose proof (DecimalFacts.nb_digits_nzhead u') as L.
    rewrite E, H in L. cbn in L. lia.
Qed.

Lemma decimal_head i c r :
  decimal i = c :: r -> isZeroDigit c = false \/ r = [].
Proof.
  unfold decimal. intros H.
  assert (Hn : Decimal.unorm (N.to_uint i) = N.to_uint i).
  { rewrite <- DecimalN.Unsigned.to_of. now rewrite DecimalN.Unsigned.of_to. }
  destruct (N.to_uint i) as [|u|u|u|u|u|u|u|u|u|u] eqn:E; cbn in H;
    try discriminate; injection H as <- <-; try (now left).
  right. now rewrite (unorm_fixed_head _ u Hn eq_refl).
Qed.

Lemma arrayIndex_of_decimal i :
  arrayIndex (decimal i) = if N.leb i 4294967294 then Some i else None.
Proof.
  unfold arrayIndex. destruct (decimal i) as [|c r] eqn:E.
  - now destruct (decimal_nonempty i).
  - assert (Hd : forallb isDigit (c :: r) = true)
      by (rewrite <- E; apply decimal_digits).
    assert (Hv : digitsValue (c :: r) = i)
      by (rewrite <- E; apply digitsValue_decimal).
    rewrite Hd, Hv.
    destruct (decimal_head i c r E) as [-> | ->]; cbn [negb orb andb]; trivial.
    now rewrite orb_true_r.
Qed.

Lemma decimal_inj i j : decimal i = decimal j -> i = j.
Proof.
  intros H. rewrite <- (digitsValue_decimal i), H. apply digitsValue_decimal.
Qed.

Lemma afterKey_decimal i j : (i < j)%N -> afterKey (decimal i) (decimal j) = true.
Proof.
  intros L. unfold afterKey. rewrite !arrayIndex_of_decimal.
  destruct (N.leb i _) eqn:Ei, (N.leb j _) eqn:Ej; trivial.
  - now apply N.ltb_lt.
  - apply N.leb_gt in Ei. apply N.leb_le in Ej. lia.
Qed.

Lemma indexed_keys {A} (wrap : A -> jsval) items i k :
  In k (map fst (indexed wrap i items)) -> exists j, (i <= j)%N /\ k = decimal j.
Proof.
  revert i. induction items as [|x r IH]; intros i; [intros []|].
  cbn [indexed map fst]. intros [<-|H].
  - exists i. split; [lia|reflexivity].
  - destruct (IH _ H) as (j & L & ->). exists j. split; [lia|reflexivity].
Qed.

(** The indices of an array are in the order of [Object.keys]. *)
Lemma indexed_ordered {A} (wrap : A -> jsval) items i :
  orderedKeys (map fst (indexed wrap i items)) = true.
Proof.
  revert i. induction items as [|x r IH]; intros i; trivial.
  cbn [indexed map fst]. rewrite orderedKeys_cons, IH, andb_true_r.
  apply andb_true_iff. split.
  - apply negb_true_iff. apply not_true_is_false. intros H.
    apply existsb_exists in H as (k & Hin & Hk).
    apply jsstring_eqb_eq in Hk. destruct (indexed_keys _ _ _ _ Hin) as (j & L & ->).
    apply decimal_inj in Hk. lia.
  - apply forallb_forall. intros k Hin.
    destruct (indexed_keys _ _ _ _ Hin) as (j & L & ->).
    apply afterKey_decimal. lia.
Qed.

Lemma indexed_values {A} (wrap : A -> jsval) (q : jsval -> bool) items i :
  forallb (fun x => q (wrap x)) items = true ->
  forallb (fun kv => q (snd kv)) (indexed wrap i items) = true.
Proof.
  revert i. induction items as [|x r IH]; intros i; trivial.
  cbn [forallb indexed snd]. intros H. apply andb_true_iff in H as [-> H].
  now apply IH.
Qed.

Lemma ownEntries_ordered v :
  wellKeyed v = true -> orderedKeys (map fst (ownEntries v)) = true.
Proof.
  destruct v; trivial; cbn [ownEntries].
  - intros _. apply indexed_ordered.
  - intros _. apply indexed_ordered.
  - unfold wellKeyed. cbn [everyValue]. intros H.
    now apply andb_true_iff in H as [H _].
Qed.

Lemma ownEntries_good leaf v :
  isObject v = true -> everyValue leaf v = true ->
  goodProps (everyValue leaf) (ownEntries v) = true.
Proof.
  destruct v; try discriminate; intros _; cbn [ownEntries everyValue].
  - intros H. unfold goodProps. rewrite indexed_ordered.
    now apply indexed_values.
  - trivial.
Qed.

(** *** [deepMerge] as a fold *)

Lemma deepMerge_primitive_target target source :
  isObject target = false -> deepMerge target source = source.
Proof. intros H. destruct source; cbn [deepMerge]; now rewrite H. Qed.

Lemma deepMerge_primitive_source target source :
  isObject source = false -> deepMerge target source = source.
Proof.
  destruct source; try discriminate; intros _; cbn [deepMerge];
    now destruct (isObject target).
Qed.

Lemma mergeStep_round tprops key sv output :
  match sv with
  | VObject _ =>
      if negb (hasKey key tprops) then assignProp key sv output
      else assignProp key (deepMerge (getOwn key tprops) sv) output
  | _ => assignProp key sv output
  end = mergeStep tprops output (key, sv).
Proof.
  unfold mergeStep, mergedProp. cbn [fst snd].
  destruct sv; cbn [isPlainObject andb]; trivial.
  now destruct (hasKey key tprops).
Qed.

Lemma deepMerge_fold target source :
  isObject target = true -> isObject source = true ->
  deepMerge target source
  = VObject (fold_left (mergeStep (ownEntries target)) (ownEntries source)
               (spread (ownEntries target) [])).
Proof.
  intros Ht Hs.
  destruct source as [| | | | |sitems|sprops]; try discriminate; clear Hs;
    cbn [deepMerge ownEntries]; rewrite Ht; cbn [negb]; f_equal.
  - generalize (spread (ownEntries target) []). generalize 0%N.
    induction sitems as [|sv r IH]; intros i output; trivial.
    cbn [indexed fold_left]. rewrite mergeStep_round. apply IH.
  - generalize (spread (ownEntries target) []).
    induction sprops as [|[key sv] r IH]; intros output; trivial.
    cbn [fold_left]. rewrite mergeStep_round. apply IH.
Qed.
(** *** What [deepMerge] gives a key *)

Lemma assignProp_other k k0 v out :
  jsstring_eqb k k0 = false ->
  hasKey k (assignProp k0 v out) = hasKey k out
  /\ getOwn k (assignProp k0 v out) = getOwn k out.
Proof.
  intros E. unfold assignProp.
  destruct (jsstring_eqb k0 protoKey && negb (hasKey k0 out)); [now split|].
  now rewrite hasKey_setProp, getOwn_setProp, E.
Qed.

Lemma fold_mergeStep_lookup tp k es :
  orderedKeys (map fst es) = true ->
  forall out,
    let assigned :=
      hasKey k es && (negb (jsstring_eqb k protoKey) || hasKey k out) in
    hasKey k (fold_left (mergeStep tp) es out) = hasKey k out || assigned
    /\ getOwn k (fold_left (mergeStep tp) es out)
       = if assigned then mergedProp tp k (getOwn k es) else getOwn k out.
Proof.
  induction es as [|[k0 v0] r IH]; intros Hord out.
  - cbn. now rewrite orb_false_r.
  - cbn [map fst] in Hord. rewrite orderedKeys_cons in Hord.
    apply andb_true_iff in Hord as [Hord Hr].
    apply andb_true_iff in Hord as [Hdup _]. apply negb_true_iff in Hdup.
    rewrite <- hasKey_keys in Hdup.
    cbn [fold_left hasKey getOwn]. specialize (IH Hr (mergeStep tp out (k0, v0))).
    cbn zeta in IH. destruct IH as [IH1 IH2]. cbn zeta. rewrite IH1, IH2.
    destruct (jsstring_eqb k k0) eqn:E.
    + apply jsstring_eqb_eq in E. subst k0. rewrite Hdup. cbn [andb orb].
      rewrite orb_false_r. unfold mergeStep, assignProp. cbn [fst snd].
      destruct (jsstring_eqb k protoKey); cbn [negb andb orb].
      * destruct (hasKey k out) eqn:Ek; cbn [negb].
        -- now rewrite hasKey_setProp, getOwn_setProp, jsstring_eqb_refl.
        -- now rewrite Ek.
      * rewrite hasKey_setProp, getOwn_setProp, jsstring_eqb_refl.
        now rewrite orb_true_r.
    + unfold mergeStep. cbn [fst snd orb].
      destruct (assignProp_other k k0 (mergedProp tp k0 v0) out E) as [-> ->].
      now split.
Qed.

(** X1. For an object or array [target] and an object or array [source],
    [deepMerge] gives a plain object.  A key of [source] is assigned, unless
    it is [__proto__] and [target] has no own property of that name; an
    assigned key holds the value of [source], merged with the value of
    [target] when the former is a plain object and [target] has the key; any
    other key holds what it holds in [target]. *)
Theorem deepMerge_lookup target source key :
  isObject target = true -> isObject source = true ->
  wellKeyed target = true -> wellKeyed source = true ->
  let tprops := ownEntries target in
  let sprops := ownEntries source in
  let assigned :=
    hasKey key sprops && (negb (jsstring_eqb key protoKey) || hasKey key tprops) in
  exists output,
    deepMerge target source = VObject output
    /\ hasKey key output = hasKey key tprops || assigned
    /\ getOwn key output
       = if assigned then
           let sv := getOwn key sprops in
           if isPlainObject sv && hasKey key tprops
           then deepMerge (getOwn key tprops) sv
           else sv
         else getOwn key tprops.
Proof.
  intros Ht Hs Kt Ks tprops sprops assigned.
  rewrite (deepMerge_fold _ _ Ht Hs). eexists. split; [reflexivity|].
  fold tprops sprops.
  assert (Hcopy : spread tprops [] = tprops)
    by now apply spread_self, ownEntries_ordered.
  rewrite Hcopy.
  exact (fold_mergeStep_lookup tprops key sprops
           (ownEntries_ordered _ Ks) tprops).
Qed.

Lemma deepMerge_lookup_witness :
  let target := VObject [(js "pricing", VObject [(js "currency", VString (js "USD"))]);
                         (js "days", VArray [VNull])] in
  let source := VObject [(js "pricing", VObject [(js "base_price", VNull)])] in
  exists output,
    deepMerge target source = VObject output
    /\ getOwn (js "pricing") output
       = VObject [(js "currency", VString (js "USD")); (js "base_price", VNull)]
    /\ getOwn (js "days") output = VArray [VNull].
Proof.
  intros target source.
  destruct (deepMerge_lookup target source (js "pricing")
              eq_refl eq_refl eq_refl eq_refl) as (output & E & _ & G).
  exists output. split; [exact E|]. split; [exact G|].
  vm_compute in E. injection E as <-. reflexivity.
Defined.

(** *** Merged Documents *)

Lemma getOwn_good q k props :
  forallb (fun kv => q (snd kv)) props = true -> hasKey k props = true ->
  q (getOwn k props) = true.
Proof.
  induction props as [|[k' v] r IH]; [discriminate|].
  cbn [forallb hasKey getOwn snd]. intros H. apply andb_true_iff in H as [Hv Hr].
  destruct (jsstring_eqb k k'); cbn [orb]; auto.
Qed.

Lemma Forall_indexed (Q : jsval -> Prop) items i :
  Forall Q items -> Forall (fun kv => Q (snd kv)) (indexed (fun x => x) i items).
Proof.
  intros H. revert i. induction H as [|x r Hx _ IH]; intros i; constructor; auto.
Qed.

Lemma Forall_ownEntries (Q : jsval -> Prop) v :
  isObject v = true ->
  match v with
  | VArray items => Forall Q items
  | VObject props => Forall (fun kv => Q (snd kv)) props
  | _ => True
  end ->
  Forall (fun kv => Q (snd kv)) (ownEntries v).
Proof.
  destruct v; try discriminate; intros _ H; cbn [ownEntries]; trivial.
  now apply Forall_indexed.
Qed.

Lemma fold_mergeStep_good leaf tp es :
  goodProps (everyValue leaf) tp = true ->
  Forall (fun kv =>
            everyValue leaf (snd kv) = true
            /\ forall t, everyValue leaf t = true ->
                         everyValue leaf (deepMerge t (snd kv)) = true) es ->
  forall out,
    goodProps (everyValue leaf) out = true ->
    goodProps (everyValue leaf) (fold_left (mergeStep tp) es out) = true.
Proof.
  intros Htp H. induction H as [|[k sv] r [Hsv Hmerge] _ IH]; intros out Hout;
    trivial.
  cbn [fold_left]. apply IH. unfold mergeStep. cbn [fst snd] in *.
  apply assignProp_good; trivial. unfold mergedProp.
  destruct (isPlainObject sv && hasKey k tp) eqn:E; trivial.
  apply andb_true_iff in E as [_ E]. apply Hmerge.
  unfold goodProps in Htp. apply andb_true_iff in Htp as [_ Htp].
  now apply getOwn_good.
Qed.

Lemma spread_good q entries base :
  forallb (fun kv => q (snd kv)) entries = true ->
  goodProps q base = true -> goodProps q (spread entries base) = true.
Proof.
  unfold spread. revert base. induction entries as [|[k v] r IH]; intros base;
    trivial.
  cbn [forallb fold_left fst snd]. intros H Hb. apply andb_true_iff in H as [Hv Hr].
  apply IH; trivial. now apply setProp_good.
Qed.

Lemma everyValue_object leaf props :
  everyValue leaf (VObject props) = goodProps (everyValue leaf) props.
Proof. reflexivity. Qed.

Lemma deepMerge_everyValue leaf source :
  forall target,
    everyValue leaf target = true -> everyValue leaf source = true ->
    everyValue leaf (deepMerge target source) = true.
Proof.
  induction source as [| | | | |items IH|props IH] using jsval_induction;
    intros target Ht Hs;
    try (rewrite deepMerge_primitive_source by reflexivity; exact Hs).
  all: destruct (isObject target) eqn:Eo;
    [|now rewrite deepMerge_primitive_target].
  all: rewrite deepMerge_fold by trivial.
  all: pose proof (ownEntries_good leaf target Eo Ht) as Gt.
  all: rewrite everyValue_object.
  all: apply fold_mergeStep_good; trivial.
  - cbn [ownEntries everyValue] in *.
    assert (H : Forall (fun v => everyValue leaf v = true
                                 /\ forall t, everyValue leaf t = true ->
                                              everyValue leaf (deepMerge t v) = true) items).
    { rewrite forallb_forall in Hs. rewrite Forall_forall in *.
      intros v Hin. split; [now apply Hs|]. intros t Ht'. apply IH; auto. }
    exact (Forall_indexed _ items 0 H).
  - unfold goodProps in Gt. apply andb_true_iff in Gt as [_ Gt].
    now apply spread_good.
  - cbn [ownEntries everyValue] in *. apply andb_true_iff in Hs as [_ Hs].
    rewrite forallb_forall in Hs. rewrite Forall_forall in *.
    intros kv Hin. split; [now apply Hs|]. intros t Ht'. apply IH; auto.
  - unfold goodProps in Gt. apply andb_true_iff in Gt as [_ Gt].
    now apply spread_good.
Qed.
Lemma forallb_pointwise {A} (f g : A -> bool) l :
  Forall (fun x => f x = g x) l -> forallb f l = forallb g l.
Proof. induction 1 as [|x r E _ IH]; cbn; [trivial|now rewrite E, IH]. Qed.

Lemma forallb_both {A} (f g : A -> bool) l :
  forallb (fun x => f x && g x) l = forallb f l && forallb g l.
Proof.
  induction l as [|x r IH]; cbn; trivial. rewrite IH.
  destruct (f x), (g x), (forallb f r), (forallb g r); reflexivity.
Qed.

Lemma everyValue_json v :
  everyValue jsonLeaf v = isDocument v && jsonNumbers v.
Proof.
  induction v as [| | | | |items IH|props IH] using jsval_induction;
    cbn [everyValue isDocument jsonNumbers]; trivial.
  - rewrite (forallb_pointwise _ _ _ IH). apply forallb_both.
  - rewrite (forallb_pointwise _ (fun kv => isDocument (snd kv) && jsonNumbers (snd kv))
               _ IH).
    rewrite forallb_both. now rewrite andb_assoc.
Qed.

(** X2. Merging two JSON Documents gives a JSON Document: its keys are in
    the order of [Object.keys], it holds no [undefined] and no number that
    JSON cannot write, so its pretty-printed text parses back to it. *)
Theorem deepMerge_documents target source :
  isDocument target = true -> jsonNumbers target = true ->
  isDocument source = true -> jsonNumbers source = true ->
  let merged := deepMerge target source in
  isDocument merged = true
  /\ jsonNumbers merged = true
  /\ JSON_parse (prettyPrint merged) = Some merged.
Proof.
  intros Dt Nt Ds Ns merged.
  assert (H : everyValue jsonLeaf merged = true).
  { apply deepMerge_everyValue; rewrite everyValue_json.
    - now rewrite Dt, Nt.
    - now rewrite Ds, Ns. }
  rewrite everyValue_json in H. apply andb_true_iff in H as [Hd Hn].
  split; [exact Hd|]. split; [exact Hn|]. now apply prettyPrint_parses.
Qed.

Lemma deepMerge_documents_witness :
  let target := VObject [(js "days", VArray [VNull; VBool true])] in
  let source := VObject [(js "days", VObject [(js "1", VString (js "Petra"))])] in
  deepMerge target source
  = VObject [(js "days", VObject [(js "0", VNull); (js "1", VString (js "Petra"))])]
  /\ JSON_parse (prettyPrint (deepMerge target source)) = Some (deepMerge target source).
Proof.
  intros target source. split; [reflexivity|].
  exact (proj2 (proj2 (deepMerge_documents target source
                         eq_refl eq_refl eq_refl eq_refl))).
Defined.

(** *** Merging twice *)

Lemma updateProp_same k props :
  updateProp k (getOwn k props) props = props.
Proof.
  induction props as [|[k' v] r IH]; trivial. cbn [updateProp getOwn].
  destruct (jsstring_eqb k k') eqn:E.
  - apply jsstring_eqb_eq in E. now subst.
  - now rewrite IH.
Qed.

Lemma setProp_same k props :
  hasKey k props = true -> setProp k (getOwn k props) props = props.
Proof. intros H. unfold setProp. rewrite H. apply updateProp_same. Qed.

Lemma fold_left_fixed {A B} (step : A -> B -> A) es out :
  (forall e, In e es -> step out e = out) -> fold_left step es out = out.
Proof.
  induction es as [|e r IH]; trivial. intros H. cbn [fold_left].
  rewrite (H e) by now left. apply IH. intros e' Hin. apply H. now right.
Qed.

Lemma getOwn_In k v props :
  orderedKeys (map fst props) = true -> In (k, v) props ->
  hasKey k props = true /\ getOwn k props = v.
Proof.
  induction props as [|[k0 v0] r IH]; [intros _ []|].
  cbn [map fst]. rewrite orderedKeys_cons. intros H.
  apply andb_true_iff in H as [H Hr]. apply andb_true_iff in H as [Hdup _].
  apply negb_true_iff in Hdup. rewrite <- hasKey_keys in Hdup.
  cbn [hasKey getOwn]. intros [E|Hin].
  - injection E as -> ->. now rewrite jsstring_eqb_refl.
  - destruct (IH Hr Hin) as [Hk Hg].
    destruct (jsstring_eqb k k0) eqn:E.
    + apply jsstring_eqb_eq in E. subst k0. congruence.
    + now split.
Qed.

Lemma values_wellKeyed v :
  isObject v = true -> wellKeyed v = true ->
  forallb (fun kv => wellKeyed (snd kv)) (ownEntries v) = true.
Proof.
  intros Ho H. pose proof (ownEntries_good _ v Ho H) as G.
  unfold goodProps in G. now apply andb_true_iff in G as [_ G].
Qed.

Lemma In_wellKeyed (k : jsstring) v props :
  forallb (fun kv => wellKeyed (snd kv)) props = true -> In (k, v) props ->
  wellKeyed v = true.
Proof.
  intros H Hin. rewrite forallb_forall in H. exact (H _ Hin).
Qed.

Lemma deepMerge_twice source :
  forall target,
    wellKeyed target = true -> wellKeyed source = true ->
    isObject target = true \/ isPlainObject source = true ->
    deepMerge (deepMerge target source) source = deepMerge target source.
Proof.
  induction source as [| | | | |items IH|props IH] using jsval_induction;
    intros target Kt Ks Hshape;
    try (now rewrite !deepMerge_primitive_source).
  - (* an array *)
    destruct Hshape as [Ht|]; [|discriminate].
    pose proof (deepMerge_everyValue _ _ _ Kt Ks) as Ko.
    rewrite (deepMerge_fold target (VArray items) Ht eq_refl) in Ko |- *.
    set (tp := ownEntries target) in *.
    set (es := ownEntries (VArray items)) in *.
    assert (Htp : spread tp [] = tp) by now apply spread_self, ownEntries_ordered.
    rewrite Htp in Ko |- *.
    set (o1 := fold_left (mergeStep tp) es tp) in *.
    rewrite (deepMerge_fold (VObject o1) (VArray items) eq_refl eq_refl).
    cbn [ownEntries]. fold es.
    assert (Ho1 : orderedKeys (map fst o1) = true)
      by (apply (ownEntries_ordered (VObject o1)), Ko).
    rewrite (spread_self _ Ho1). f_equal.
    pose proof (ownEntries_ordered _ Ks) as Hes. fold es in Hes.
    pose proof (values_wellKeyed (VArray items) eq_refl Ks) as Ves. fold es in Ves.
    pose proof (values_wellKeyed _ Ht Kt) as Vtp. fold tp in Vtp.
    assert (IHes : Forall (fun kv => forall t, wellKeyed t = true ->
                     isPlainObject (snd kv) = true ->
                     deepMerge (deepMerge t (snd kv)) (snd kv)
                     = deepMerge t (snd kv)) es).
    { apply (Forall_indexed
               (fun v => forall t, wellKeyed t = true -> isPlainObject v = true ->
                         deepMerge (deepMerge t v) v = deepMerge t v) items 0).
      rewrite Forall_forall in *.
      intros v Hin t Kt' Hp. apply IH; auto.
      unfold wellKeyed in Ks. cbn [everyValue] in Ks.
      rewrite forallb_forall in Ks. now apply Ks. }
    apply fold_left_fixed. intros [k sv] Hin.
    destruct (getOwn_In k sv es Hes Hin) as [Hk Hg].
    destruct (fold_mergeStep_lookup tp k es Hes tp) as [L1 L2].
    fold o1 in L1, L2. rewrite Hk in L1, L2. rewrite Hg in L2.
    cbn [andb] in L1, L2.
    rewrite Forall_forall in IHes. specialize (IHes _ Hin). cbn [snd] in IHes.
    unfold mergeStep, assignProp. cbn [fst snd].
    destruct (negb (jsstring_eqb k protoKey) || hasKey k tp) eqn:Ea.
    + rewrite orb_true_r in L1. rewrite L1. rewrite andb_false_r.
      replace (mergedProp o1 k sv) with (getOwn k o1); [now apply setProp_same|].
      transitivity (mergedProp tp k sv); [exact L2|].
      unfold mergedProp at 2. rewrite L1, L2, andb_true_r. unfold mergedProp.
      destruct (isPlainObject sv) eqn:Ep; cbn [andb]; trivial.
      destruct (hasKey k tp) eqn:Et.
      * symmetry. apply IHes; trivial.
        apply (getOwn_good wellKeyed k tp Vtp Et).
      * symmetry. rewrite <- (deepMerge_primitive_target VNull sv eq_refl) at 1 3.
        now apply IHes.
    + apply orb_false_iff in Ea as [Ep Et]. apply negb_false_iff in Ep.
      rewrite Et in L1. cbn [orb] in L1. now rewrite Ep, L1.
  - (* a plain object *)
    assert (Ves : forallb (fun kv => wellKeyed (snd kv)) props = true)
      by exact (values_wellKeyed (VObject props) eq_refl Ks).
    assert (Hes : orderedKeys (map fst props) = true)
      by exact (ownEntries_ordered (VObject props) Ks).
    assert (IHes : forall k sv, In (k, sv) props -> forall t,
               wellKeyed t = true -> isPlainObject sv = true ->
               deepMerge (deepMerge t sv) sv = deepMerge t sv).
    { intros k sv Hin t Kt' Hp. rewrite Forall_forall in IH.
      apply (IH _ Hin); auto. exact (In_wellKeyed k sv props Ves Hin). }
    destruct (isObject target) eqn:Ht.
    + pose proof (deepMerge_everyValue _ _ _ Kt Ks) as Ko.
      rewrite (deepMerge_fold target (VObject props) Ht eq_refl) in Ko |- *.
      set (tp := ownEntries target) in *. cbn [ownEntries] in *.
      assert (Htp : spread tp [] = tp) by now apply spread_self, ownEntries_ordered.
      rewrite Htp in Ko |- *.
      set (o1 := fold_left (mergeStep tp) props tp) in *.
      rewrite (deepMerge_fold (VObject o1) (VObject props) eq_refl eq_refl).
      cbn [ownEntries].
      assert (Ho1 : orderedKeys (map fst o1) = true)
        by (apply (ownEntries_ordered (VObject o1)), Ko).
      rewrite (spread_self _ Ho1). f_equal.
      pose proof (values_wellKeyed _ Ht Kt) as Vtp. fold tp in Vtp.
      apply fold_left_fixed. intros [k sv] Hin.
      destruct (getOwn_In k sv props Hes Hin) as [Hk Hg].
      destruct (fold_mergeStep_lookup tp k props Hes tp) as [L1 L2].
      fold o1 in L1, L2. rewrite Hk in L1, L2. rewrite Hg in L2.
    cbn [andb] in L1, L2.
      specialize (IHes _ _ Hin).
      unfold mergeStep, assignProp. cbn [fst snd].
      destruct (negb (jsstring_eqb k protoKey) || hasKey k tp) eqn:Ea.
      * rewrite orb_true_r in L1. rewrite L1. rewrite andb_false_r.
        replace (mergedProp o1 k sv) with (getOwn k o1); [now apply setProp_same|].
        transitivity (mergedProp tp k sv); [exact L2|].
        unfold mergedProp at 2. rewrite L1, L2, andb_true_r. unfold mergedProp.
        destruct (isPlainObject sv) eqn:Ep; cbn [andb]; trivial.
        destruct (hasKey k tp) eqn:Et.
        -- symmetry. apply IHes; trivial.
           apply (getOwn_good wellKeyed k tp Vtp Et).
        -- symmetry. rewrite <- (deepMerge_primitive_target VNull sv eq_refl) at 1 3.
           now apply IHes.
      * apply orb_false_iff in Ea as [Ep Et]. apply negb_false_iff in Ep.
        rewrite Et in L1. cbn [orb] in L1. now rewrite Ep, L1.
    + rewrite (deepMerge_primitive_target _ _ Ht).
      rewrite (deepMerge_fold (VObject props) (VObject props) eq_refl eq_refl).
      cbn [ownEntries].
      rewrite (spread_self _ Hes). f_equal.
      apply fold_left_fixed. intros [k sv] Hin.
      destruct (getOwn_In k sv props Hes Hin) as [Hk Hg].
      unfold mergeStep, assignProp. cbn [fst snd]. rewrite Hk, andb_false_r.
      replace (mergedProp props k sv) with (getOwn k props);
        [now apply setProp_same|].
      unfold mergedProp. rewrite Hk, Hg, andb_true_r.
      destruct (isPlainObject sv) eqn:Ep; trivial.
      symmetry. rewrite <- (deepMerge_primitive_target VNull sv eq_refl) at 1 3.
      now apply (IHes k).
Qed.
(** X3. Merging the same source a second time changes nothing, when the
    target is an object or an array; and a plain object merged into itself
    is itself.  (A primitive target is replaced by the source, and an array
    merged into an array is a plain object: [deepMerge(null, [null])] is
    [[null]], merged again it is [{"0": null}].) *)
Theorem deepMerge_idempotent target source :
  wellKeyed target = true -> wellKeyed source = true ->
  isObject target = true ->
  deepMerge (deepMerge target source) source = deepMerge target source
  /\ (isPlainObject source = true -> deepMerge source source = source)
  /\ deepMerge (deepMerge VNull (VArray [VNull])) (VArray [VNull])
     <> deepMerge VNull (VArray [VNull]).
Proof.
  intros Kt Ks Ht. split; [|split].
  - apply deepMerge_twice; auto.
  - intros Hp.
    rewrite <- (deepMerge_primitive_target VNull source eq_refl) at 1 3.
    apply deepMerge_twice; auto.
  - discriminate.
Qed.

Lemma deepMerge_idempotent_witness :
  let target := VObject [(js "included", VArray [VString (js "Guide")])] in
  let source := VObject [(js "included", VObject [(js "0", VString (js "Lunch"))]);
                         (js "excluded", VArray [])] in
  deepMerge target source
  = VObject [(js "included", VObject [(js "0", VString (js "Lunch"))]);
             (js "excluded", VArray [])]
  /\ deepMerge (deepMerge target source) source = deepMerge target source.
Proof.
  intros target source. split; [reflexivity|].
  exact (proj1 (deepMerge_idempotent target source eq_refl eq_refl eq_refl)).
Defined.

Lemma hasKey_In (k : jsstring) v props : In (k, v) props -> hasKey k props = true.
Proof.
  induction props as [|[k0 v0] r IH]; [intros []|]. cbn [hasKey].
  intros [E|Hin].
  - injection E as -> ->. now rewrite jsstring_eqb_refl.
  - rewrite (IH Hin). apply orb_true_r.
Qed.

Lemma fold_left_agree {A B} (f g : A -> B -> A) es :
  (forall e out, In e es -> f out e = g out e) ->
  forall out, fold_left f es out = fold_left g es out.
Proof.
  induction es as [|e r IH]; trivial. intros H out. cbn [fold_left].
  rewrite (H e out) by now left. apply IH. intros e' out' Hin. apply H. now right.
Qed.

(** X4. The empty object is neutral for [deepMerge] up to the shape of the
    result: merging [{}] into an object or array, and merging an object or
    array without an own [__proto__] key into [{}], both give the plain
    object of its own properties; an array comes back as an object keyed by
    index. *)
Theorem deepMerge_empty v :
  isObject v = true -> wellKeyed v = true ->
  deepMerge v (VObject []) = VObject (ownEntries v)
  /\ (hasKey protoKey (ownEntries v) = false ->
      deepMerge (VObject []) v = VObject (ownEntries v)).
Proof.
  intros Ho Kv. pose proof (ownEntries_ordered v Kv) as Hord. split.
  - rewrite (deepMerge_fold v (VObject []) Ho eq_refl). cbn [ownEntries fold_left].
    now rewrite spread_self.
  - intros Hproto.
    rewrite (deepMerge_fold (VObject []) v eq_refl Ho). cbn [ownEntries spread fold_left].
    rewrite <- (spread_self _ Hord) at 2. unfold spread.
    apply f_equal, fold_left_agree. intros [k sv] out Hin.
    unfold mergeStep, mergedProp, assignProp. cbn [fst snd hasKey].
    rewrite andb_false_r.
    destruct (jsstring_eqb k protoKey) eqn:E; trivial.
    apply jsstring_eqb_eq in E. subst k.
    rewrite (hasKey_In _ _ _ Hin) in Hproto. discriminate.
Qed.

Lemma deepMerge_empty_witness :
  let days := VArray [VString (js "Cairo"); VString (js "Luxor")] in
  deepMerge days (VObject [])
  = VObject [(js "0", VString (js "Cairo")); (js "1", VString (js "Luxor"))]
  /\ deepMerge (VObject []) days
     = VObject [(js "0", VString (js "Cairo")); (js "1", VString (js "Luxor"))].
Proof.
  intros days.
  destruct (deepMerge_empty days eq_refl eq_refl) as [H1 H2].
  split; [exact H1|exact (H2 eq_refl)].
Defined.
(** ** [callOpenRouter]: the cleaned answer *)

Lemma fence_run u : startsWith fence u = Nat.leb 3 (runLength isBacktick u).
Proof.
  unfold fence, isBacktick.
  destruct u as [|a [|b [|c u']]]; cbn [startsWith runLength];
    rewrite ?(N.eqb_sym cuBacktick);
    repeat match goal with
      | |- context [N.eqb ?x cuBacktick] => destruct (N.eqb x cuBacktick)
      end; reflexivity.
Qed.

Lemma fence_head a r :
  startsWith fence (a :: r) = true ->
  exists r3, a :: r = cuBacktick :: cuBacktick :: cuBacktick :: r3.
Proof.
  unfold fence. destruct r as [|b [|c r3]]; cbn [startsWith];
    rewrite ?andb_false_r; try discriminate.
  intros H. apply andb_true_iff in H as [Ha H]. apply andb_true_iff in H as [Hb H].
  apply andb_true_iff in H as [Hc _].
  apply N.eqb_eq in Ha, Hb, Hc. subst. now exists r3.
Qed.

Lemma strip_fences_bounded n :
  forall s, List.length s <= n ->
    runLength isBacktick (replaceAll reFence [] 0 s)
    = Nat.modulo (runLength isBacktick s) 3
    /\ hasFence (replaceAll reFence [] 0 s) = false.
Proof.
  induction n as [|n IH]; intros s L.
  - destruct s; [now split|cbn in L; lia].
  - destruct s as [|a r]; [now split|]. cbn [List.length] in L.
    destruct (startsWith fence (a :: r)) eqn:E.
    + destruct (fence_head a r E) as (r3 & Er). rewrite Er.
      injection Er as -> ->.
      change (replaceAll reFence [] 0 (cuBacktick :: cuBacktick :: cuBacktick :: r3))
        with (replaceAll reFence [] 0 r3).
      replace (runLength isBacktick (cuBacktick :: cuBacktick :: cuBacktick :: r3))
        with (runLength isBacktick r3 + 1 * 3) by (cbn; lia).
      rewrite Nat.Div0.mod_add. apply IH. cbn [List.length] in L. lia.
    + assert (Hr : replaceAll reFence [] 0 (a :: r)
                   = a :: replaceAll reFence [] 0 r).
      { apply replaceAll_cons_none. unfold reFence. now rewrite E. }
      rewrite Hr. destruct (IH r ltac:(lia)) as [IH1 IH2].
      rewrite fence_run in E. cbn [runLength] in E |- *.
      cbn [hasFence]. rewrite IH2, orb_false_r, fence_run. cbn [runLength].
      destruct (isBacktick a).
      * rewrite IH1. apply Nat.leb_gt in E.
        rewrite !Nat.mod_small by lia. split; [reflexivity|].
        apply Nat.leb_gt. lia.
      * now split.
Qed.

(** No fence is left once [/```/g] has been replaced. *)
Lemma strip_fences_clean s : hasFence (replaceAll reFence [] 0 s) = false.
Proof. exact (proj2 (strip_fences_bounded (List.length s) s (le_n _))). Qed.

Lemma startsWith_app p a b :
  startsWith p a = true -> startsWith p (a ++ b) = true.
Proof.
  revert a. induction p as [|x p IH]; intros a; trivial.
  destruct a as [|c a]; [discriminate|]. cbn [startsWith app].
  intros H. apply andb_true_iff in H as [-> H]. now apply IH.
Qed.

Lemma hasFence_app_l a b : hasFence (a ++ b) = false -> hasFence a = false.
Proof.
  induction a as [|c a IH]; trivial. cbn [app hasFence]. intros H.
  apply orb_false_iff in H as [H1 H2]. rewrite (IH H2), orb_false_r.
  destruct (startsWith fence (c :: a)) eqn:E; trivial.
  apply (startsWith_app _ _ b) in E. cbn [app] in E. congruence.
Qed.

Lemma hasFence_app_r a b : hasFence (a ++ b) = false -> hasFence b = false.
Proof.
  induction a as [|c a IH]; trivial. cbn [app hasFence]. intros H.
  apply orb_false_iff in H as [_ H]. now apply IH.
Qed.

Lemma trimStart_suffix s : exists w, s = w ++ trimStart s.
Proof.
  induction s as [|c r (w & IH)]; [now exists []|]. cbn [trimStart].
  destruct (isWhiteSpace c).
  - exists (c :: w). cbn. now rewrite <- IH.
  - now exists [].
Qed.

Lemma trimEnd_prefix s : exists w, s = trimEnd s ++ w.
Proof.
  unfold trimEnd. destruct (trimStart_suffix (rev s)) as (w & H).
  exists (rev w). rewrite <- rev_app_distr, <- H. now rewrite rev_involutive.
Qed.

Lemma hasFence_trim s : hasFence s = false -> hasFence (trim s) = false.
Proof.
  intros H. unfold trim.
  destruct (trimStart_suffix s) as (w & Hs). rewrite Hs in H.
  apply hasFence_app_r in H.
  destruct (trimEnd_prefix (trimStart s)) as (w' & Hs'). rewrite Hs' in H.
  now apply hasFence_app_l in H.
Qed.

Lemma replaceAll_fenceless m repl :
  fenceOnly m -> forall s, hasFence s = false -> replaceAll m repl 0 s = s.
Proof.
  intros Hm. induction s as [|c r IH]; trivial. cbn [hasFence]. intros H.
  apply orb_false_iff in H as [H1 H2].
  rewrite replaceAll_cons_none by now apply Hm. now rewrite IH.
Qed.

Lemma trimStart_idempotent s : trimStart (trimStart s) = trimStart s.
Proof.
  induction s as [|c r IH]; trivial. cbn [trimStart].
  destruct (isWhiteSpace c) eqn:E; trivial. cbn [trimStart]. now rewrite E.
Qed.

Lemma trimStart_length s : List.length (trimStart s) <= List.length s.
Proof.
  induction s as [|c r IH]; trivial. cbn [trimStart].
  destruct (isWhiteSpace c); cbn [List.length]; lia.
Qed.

Lemma trimStart_prefix_fixed z :
  trimStart z = z -> trimStart (trimEnd z) = trimEnd z.
Proof.
  intros Hz. destruct (trimEnd_prefix z) as (w & Hw).
  destruct (trimEnd z) as [|c p]; trivial.
  rewrite Hw in Hz. cbn [app trimStart] in Hz |- *.
  destruct (isWhiteSpace c); trivial.
  pose proof (trimStart_length (p ++ w)) as L. rewrite Hz in L.
  cbn [List.length] in L. lia.
Qed.

Lemma trim_idempotent s : trim (trim s) = trim s.
Proof.
  unfold trim.
  rewrite (trimStart_prefix_fixed _ (trimStart_idempotent s)).
  unfold trimEnd. now rewrite rev_involutive, trimStart_idempotent.
Qed.

(** X5. The cleaned answer holds no fence, and cleaning it again changes
    nothing. *)
Theorem normalize_idempotent content :
  hasFence (normalize content) = false
  /\ normalize (normalize content) = normalize content.
Proof.
  assert (H : hasFence (normalize content) = false).
  { unfold normalize. apply hasFence_trim, strip_fences_clean. }
  split; [exact H|].
  unfold normalize at 1.
  rewrite (replaceAll_fenceless _ _ reFenceJson_fenceOnly _ H).
  rewrite (replaceAll_fenceless _ _ reFenceLang_fenceOnly _ H).
  rewrite (replaceAll_fenceless _ _ reFence_fenceOnly _ H).
  unfold normalize. apply trim_idempotent.
Qed.
(** ** [slugify]: what a slug is made of *)

Lemma replaceAll_words (p : codeUnit -> bool) m repl :
  (forall c, p c = true -> isWordChar c = false) ->
  filter isWordChar repl = [] ->
  (forall u n, m u = Some n -> n <= runLength p u) ->
  forall s k, k <= runLength p s ->
    filter isWordChar (replaceAll m repl k s) = filter isWordChar s.
Proof.
  intros Hp Hrepl Hm. induction s as [|c r IH]; intros k Hk; trivial.
  cbn [replaceAll]. destruct k as [|k].
  - destruct (m (c :: r)) as [[|n]|] eqn:E.
    + cbn [filter]. rewrite IH by lia. reflexivity.
    + apply Hm in E. cbn [runLength] in E.
      destruct (p c) eqn:Ec; [|lia].
      rewrite filter_app, Hrepl, IH by lia. cbn [filter app].
      now rewrite (Hp c Ec).
    + cbn [filter]. rewrite IH by lia. reflexivity.
  - cbn [runLength] in Hk. destruct (p c) eqn:Ec; [|lia].
    rewrite IH by lia. cbn [filter]. now rewrite (Hp c Ec).
Qed.

Lemma matchRun_bound p u n : matchRun p u = Some n -> n <= runLength p u.
Proof.
  unfold matchRun. destruct (runLength p u); [discriminate|].
  intros [= <-]. lia.
Qed.

Lemma reHyphens2_bound u n : reHyphens2 u = Some n -> n <= runLength isHyphen u.
Proof.
  rewrite reHyphens2_eq. destruct (runLength isHyphen u) as [|[|k]];
    try discriminate. intros [= <-]. lia.
Qed.

Lemma space_not_word c : isWhiteSpace c = true -> isWordChar c = false.
Proof. intros H. cu_cases. Qed.

Lemma junk_not_word c : isSlugJunk c = true -> isWordChar c = false.
Proof.
  unfold isSlugJunk. intros H. apply negb_true_iff in H.
  now apply orb_false_iff in H as [H _].
Qed.

Lemma hyphen_not_word c : isHyphen c = true -> isWordChar c = false.
Proof. intros H. cu_cases. Qed.

Lemma skip_run_words (p : codeUnit -> bool) s :
  (forall c, p c = true -> isWordChar c = false) ->
  filter isWordChar (skipn (runLength p s) s) = filter isWordChar s.
Proof.
  intros Hp. induction s as [|c r IH]; trivial. cbn [runLength].
  destruct (p c) eqn:E; trivial. cbn [skipn filter]. now rewrite (Hp c E).
Qed.

Lemma hyphens_no_word t :
  forallb isHyphen t = true -> filter isWordChar t = [].
Proof.
  induction t as [|c r IH]; trivial. cbn [forallb filter]. intros H.
  apply andb_true_iff in H as [Hc Hr]. now rewrite (hyphen_not_word c Hc), IH.
Qed.

Lemma filter_nil_none {A} (p : A -> bool) l :
  filter p l = [] <-> forallb (fun x => negb (p x)) l = true.
Proof.
  induction l as [|x r IH]; cbn [filter forallb]; [tauto|].
  destruct (p x); cbn [negb andb]; [split; discriminate|exact IH].
Qed.

Section SlugContent.

Variable toLowerCase : jsstring -> jsstring.

Lemma slugify_words text :
  filter isWordChar (slugify toLowerCase text)
  = filter isWordChar (toLowerCase text).
Proof.
  unfold slugify.
  destruct (replaceFirst_hyphensEnd
              (replaceAtStart reHyphens []
                 (replaceAll reHyphens2 [cuHyphen] 0
                    (replaceAll reNonWord [] 0
                       (replaceAll reSpaces [cuHyphen] 0 (toLowerCase text))))))
    as (t & Hs & Ht & _).
  apply (f_equal (filter isWordChar)) in Hs.
  rewrite filter_app, (hyphens_no_word t Ht), app_nil_r in Hs.
  rewrite <- Hs, replaceAtStart_hyphens.
  rewrite (skip_run_words isHyphen _ hyphen_not_word).
  rewrite (replaceAll_words isHyphen reHyphens2 [cuHyphen] hyphen_not_word
             eq_refl reHyphens2_bound _ 0 (Nat.le_0_l _)).
  unfold reNonWord, reSpaces.
  rewrite (replaceAll_words isSlugJunk _ [] junk_not_word eq_refl
             (matchRun_bound isSlugJunk) _ 0 (Nat.le_0_l _)).
  apply (replaceAll_words isWhiteSpace _ [cuHyphen] space_not_word eq_refl
           (matchRun_bound isWhiteSpace) _ 0 (Nat.le_0_l _)).
Qed.

Lemma slugify_parts text :
  forallb isSlugPart (slugify toLowerCase text) = true
  /\ startsWithHyphen (slugify toLowerCase text) = false.
Proof.
  unfold slugify.
  set (s2 := replaceAll reNonWord [] 0
               (replaceAll reSpaces [cuHyphen] 0 (toLowerCase text))).
  set (s3 := replaceAll reHyphens2 [cuHyphen] 0 s2).
  set (s4 := replaceAtStart reHyphens [] s3).
  assert (H2 : forallb isSlugPart s2 = true).
  { unfold s2, reNonWord.
    rewrite (replaceAll_matchRun_filter isSlugJunk _ 0) by now left.
    cbn [skipn].
    rewrite (forallb_pointwise isSlugPart (fun c => negb (isSlugJunk c)));
      [apply forallb_filter_self|].
    apply Forall_forall. intros c _. unfold isSlugJunk, isSlugPart.
    now rewrite negb_involutive. }
  assert (H3 : forallb isSlugPart s3 = true)
    by now apply replaceAll_forallb.
  assert (H4 : forallb isSlugPart s4 = true /\ startsWithHyphen s4 = false).
  { unfold s4. rewrite replaceAtStart_hyphens. split.
    - now apply forallb_skipn.
    - apply skip_run_no_hyphen. }
  destruct H4 as [H4 S4].
  destruct (replaceFirst_hyphensEnd s4) as (t & Hs & _).
  rewrite Hs in H4, S4. split.
  - now apply prefix_keeps in H4.
  - now apply startsWithHyphen_app_l in S4.
Qed.

Lemma slugify_empty text :
  slugify toLowerCase text = []
  <-> forallb (fun c => negb (isWordChar c)) (toLowerCase text) = true.
Proof.
  pose proof (slugify_words text) as W.
  destruct (slugify_parts text) as [P S].
  rewrite <- filter_nil_none, <- W.
  split; [now intros ->|].
  intros H. destruct (slugify toLowerCase text) as [|c r]; trivial.
  cbn [forallb filter startsWithHyphen] in *.
  apply andb_true_iff in P as [Pc _]. unfold isSlugPart in Pc.
  rewrite S, orb_false_r in Pc. now rewrite Pc in H.
Qed.

(** X6. A slug keeps the word characters ([a-z], [A-Z], [0-9], [_]) of
    the lowercased text, all of them and in their order, and holds nothing
    else but hyphens, none of them first.  So the slug is empty exactly
    when the lowercased text has no word character. *)
Theorem slugify_keeps_words text :
  filter isWordChar (slugify toLowerCase text)
  = filter isWordChar (toLowerCase text)
  /\ forallb isSlugPart (slugify toLowerCase text) = true
  /\ startsWithHyphen (slugify toLowerCase text) = false
  /\ (slugify toLowerCase text = []
      <-> forallb (fun c => negb (isWordChar c)) (toLowerCase text) = true).
Proof.
  split; [apply slugify_words|]. split; [apply slugify_parts|].
  split; [apply slugify_parts|apply slugify_empty].
Qed.

End SlugContent.
(** ** [JSON.parse] gives Documents *)

Lemma forallb_run (p : codeUnit -> bool) s :
  forallb p (firstn (runLength p s) s) = true.
Proof.
  induction s as [|c r IH]; trivial. cbn [runLength].
  destruct (p c) eqn:E; trivial. cbn [firstn forallb]. now rewrite E.
Qed.

Lemma takeDigits_digits s : forallb isDigit (fst (takeDigits s)) = true.
Proof. apply forallb_run. Qed.

Lemma parseInt_all_digits s i r :
  parseInt s = Some (i, r) -> forallb isDigit i = true.
Proof.
  unfold parseInt. destruct s as [|c s']; [discriminate|].
  destruct (isZeroDigit c) eqn:Ez.
  - intros [= <- _]. cbn. rewrite andb_true_r. unfold isZeroDigit, cuZero in Ez.
    cu_cases.
  - destruct (isDigit c); [|discriminate].
    pose proof (takeDigits_digits (c :: s')) as D.
    destruct (takeDigits (c :: s')) as [ds rest]. now intros [= <- _].
Qed.

Lemma parseFraction_all_digits s f r :
  parseFraction s = Some (f, r) -> forallb isDigit f = true.
Proof.
  unfold parseFraction. destruct s as [|c s']; [now intros [= <- _]|].
  destruct (N.eqb c cuDot); [|now intros [= <- _]].
  pose proof (takeDigits_digits s') as D.
  destruct (takeDigits s') as [[|d ds] r']; [discriminate|].
  now intros [= <- _].
Qed.

Lemma dropWhile_suffix (p : codeUnit -> bool) s : exists w, s = w ++ dropWhile p s.
Proof.
  unfold dropWhile. exists (firstn (runLength p s) s).
  now rewrite firstn_skipn.
Qed.

Lemma dropWhileEnd_prefix (p : codeUnit -> bool) s :
  exists w, s = dropWhileEnd p s ++ w.
Proof.
  unfold dropWhileEnd. destruct (dropWhile_suffix p (rev s)) as (w & H).
  exists (rev w). rewrite <- rev_app_distr, <- H. now rewrite rev_involutive.
Qed.

Lemma makeNumber_wf neg int frac e :
  forallb isDigit int = true -> forallb isDigit frac = true ->
  wfNumber (makeNumber neg int frac e) = true.
Proof.
  intros Hi Hf. unfold makeNumber.
  set (all := int ++ frac).
  assert (Hall : forallb isDigit all = true)
    by (unfold all; now rewrite forallb_app, Hi, Hf).
  change (skipn (runLength isZeroDigit all) all) with (dropWhile isZeroDigit all).
  set (body := dropWhile isZeroDigit all).
  assert (Hbody : forallb isDigit body = true)
    by (unfold body, dropWhile; now apply forallb_skipn).
  assert (Hhead : headIs isZeroDigit body = false) by apply dropWhile_head.
  destruct (dropWhileEnd_prefix isZeroDigit body) as (w & Hw).
  assert (Hlast : headIs isZeroDigit (rev (dropWhileEnd isZeroDigit body)) = false).
  { unfold dropWhileEnd. rewrite rev_involutive. apply dropWhile_head. }
  destruct (dropWhileEnd isZeroDigit body) as [|d ds]; trivial.
  cbn [wfNumber]. rewrite Hlast. rewrite Hw in Hbody, Hhead.
  apply prefix_keeps in Hbody. rewrite Hbody. cbn [app headIs] in Hhead |- *.
  now rewrite Hhead.
Qed.

Lemma parseNumber_wf s x r : parseNumber s = Some (x, r) -> wfNumber x = true.
Proof.
  assert (H : forall neg u, parseUnsigned neg u = Some (x, r) -> wfNumber x = true).
  { intros neg u. unfold parseUnsigned.
    destruct (parseInt u) as [[i r1]|] eqn:Ei; [|discriminate].
    destruct (parseFraction r1) as [[f r2]|] eqn:Ef; [|discriminate].
    destruct (parseExponent r2) as [[e r3]|]; [|discriminate].
    intros [= <- _]. apply makeNumber_wf.
    - exact (parseInt_all_digits _ _ _ Ei).
    - exact (parseFraction_all_digits _ _ _ Ef). }
  unfold parseNumber. destruct s as [|c s']; [discriminate|].
  destruct (N.eqb c cuHyphen); apply H.
Qed.

Lemma parse_documents fuel :
  (forall s v r, parseValue fuel s = Ok v r -> isDocument v = true)
  /\ (forall s vs r, parseElements fuel s = Ok vs r ->
                     forallb isDocument vs = true)
  /\ (forall acc s v r,
        goodProps isDocument acc = true ->
        parseMembers fuel acc s = Ok v r -> isDocument v = true).
Proof.
  induction fuel as [|fuel (IHv & IHe & IHm)].
  - repeat split; discriminate.
  - repeat split.
    + intros s v r0. rewrite parseValue_S.
      destruct (skipWs s) as [|c r]; [discriminate|].
      destruct (N.eqb c cuLBrace).
      { destruct (skipWs r) as [|d r']; [discriminate|].
        destruct (N.eqb d cuRBrace); [now intros [= <- _]|].
        now apply IHm. }
      destruct (N.eqb c cuLBracket).
      { destruct (skipWs r) as [|d r']; [discriminate|].
        destruct (N.eqb d cuRBracket); [now intros [= <- _]|].
        destruct (parseElements fuel r) as [items rest| |] eqn:E; try discriminate.
        intros [= <- _]. cbn [isDocument]. exact (IHe _ _ _ E). }
      destruct (N.eqb c cuQuote).
      { destruct (parseChars r) as [[str rest]|]; [|discriminate].
        now intros [= <- _]. }
      destruct (startsWith (js "true") (c :: r)); [now intros [= <- _]|].
      destruct (startsWith (js "false") (c :: r)); [now intros [= <- _]|].
      destruct (startsWith (js "null") (c :: r)); [now intros [= <- _]|].
      destruct (parseNumber (c :: r)) as [[x rest]|] eqn:E; [|discriminate].
      intros [= <- _]. cbn [isDocument]. exact (parseNumber_wf _ _ _ E).
    + intros s vs r0. rewrite parseElements_S.
      destruct (parseValue fuel s) as [v r| |] eqn:Ev; try discriminate.
      destruct (skipWs r) as [|c r']; [discriminate|].
      destruct (N.eqb c cuComma).
      { destruct (parseElements fuel r') as [items rest| |] eqn:E; try discriminate.
        intros [= <- _]. cbn [forallb].
        now rewrite (IHv _ _ _ Ev), (IHe _ _ _ E). }
      destruct (N.eqb c cuRBracket); [|discriminate].
      intros [= <- _]. cbn [forallb]. now rewrite (IHv _ _ _ Ev).
    + intros acc s v r0 Hacc. rewrite parseMembers_S.
      destruct (skipWs s) as [|q r]; [discriminate|].
      destruct (N.eqb q cuQuote); [|discriminate].
      destruct (parseChars r) as [[key r1]|]; [|discriminate].
      destruct (skipWs r1) as [|c r2]; [discriminate|].
      destruct (N.eqb c cuColon); [|discriminate].
      destruct (parseValue fuel r2) as [v' r3| |] eqn:Ev; try discriminate.
      destruct (skipWs r3) as [|d r4]; [discriminate|].
      pose proof (setProp_good isDocument key v' acc (IHv _ _ _ Ev) Hacc) as G.
      destruct (N.eqb d cuComma); [now apply IHm|].
      destruct (N.eqb d cuRBrace); [|discriminate].
      now intros [= <- _].
Qed.

(** What [JSON.parse] returns is a Document. *)
Lemma JSON_parse_document text v : JSON_parse text = Some v -> isDocument v = true.
Proof.
  unfold JSON_parse.
  destruct (parseValue _ _) as [v' [|c r]| |] eqn:E; try discriminate.
  intros [= <-]. exact (proj1 (parse_documents _) _ _ _ E).
Qed.

Lemma isDocument_wellKeyed v : isDocument v = true -> wellKeyed v = true.
Proof.
  unfold wellKeyed.
  induction v as [| | | | |items IH|props IH] using jsval_induction;
    cbn [isDocument everyValue]; trivial.
  - rewrite !forallb_forall. rewrite Forall_forall in IH. auto.
  - intros H. apply andb_true_iff in H as [-> H]. cbn [andb].
    rewrite forallb_forall in *. rewrite Forall_forall in IH. auto.
Qed.

Lemma callOpenRouter_try_document net v :
  callOpenRouter_try net = Returned v -> isDocument v = true.
Proof.
  unfold callOpenRouter_try. destruct net as [|response]; [discriminate|].
  destruct (negb (ok response)); [discriminate|].
  destruct (JSON_parse (body response)) as [data|]; [|discriminate].
  destruct (choiceContent data) as [content|e]; [|discriminate].
  cbn [andThen]. destruct content; try discriminate.
  destruct (JSON_parse (normalize s)) as [parsed|] eqn:E; [|discriminate].
  intros [= <-]. exact (JSON_parse_document _ _ E).
Qed.
(** ** [TourEditor] *)

Lemma orderedKeys_distinct k r :
  orderedKeys (k :: r) = true -> existsb (jsstring_eqb k) r = false.
Proof.
  rewrite orderedKeys_cons. intros H. apply andb_true_iff in H as [H _].
  apply andb_true_iff in H as [H _]. now apply negb_true_iff.
Qed.

Lemma orderedKeys_tail k r : orderedKeys (k :: r) = true -> orderedKeys r = true.
Proof.
  rewrite orderedKeys_cons. intros H. now apply andb_true_iff in H as [_ H].
Qed.

(** What a key holds after [{ ...base, ...entries }]. *)
Lemma spread_lookup k entries :
  orderedKeys (map fst entries) = true ->
  forall base,
    hasKey k (spread entries base) = hasKey k entries || hasKey k base
    /\ getOwn k (spread entries base)
       = if hasKey k entries then getOwn k entries else getOwn k base.
Proof.
  unfold spread. induction entries as [|[k0 v0] r IH]; intros Hord base.
  - now split.
  - cbn [map fst] in Hord. pose proof (orderedKeys_distinct _ _ Hord) as Hdup.
    rewrite <- hasKey_keys in Hdup.
    cbn [fold_left fst snd hasKey getOwn].
    destruct (IH (orderedKeys_tail _ _ Hord) (setProp k0 v0 base)) as [-> ->].
    rewrite hasKey_setProp, getOwn_setProp.
    destruct (jsstring_eqb k k0) eqn:E.
    + apply jsstring_eqb_eq in E. subst k0. rewrite Hdup. now split.
    + now split.
Qed.

Lemma spread_copy props :
  orderedKeys (map fst props) = true -> spread props [] = props.
Proof. apply spread_self. Qed.

Lemma js_neq (a b : string) :
  jsstring_eqb (js a) (js b) = false -> js a <> js b.
Proof. apply jsstring_eqb_neq. Qed.

Section TourEditorFacts.

Variable toLowerCase : jsstring -> jsstring.
Variable engineMessage : Exn -> jsstring.
Variable t : jsstring -> jsstring.


(** X8. An answer of the model to the prompt of the basic tab, or of the
    master box, is spread over the form: a key of the answer takes the
    value of the answer, whole, and every other key keeps its value; one
    success toast is shown.  A failed attempt leaves the form as it was
    and shows the error.  Neither calls [onSave], and [isSaving] is
    [false] at the end. *)
Theorem generated_answer_spreads_over_form prompt net w st :
  isEmpty (trim prompt) = false ->
  orderedKeys (map fst (formData st)) = true ->
  let basic := handleAIGenerateBasicInfo engineMessage t prompt net (w, st) in
  let master := handleMasterAIGenerate engineMessage t prompt net (w, st) in
  formData (snd basic) = formData (snd master)
  /\ isSaving (snd master) = false /\ isSaving (snd basic) = false
  /\ onSaveCalls (fst master) = onSaveCalls w
  /\ onSaveCalls (fst basic) = onSaveCalls w
  /\ match callOpenRouter_try net with
     | Returned data =>
         (forall k,
            getOwn k (formData (snd master))
            = if hasKey k (ownEntries data) then getOwn k (ownEntries data)
              else getOwn k (formData st))
         /\ saveToasts (fst basic)
            = saveToasts w ++ [(t (js "aiAutoFillSuccess"), ToastType.success)]
         /\ saveToasts (fst master)
            = saveToasts w ++ [(t (js "masterSuccess"), ToastType.success)]
     | Thrown _ =>
         formData (snd master) = formData st
         /\ saveToasts (fst basic)
            = saveToasts w ++ [(generationFailed, ToastType.error)]
         /\ saveToasts (fst master)
            = saveToasts w ++ [(generationFailed, ToastType.error)]
     end.
Proof.
  intros Hprompt Hord.
  unfold handleAIGenerateBasicInfo, handleMasterAIGenerate, generateIntoForm.
  rewrite Hprompt. unfold callOpenRouter.
  destruct (callOpenRouter_try net) as [data|e] eqn:E;
    cbn [snd fst setIsSaving setFormData formData isSaving tourToast
         saveToasts onSaveCalls messageOf].
  - repeat split; trivial. intros k.
    rewrite (spread_copy _ Hord).
    exact (proj2 (spread_lookup k (ownEntries data)
                    (ownEntries_ordered _
                       (isDocument_wellKeyed _ (callOpenRouter_try_document _ _ E)))
                    (formData st))).
  - repeat split; trivial.
Qed.

End TourEditorFacts.


Lemma generated_answer_spreads_over_form_witness :
  let st := draft "Old title" "old-title" in
  let w := {| saveToasts := []; onSaveCalls := [] |} in
  let net := answer (js "{" ++ quoted "title" ++ js ": " ++ quoted "Petra by night" ++ js "}") in
  let after := handleMasterAIGenerate sampleEngine identityTranslation
                 (js "rename it") net (w, st) in
  getOwn (js "title") (formData (snd after)) = VString (js "Petra by night")
  /\ getOwn (js "slug") (formData (snd after)) = VString (js "old-title")
  /\ isSaving (snd after) = false.
Proof.
  intros st w net after.
  assert (Hnet : callOpenRouter_try net
                 = Returned (VObject [(js "title", VString (js "Petra by night"))]))
    by (vm_compute; reflexivity).
  pose proof (generated_answer_spreads_over_form sampleEngine identityTranslation
                (js "rename it") net w st eq_refl eq_refl) as H.
  cbn zeta in H.
  destruct H as (_ & Hs & _ & _ & _ & H). rewrite Hnet in H.
  destruct H as (Hk & _ & _).
  split; [exact (Hk (js "title"))|]. split; [exact (Hk (js "slug"))|exact Hs].
Defined.
Section FieldFacts.

Variable engineMessage : Exn -> jsstring.

(** X9. A commit in the editor of one field stores the value under that
    key and leaves every other key of the form as it was, the keys staying
    in order; the editor model of that field sees the same Document and
    the same [value] prop as the form. *)
Theorem field_commit_changes_one_field key val st k :
  orderedKeys (map fst (formData st)) = true ->
  let st' := fieldOnChange key val st in
  getOwn k (formData st')
  = (if jsstring_eqb k key then val else getOwn k (formData st))
  /\ orderedKeys (map fst (formData st')) = true
  /\ valueProp (worldOfField key st) = fieldValue key st
  /\ document (onChange val (worldOfField key st)) = getOwn key (formData st')
  /\ valueProp (onChange val (worldOfField key st)) = fieldValue key st'.
Proof.
  intros Hord st'. unfold st', fieldOnChange. cbn [setFormData formData].
  rewrite (spread_copy _ Hord).
  assert (Hkey : getOwn key (setProp key val (formData st)) = val)
    by now rewrite getOwn_setProp, jsstring_eqb_refl.
  split; [apply getOwn_setProp|]. split; [now apply setProp_ordered|].
  split; [reflexivity|]. split; [now rewrite Hkey|].
  unfold valueProp, fieldValue, emptyDocument, emptyObject.
  cbn [onChange worldOfField document fieldKey formData setFormData].
  now rewrite Hkey.
Qed.

End FieldFacts.

Lemma field_commit_changes_one_field_witness :
  let st := draft "Petra" "petra" in
  let st' := fieldOnChange (js "pricing_data") (basePrice "15" 3) st in
  getOwn (js "pricing_data") (formData st') = basePrice "15" 3
  /\ getOwn (js "title") (formData st') = VString (js "Petra").
Proof.
  intros st st'.
  split.
  - exact (proj1 (field_commit_changes_one_field (js "pricing_data")
                    (basePrice "15" 3) st (js "pricing_data") eq_refl)).
  - exact (proj1 (field_commit_changes_one_field (js "pricing_data")
                    (basePrice "15" 3) st (js "title") eq_refl)).
Defined.


(** ** [AIAssistedEditor]: copy, request, bookkeeping *)

Lemma valueProp_isDocument w :
  isDocument (document w) = true -> isDocument (valueProp w) = true.
Proof.
  intros H. unfold valueProp, jsOr. destruct (truthy (document w)); trivial.
  unfold emptyDocument. now destruct (jsstring_eqb _ _).
Qed.

Lemma valueProp_jsonNumbers w :
  jsonNumbers (document w) = true -> jsonNumbers (valueProp w) = true.
Proof.
  intros H. unfold valueProp, jsOr. destruct (truthy (document w)); trivial.
  unfold emptyDocument. now destruct (jsstring_eqb _ _).
Qed.

(** X11. The copy button hands the clipboard the text that raw mode shows
    on entering it, shows one success toast and changes neither the
    Document nor the editor; for a Document that JSON can write, the copied
    text parses back to the [value] prop. *)
Theorem copied_text_is_raw_text w st :
  mode st = preview ->
  isDocument (document w) = true -> jsonNumbers (document w) = true ->
  let '(text, w') := handleCopy w in
  text = rawText (snd (setMode raw (w, st)))
  /\ JSON_parse text = Some (valueProp w)
  /\ document w' = document w
  /\ onChangeCalls w' = onChangeCalls w
  /\ toasts w' = toasts w ++ [(js "Data Copied", ToastType.success)].
Proof.
  intros Hmode Hdoc Hnum. unfold handleCopy.
  rewrite (setMode_raw_from_preview w st Hmode). cbn [snd rawText].
  repeat split; trivial.
  apply prettyPrint_parses.
  - now apply valueProp_isDocument.
  - now apply valueProp_jsonNumbers.
Qed.

Lemma copied_text_is_raw_text_witness :
  let w := pricingWorld (basePrice "15" 3) in
  fst (handleCopy w) = rawText (snd (setMode raw (w, initialEditor)))
  /\ JSON_parse (fst (handleCopy w)) = Some (basePrice "15" 3).
Proof.
  intros w.
  pose proof (copied_text_is_raw_text w initialEditor eq_refl eq_refl eq_refl) as H.
  destruct (handleCopy w) as [text w'] eqn:E. cbn [fst].
  destruct H as (H1 & H2 & _). split; [exact H1|exact H2].
Defined.

(** X12. The body of the request is a JSON text that parses back to the
    request: the model name and the two messages, the system prompt in the
    first and the user prompt in the second, as they were given, whatever
    characters they hold. *)
Theorem request_body_round_trip systemPrompt userPrompt :
  JSON_parse (requestBody systemPrompt userPrompt)
  = Some (chatRequest systemPrompt userPrompt)
  /\ match JSON_parse (requestBody systemPrompt userPrompt) with
     | Some request =>
         let content i :=
           andThen (getProp request (js "messages")) (fun messages =>
           andThen (getProp messages (decimal i)) (fun message =>
           getProp message (js "content"))) in
         content 0%N = Returned (VString systemPrompt)
         /\ content 1%N = Returned (VString userPrompt)
     | None => False
     end.
Proof.
  assert (H : JSON_parse (requestBody systemPrompt userPrompt)
              = Some (chatRequest systemPrompt userPrompt)).
  { unfold requestBody.
    destruct (JSON_parse_stringify (chatRequest systemPrompt userPrompt) 0
                eq_refl eq_refl) as (text & -> & Hparse).
    exact Hparse. }
  split; [exact H|]. rewrite H. split; reflexivity.
Qed.

Section GenerationFacts.

Variable engineMessage : Exn -> jsstring.

(** X13. However the network answers, a generation attempt ends with
    [isProcessing] reset and the mode unchanged.  A success empties the
    prompt and logs nothing; a failure keeps the prompt, the raw text and
    the inline error, and logs the one exception that was caught.  A blank
    prompt does nothing at all. *)
Theorem generation_bookkeeping net w st :
  let after := handleAIGenerate engineMessage net (w, st) in
  if isEmpty (trim (prompt st)) then after = (w, st)
  else
    isProcessing (snd after) = false
    /\ mode (snd after) = mode st
    /\ match callOpenRouter_try net with
       | Returned _ =>
           prompt (snd after) = []
           /\ consoleErrors (fst after) = consoleErrors w
       | Thrown e =>
           prompt (snd after) = prompt st
           /\ rawText (snd after) = rawText st
           /\ error (snd after) = error st
           /\ consoleErrors (fst after) = consoleErrors w ++ [e]
       end.
Proof.
  unfold handleAIGenerate, handleAIGenerate_start.
  destruct (isEmpty (trim (prompt st))); [reflexivity|].
  unfold handleAIGenerate_resume, callOpenRouter.
  destruct (callOpenRouter_try net) as [data|e]; cbn.
  - destruct (mode st) eqn:Em; cbn; rewrite ?app_nil_r, ?Em; auto.
  - repeat split.
Qed.

(** *** The Document stays a Document *)

Lemma editorEvent_document ws e :
  isDocument (document (fst ws)) = true ->
  Forall (fun v => isDocument v = true) (onChangeCalls (fst ws)) ->
  isDocument (document (fst (editorEvent engineMessage ws e))) = true
  /\ Forall (fun v => isDocument v = true)
       (onChangeCalls (fst (editorEvent engineMessage ws e))).
Proof.
  destruct ws as [w st]. cbn [fst]. intros Hdoc Hcalls.
  destruct e as [m|text| |text|net|]; cbn [editorEvent fst snd].
  - unfold setMode. now destruct (Mode_eqb (mode st) m).
  - unfold handleRawChange. now destruct (JSON_parse text).
  - unfold handleRawBlur.
    destruct (JSON_parse (rawText st)) as [parsed|] eqn:E; [|now split].
    pose proof (JSON_parse_document _ _ E) as Hp.
    cbn [fst onChange document onChangeCalls]. split; trivial.
    apply Forall_app. split; trivial. now constructor.
  - now split.
  - unfold handleAIGenerate, handleAIGenerate_start.
    destruct (isEmpty (trim (prompt st))); [now split|].
    unfold handleAIGenerate_resume, callOpenRouter.
    destruct (callOpenRouter_try net) as [data|e] eqn:E.
    + pose proof (callOpenRouter_try_document _ _ E) as Hp.
      cbn [fst onChange document onChangeCalls toast consoleError].
      split; trivial. apply Forall_app. split; trivial. now constructor.
    + now split.
  - now split.
Qed.


End GenerationFacts.

(** ** [ToastProvider] *)

Lemma In_removeFirst x fired pending :
  x <> fired -> In x pending -> In x (ToastProvider.removeFirst fired pending).
Proof.
  intros Hx. induction pending as [|y r IH]; [intros []|].
  cbn [ToastProvider.removeFirst]. intros [->|Hin].
  - apply jsstring_eqb_neq in Hx. rewrite Hx. now left.
  - destruct (jsstring_eqb y fired); [exact Hin|right; auto].
Qed.

Lemma toast_step_invariant s e :
  Forall (fun t => In (ToastProvider.id t) (ToastProvider.timers s))
    (ToastProvider.toasts s) ->
  Forall (fun t => In (ToastProvider.id t)
                     (ToastProvider.timers (ToastProvider.step s e)))
    (ToastProvider.toasts (ToastProvider.step s e)).
Proof.
  intros H. destruct e as [now message type|fired]; cbn [ToastProvider.step].
  - unfold ToastProvider.addToast.
    cbn [ToastProvider.toasts ToastProvider.timers].
    apply Forall_app. split.
    + eapply Forall_impl; [|exact H]. intros t Ht. apply in_or_app. now left.
    + constructor; [|constructor]. cbn [ToastProvider.id].
      apply in_or_app. right. now left.
  - unfold ToastProvider.timeout.
    destruct (existsb (jsstring_eqb fired) (ToastProvider.timers s)); trivial.
    cbn [ToastProvider.toasts ToastProvider.timers].
    rewrite Forall_forall in *. intros t Ht.
    apply filter_In in Ht as [Hin Hid]. apply negb_true_iff in Hid.
    apply jsstring_eqb_neq in Hid. apply In_removeFirst; auto.
Qed.

(** X15. Every toast on display has a timeout pending that will remove
    it: once all the timeouts have fired, no toast is left.  The [id] of a
    toast is the millisecond in which it was added, so two toasts added in
    the same millisecond leave together, when the first of their two
    timeouts fires. *)
Theorem toasts_have_timers es now m1 t1 m2 t2 :
  let s := ToastProvider.run es in
  Forall (fun t => In (ToastProvider.id t) (ToastProvider.timers s))
    (ToastProvider.toasts s)
  /\ (ToastProvider.timers s = [] -> ToastProvider.toasts s = [])
  /\ (let twice :=
        ToastProvider.addToast now m2 t2
          (ToastProvider.addToast now m1 t1 ToastProvider.initial) in
      let fired := ToastProvider.timeout (decimal now) twice in
      List.length (ToastProvider.toasts twice) = 2
      /\ ToastProvider.toasts fired = []
      /\ ToastProvider.timers fired = [decimal now]).
Proof.
  intros s.
  assert (H : Forall (fun t => In (ToastProvider.id t) (ToastProvider.timers s))
                (ToastProvider.toasts s)).
  { unfold s, ToastProvider.run.
    assert (H0 : Forall (fun t => In (ToastProvider.id t)
                                    (ToastProvider.timers ToastProvider.initial))
                   (ToastProvider.toasts ToastProvider.initial)) by constructor.
    revert H0. generalize ToastProvider.initial.
    induction es as [|e es IH]; intros s0 H0; trivial.
    cbn [fold_left]. apply IH. now apply toast_step_invariant. }
  split; [exact H|]. split.
  - intros Ht. rewrite Ht in H. destruct (ToastProvider.toasts s) as [|t r]; trivial.
    inversion H as [|? ? Hin _]. destruct Hin.
  - cbn zeta. unfold ToastProvider.timeout, ToastProvider.addToast.
    cbn [ToastProvider.toasts ToastProvider.timers ToastProvider.initial app
         existsb filter ToastProvider.id ToastProvider.removeFirst List.length].
    rewrite ?jsstring_eqb_refl.
    cbn [orb negb filter ToastProvider.id ToastProvider.removeFirst].
    rewrite ?jsstring_eqb_refl. cbn [negb]. now repeat split.
Qed.

Lemma toasts_have_timers_witness :
  let s := ToastProvider.run
             [ToastProvider.Add 1700000000000 (js "Update successful")
                (Some ToastType.success);
              ToastProvider.Add 1700000000950 (js "Data Copied") None;
              ToastProvider.Fire (js "1700000000000");
              ToastProvider.Fire (js "1700000000950")] in
  ToastProvider.timers s = [] /\ ToastProvider.toasts s = [].
Proof.
  intros s.
  assert (Ht : ToastProvider.timers s = []) by (vm_compute; reflexivity).
  split; [exact Ht|].
  exact (proj1 (proj2 (toasts_have_timers
                         [ToastProvider.Add 1700000000000 (js "Update successful")
                            (Some ToastType.success);
                          ToastProvider.Add 1700000000950 (js "Data Copied") None;
                          ToastProvider.Fire (js "1700000000000");
                          ToastProvider.Fire (js "1700000000950")]
                         0 [] None [] None)) Ht).
Defined.

(** ** [App]: sorting and paging *)

(** X16. A click on a column header makes it the sort column.  On a new
    column the order is ascending; on the current one the order is reversed,
    so two clicks on the current column restore the state, and three clicks
    on any column are one click. *)
Theorem handleSort_toggles col st :
  App.sortCol (handleSort col st) = col
  /\ App.sortAsc (handleSort col st)
     = (if jsstring_eqb (App.sortCol st) col then negb (App.sortAsc st) else true)
  /\ handleSort col (handleSort col (handleSort col st)) = handleSort col st
  /\ (if jsstring_eqb (App.sortCol st) col
      then handleSort col (handleSort col st) = st
      else handleSort col (handleSort col st)
           = App.setSortAsc false (App.setSortCol col st))
  /\ App.page (handleSort col st) = App.page st
  /\ App.tours (handleSort col st) = App.tours st.
Proof.
  destruct st as [tours loading err search editing did dtext page perPage sc sa total].
  unfold handleSort. cbn [App.sortCol App.sortAsc].
  destruct (jsstring_eqb sc col) eqn:E.
  - apply jsstring_eqb_eq in E. subst sc.
    cbn [App.setSortAsc App.setSortCol App.sortCol App.sortAsc App.page App.tours
         App.loading App.error App.debouncedSearch App.editingTour App.deleteId
         App.deleteConfirmText App.perPage App.totalCount].
    rewrite !jsstring_eqb_refl.
    cbn [App.setSortAsc App.setSortCol App.sortCol App.sortAsc App.page App.tours
         App.loading App.error App.debouncedSearch App.editingTour App.deleteId
         App.deleteConfirmText App.perPage App.totalCount].
    rewrite !negb_involutive, ?jsstring_eqb_refl. repeat split.
  - cbn [App.setSortAsc App.setSortCol App.sortCol App.sortAsc App.page App.tours
         App.loading App.error App.debouncedSearch App.editingTour App.deleteId
         App.deleteConfirmText App.perPage App.totalCount].
    rewrite !jsstring_eqb_refl.
    cbn [App.setSortAsc App.setSortCol App.sortCol App.sortAsc App.page App.tours
         App.loading App.error App.debouncedSearch App.editingTour App.deleteId
         App.deleteConfirmText App.perPage App.totalCount negb].
    rewrite ?jsstring_eqb_refl. repeat split.
Qed.
Lemma pageInRange_spec st :
  pageInRange st = true
  <-> (1 <= App.page st
       /\ (App.page st = 1
           \/ (App.page st - 1) * App.perPage st < App.totalCount st))%Z.
Proof.
  unfold pageInRange.
  rewrite andb_true_iff, orb_true_iff, Z.leb_le, Z.eqb_eq, Z.ltb_lt. tauto.
Qed.

Lemma offeredSize_spec n :
  offeredSize (SelectPerPage n) = true -> (n = 10 \/ n = 25 \/ n = 50)%Z.
Proof.
  cbn [offeredSize]. rewrite !orb_true_iff, !Z.eqb_eq. tauto.
Qed.

Lemma pagerEvent_invariant st e :
  (0 < App.perPage st)%Z -> offeredSize e = true -> pageInRange st = true ->
  (0 < App.perPage (pagerEvent st e))%Z
  /\ pageInRange (pagerEvent st e) = true
  /\ App.totalCount (pagerEvent st e) = App.totalCount st.
Proof.
  intros Hper Hsize Hin. apply pageInRange_spec in Hin.
  destruct e as [| |n]; cbn [pagerEvent].
  - unfold prevDisabled. destruct (Z.eqb_spec (App.page st) 1) as [E|E].
    + split; [exact Hper|]. split; [now apply pageInRange_spec|reflexivity].
    + split; [exact Hper|]. split; [|reflexivity].
      apply pageInRange_spec. cbn [App.setPage App.page App.perPage App.totalCount].
      split; [lia|]. right. nia.
  - unfold nextDisabled.
    destruct (Z.geb_spec (App.page st * App.perPage st) (App.totalCount st))
      as [E|E].
    + split; [exact Hper|]. split; [now apply pageInRange_spec|reflexivity].
    + split; [exact Hper|]. split; [|reflexivity].
      apply pageInRange_spec. cbn [App.setPage App.page App.perPage App.totalCount].
      split; [lia|]. right. nia.
  - apply offeredSize_spec in Hsize.
    cbn [App.setPage App.setPerPage App.page App.perPage App.totalCount].
    split; [lia|]. split; [|reflexivity].
    apply pageInRange_spec. cbn [App.setPage App.page]. split; [lia|now left].
Qed.

(** X17. Starting on a page that shows a row (or on page 1) with a
    positive page size, the Prev and Next buttons and the page-size menu
    never lead to a page beyond the rows: the range asked of the server
    starts at a row that exists, holds [perPage] indices and starts right
    after the range of the page before; and the footer shows a non-empty
    span of at most [perPage] rows that starts at the first index of the
    range.  All the numbers stay below [2^53], where the arithmetic of
    JavaScript is exact. *)
Theorem pager_stays_in_range es st :
  (0 < App.perPage st <= 50)%Z ->
  (0 <= App.totalCount st < 2 ^ 52)%Z ->
  pageInRange st = true ->
  forallb offeredSize es = true ->
  let st' := fold_left pagerEvent es st in
  let '(from, to) := rangeOf st' in
  pageInRange st' = true
  /\ App.totalCount st' = App.totalCount st
  /\ (0 <= from /\ to - from + 1 = App.perPage st'
      /\ fst (rangeOf (App.setPage (App.page st' + 1) st')) = to + 1
      /\ App.page st' * App.perPage st' < 2 ^ 53)%Z
  /\ (0 < App.totalCount st ->
      from < App.totalCount st
      /\ showingFrom st' = from + 1
      /\ showingFrom st' <= showingTo st' <= App.totalCount st
      /\ showingTo st' - showingFrom st' < App.perPage st')%Z.
Proof.
  intros Hper Htotal Hin Hsizes st'.
  assert (H : (0 < App.perPage st' <= 50)%Z /\ pageInRange st' = true
              /\ App.totalCount st' = App.totalCount st).
  { unfold st'. clear st'. revert st Hper Htotal Hin.
    induction es as [|e es IH]; intros st Hper Htotal Hin; [now repeat split|].
    cbn [forallb] in Hsizes. apply andb_true_iff in Hsizes as [He Hes].
    cbn [fold_left].
    destruct (pagerEvent_invariant st e (proj1 Hper) He Hin) as (P1 & P2 & P3).
    assert (P4 : (App.perPage (pagerEvent st e) <= 50)%Z).
    { destruct e as [| |n]; cbn [pagerEvent].
      - destruct (prevDisabled st); cbn; lia.
      - destruct (nextDisabled st); cbn; lia.
      - apply offeredSize_spec in He. cbn. lia. }
    destruct (IH Hes (pagerEvent st e)) as (Q1 & Q2 & Q3); try rewrite P3; auto.
    repeat split; try tauto. now rewrite Q3. }
  destruct H as (Hper' & Hin' & Htot'). unfold rangeOf, showingFrom, showingTo.
  cbn [App.setPage App.page App.perPage fst]. rewrite Htot'.
  apply pageInRange_spec in Hin'. rewrite Htot' in Hin'.
  destruct Hin' as [Hp Hrange].
  assert (Hpow : (2 ^ 53 = 2 * 2 ^ 52)%Z) by reflexivity.
  split; [apply pageInRange_spec; rewrite Htot'; tauto|]. split; [reflexivity|].
  split.
  - repeat split; nia.
  - intros Hpos.
    assert (Hfrom : ((App.page st' - 1) * App.perPage st' < App.totalCount st)%Z)
      by (destruct Hrange as [->|Hr]; lia).
    repeat split; try lia; try nia.
Qed.

Lemma pager_stays_in_range_witness :
  let st := App.setTotalCount 60 App.initial in
  let st' := fold_left pagerEvent
               [ClickNext; ClickNext; ClickNext; ClickPrev; SelectPerPage 50;
                ClickNext; ClickNext] st in
  App.page st' = 2%Z /\ rangeOf st' = (50, 99)%Z
  /\ showingFrom st' = 51%Z /\ showingTo st' = 60%Z /\ pageInRange st' = true.
Proof.
  intros st st'.
  pose proof (pager_stays_in_range
                [ClickNext; ClickNext; ClickNext; ClickPrev; SelectPerPage 50;
                 ClickNext; ClickNext] st
                ltac:(cbn; lia) ltac:(cbn; lia) eq_refl eq_refl) as H.
  cbn zeta in H. fold st' in H.
  assert (E : rangeOf st' = (50, 99)%Z) by reflexivity.
  rewrite E in H. destruct H as (Hin & _).
  split; [reflexivity|]. split; [exact E|]. split; [reflexivity|].
  split; [reflexivity|exact Hin].
Defined.
(** ** [App]: deleting, saving, duplicating *)

(** X18. [handleDelete] does nothing, and sends nothing, unless a tour
    has been picked and the confirmation reads exactly [DELETE].  Otherwise
    it drops from the list every row with the picked id and no other row,
    counts one tour less whatever the list held, closes the dialog and sends
    one delete query; when the query fails it shows the error and asks for
    the list again. *)
Theorem handleDelete_confirmed answer w st :
  let after := handleDelete answer (w, st) in
  if negb (truthy (App.deleteId st))
     || negb (jsstring_eqb (App.deleteConfirmText st) (js "DELETE"))
  then after = (w, st)
  else
    let target := App.deleteId st in
    App.tours (snd after)
    = filter (fun row => negb (strictEquals (getOwn (js "id") row) target))
        (App.tours st)
    /\ Forall (fun row => strictEquals (getOwn (js "id") row) target = false)
         (App.tours (snd after))
    /\ List.length (App.tours (snd after)) <= List.length (App.tours st)
    /\ App.totalCount (snd after) = (App.totalCount st - 1)%Z
    /\ App.deleteId (snd after) = VNull
    /\ App.deleteConfirmText (snd after) = []
    /\ App.editingTour (snd after) = App.editingTour st
    /\ match answer with
       | None =>
           requests (fst after) = requests w ++ [DeleteTour target]
           /\ appToasts (fst after)
              = appToasts w ++ [(js "Tour deleted successfully", ToastType.success)]
           /\ App.loading (snd after) = App.loading st
       | Some err =>
           requests (fst after)
           = requests w
             ++ [DeleteTour target;
                 SelectTours (App.debouncedSearch st) (App.sortCol st)
                   (App.sortAsc st) (fst (rangeOf st)) (snd (rangeOf st))]
           /\ appToasts (fst after)
              = appToasts w ++ [(Supabase.message err, ToastType.error)]
           /\ App.loading (snd after) = true
       end.
Proof.
  unfold handleDelete.
  destruct (negb (truthy (App.deleteId st))
            || negb (jsstring_eqb (App.deleteConfirmText st) (js "DELETE")));
    [reflexivity|].
  assert (Hf : forall l target,
             Forall (fun row => strictEquals (getOwn (js "id") row) target = false)
               (filter (fun row => negb (strictEquals (getOwn (js "id") row) target)) l)).
  { intros l target. apply Forall_forall. intros row Hin.
    apply filter_In in Hin as [_ Hin]. now apply negb_true_iff. }
  destruct answer as [err|]; cbn -[filter rangeOf].
  - rewrite <- app_assoc. repeat split; trivial. apply filter_length_le.
  - repeat split; trivial. apply filter_length_le.
Qed.

Lemma withoutKey_lookup key k (row : Row) :
  hasKey key (withoutKey key row) = false
  /\ (k <> key -> getOwn k (withoutKey key row) = getOwn k row)
  /\ (k <> key -> hasKey k (withoutKey key row) = hasKey k row).
Proof.
  unfold withoutKey. induction row as [|[k0 v0] r (IH1 & IH2 & IH3)];
    [now repeat split|].
  cbn [filter fst]. destruct (jsstring_eqb k0 key) eqn:E; cbn [negb].
  - apply jsstring_eqb_eq in E. subst k0. split; [exact IH1|].
    split; intros Hk; cbn [getOwn hasKey]; apply jsstring_eqb_neq in Hk;
      rewrite Hk; auto; apply IH2 || apply IH3; now apply jsstring_eqb_neq.
  - cbn [hasKey getOwn]. rewrite jsstring_eqb_sym, E, IH1. split; [reflexivity|].
    split; intros Hk; [rewrite (IH2 Hk)|rewrite (IH3 Hk)]; reflexivity.
Qed.

(** X19. A save sends exactly one write.  A tour whose [id] is falsy is
    inserted, the row being the data without an [id] key and with every other
    key as it was; any other tour is updated under its [id].  When the write
    fails, the editor stays open and the list is not asked for again, and
    the code 42501 gets the message about permissions; when it succeeds the
    editor is closed and the list is asked for again. *)
Theorem handleCreateOrUpdate_writes_once tourData answer w st :
  let after := handleCreateOrUpdate tourData answer (w, st) in
  let id := getOwn (js "id") tourData in
  exists write,
    write = (if truthy id then UpdateTour id tourData
             else InsertTour (withoutKey (js "id") tourData))
    /\ (truthy id = false ->
        hasKey (js "id") (withoutKey (js "id") tourData) = false
        /\ forall k, k <> js "id" ->
             getOwn k (withoutKey (js "id") tourData) = getOwn k tourData)
    /\ App.tours (snd after) = App.tours st
    /\ match answer with
       | Some err =>
           requests (fst after) = requests w ++ [write]
           /\ App.editingTour (snd after) = App.editingTour st
           /\ appToasts (fst after)
              = appToasts w
                ++ [(if jsstring_eqb (Supabase.code err) (js "42501")
                     then js "Permission denied: Check Supabase RLS policies."
                     else js "Error: " ++ Supabase.message err,
                     ToastType.error)]
       | None =>
           requests (fst after)
           = requests w
             ++ [write;
                 SelectTours (App.debouncedSearch st) (App.sortCol st)
                   (App.sortAsc st) (fst (rangeOf st)) (snd (rangeOf st))]
           /\ App.editingTour (snd after) = VNull
           /\ appToasts (fst after)
              = appToasts w
                ++ [(js "Tour successfully "
                     ++ (if truthy id then js "updated" else js "created")
                     ++ js "!", ToastType.success)]
       end.
Proof.
  intros after id. eexists. split; [reflexivity|]. split.
  - intros _. split; [apply (withoutKey_lookup (js "id") (js "id"))|].
    intros k Hk. now apply withoutKey_lookup.
  - unfold after, handleCreateOrUpdate. fold id.
    destruct answer as [err|].
    + destruct (jsstring_eqb (Supabase.code err) (js "42501"));
        destruct (truthy id); cbn -[rangeOf withoutKey]; repeat split.
    + destruct (truthy id); cbn -[rangeOf withoutKey]; rewrite <- app_assoc;
        repeat split.
Qed.

Lemma handleCreateOrUpdate_writes_once_witness :
  let form := formData (draft "Petra" "petra") in
  let after := handleCreateOrUpdate form None
                 ({| appToasts := []; requests := [] |},
                  App.setEditingTour (VObject []) App.initial) in
  requests (fst after)
  = [InsertTour form; SelectTours [] (js "id") false 0 24]
  /\ App.editingTour (snd after) = VNull.
Proof.
  intros form after.
  destruct (handleCreateOrUpdate_writes_once form None
              {| appToasts := []; requests := [] |}
              (App.setEditingTour (VObject []) App.initial))
    as (write & Hw & _ & _ & Hreq & Hedit & _).
  fold after in Hreq, Hedit. split; [|exact Hedit].
  rewrite Hreq, Hw. reflexivity.
Defined.
Lemma hasDoubleHyphen_app a b :
  hasDoubleHyphen (a ++ b)
  = hasDoubleHyphen a || hasDoubleHyphen b
    || (endsWithHyphen a && startsWithHyphen b).
Proof.
  induction a as [|c a IH].
  - cbn. now rewrite orb_false_r.
  - cbn [app hasDoubleHyphen]. rewrite IH. destruct a as [|d a'].
    + unfold endsWithHyphen. cbn [app hasDoubleHyphen rev startsWithHyphen].
      destruct b as [|e b']; cbn [hasDoubleHyphen startsWithHyphen].
      * now rewrite !andb_false_r.
      * destruct (isHyphen c), (isHyphen e), (hasDoubleHyphen b');
          destruct b' as [|f b'']; cbn; try reflexivity;
          destruct (isHyphen f); reflexivity.
    + rewrite (endsWithHyphen_cons c (d :: a')) by discriminate.
      cbn [app].
      destruct (isHyphen c && isHyphen d), (hasDoubleHyphen (d :: a')),
        (hasDoubleHyphen b), (endsWithHyphen (d :: a') && startsWithHyphen b);
        reflexivity.
Qed.

Lemma endsWithHyphen_app_r a b :
  b <> [] -> endsWithHyphen (a ++ b) = endsWithHyphen b.
Proof.
  intros Hb. unfold endsWithHyphen. rewrite rev_app_distr.
  destruct (rev b) as [|d r] eqn:E; trivial.
  apply (f_equal (@rev _)) in E. rewrite rev_involutive in E. now subst.
Qed.

Lemma digit_not_hyphen_char c : isDigit c = true -> isHyphen c = false.
Proof. intros H. cu_cases. Qed.

Lemma digit_slugChar c : isDigit c = true -> isSlugChar c = true.
Proof. intros H. cu_cases. Qed.

Lemma forallb_implies {A} (p q : A -> bool) l :
  (forall x, p x = true -> q x = true) -> forallb p l = true -> forallb q l = true.
Proof.
  intros Hpq. rewrite !forallb_forall. auto.
Qed.

Lemma digits_no_double_hyphen s :
  forallb isDigit s = true -> hasDoubleHyphen s = false.
Proof.
  induction s as [|c r IH]; trivial. cbn [forallb hasDoubleHyphen]. intros H.
  apply andb_true_iff in H as [Hc Hr].
  now rewrite (digit_not_hyphen_char c Hc), IH.
Qed.

Lemma copy_suffix_slug slug n :
  wellFormedSlug slug = true -> slug <> [] ->
  wellFormedSlug (slug ++ js "-copy-" ++ decimal n) = true.
Proof.
  unfold wellFormedSlug. intros H Hne.
  apply andb_true_iff in H as [H He]. apply andb_true_iff in H as [H Hs].
  apply andb_true_iff in H as [Hc Hd].
  apply negb_true_iff in He, Hs, Hd.
  pose proof (decimal_digits n) as Dn. pose proof (decimal_nonempty n) as Nn.
  assert (Hstart : startsWithHyphen (decimal n) = false).
  { destruct (decimal n) as [|c r]; trivial. cbn [forallb] in Dn.
    apply andb_true_iff in Dn as [Dc _]. now apply digit_not_hyphen_char. }
  assert (Hend : endsWithHyphen (decimal n) = false).
  { unfold endsWithHyphen.
    assert (Dr : forallb isDigit (rev (decimal n)) = true).
    { rewrite forallb_forall in *. intros x Hx. apply Dn. now apply in_rev. }
    destruct (rev (decimal n)) as [|c r]; trivial. cbn [forallb] in Dr.
    apply andb_true_iff in Dr as [Dc _]. now apply digit_not_hyphen_char. }
  rewrite !andb_true_iff, !negb_true_iff. repeat split.
  - rewrite !forallb_app, Hc. cbn [andb].
    change (forallb isSlugChar (js "-copy-")) with true. cbn [andb].
    exact (forallb_implies _ _ _ digit_slugChar Dn).
  - rewrite !hasDoubleHyphen_app, Hd, He, Hstart, (digits_no_double_hyphen _ Dn).
    reflexivity.
  - destruct slug; [contradiction|exact Hs].
  - rewrite app_assoc. now rewrite endsWithHyphen_app_r.
Qed.

Lemma decimal_three_digits n :
  (n < 1000)%N -> List.length (decimal n) <= 3.
Proof.
  intros H.
  assert (All : forallb (fun k => Nat.leb (List.length (decimal (N.of_nat k))) 3)
                  (seq 0 1000) = true) by (vm_compute; reflexivity).
  rewrite forallb_forall in All.
  specialize (All (N.to_nat n)). rewrite N2Nat.id in All.
  apply Nat.leb_le, All, in_seq. lia.
Qed.



(** ** [App]: the statistics *)

Lemma number_eqb_sym x y : number_eqb x y = number_eqb y x.
Proof.
  destruct x as [|a|a ds n], y as [|b|b es m]; cbn [number_eqb]; trivial.
  - now destruct a, b.
  - rewrite (andb_comm (isEmpty ds)), (jsstring_eqb_sym ds es), (Z.eqb_sym n m).
    now destruct a, b.
Qed.

Lemma strictEquals_sym a b : strictEquals a b = strictEquals b a.
Proof.
  destruct a, b; cbn [strictEquals]; trivial.
  - now destruct b0, b.
  - apply number_eqb_sym.
  - apply jsstring_eqb_sym.
Qed.

Lemma sameValueZero_sym a b : sameValueZero a b = sameValueZero b a.
Proof.
  unfold sameValueZero.
  destruct a as [| | |x| | |], b as [| | |y| | |];
    try apply strictEquals_sym;
    try (destruct x; apply strictEquals_sym);
    try (destruct y; apply strictEquals_sym).
  destruct x, y; trivial; apply strictEquals_sym.
Qed.

Lemma distinctValues_snoc seen v :
  distinctValues seen = true -> existsb (sameValueZero v) seen = false ->
  distinctValues (seen ++ [v]) = true.
Proof.
  induction seen as [|s r IH]; [trivial|]. cbn [distinctValues existsb app].
  intros H Hv. apply andb_true_iff in H as [Hs Hr].
  apply orb_false_iff in Hv as [Hvs Hvr].
  rewrite (IH Hr Hvr), andb_true_r, existsb_app. cbn [existsb].
  apply negb_true_iff in Hs. now rewrite Hs, sameValueZero_sym, Hvs.
Qed.

Lemma newSet_spec values :
  forall seen,
    distinctValues seen = true ->
    let set := newSet values seen in
    distinctValues set = true
    /\ (forall x, In x set -> In x seen \/ In x values)
    /\ (forall x, In x seen -> In x set)
    /\ (forall v, In v values ->
          exists x, In x set /\ (x = v \/ sameValueZero v x = true))
    /\ List.length set <= List.length seen + List.length values.
Proof.
  induction values as [|v rest IH]; intros seen Hseen.
  - cbn. repeat split; auto; [intros v []|lia].
  - cbn [newSet]. destruct (existsb (sameValueZero v) seen) eqn:E.
    + destruct (IH seen Hseen) as (D & Sub & Keep & All & Len). cbn zeta.
      split; [exact D|]. split; [|split; [exact Keep|split]].
      * intros x Hx. destruct (Sub x Hx); [now left|right; now right].
      * intros u [<-|Hu]; [|now apply All].
        apply existsb_exists in E as (x & Hx & Hvx).
        exists x. split; [now apply Keep|now right].
      * cbn [List.length]. lia.
    + destruct (IH (seen ++ [v]) (distinctValues_snoc _ _ Hseen E))
        as (D & Sub & Keep & All & Len). cbn zeta.
      split; [exact D|]. split; [|split; [|split]].
      * intros x Hx. destruct (Sub x Hx) as [Hin|Hin]; [|right; now right].
        apply in_app_or in Hin as [Hin|[<-|[]]]; [now left|right; now left].
      * intros x Hx. apply Keep, in_or_app. now left.
      * intros u [<-|Hu]; [|now apply All].
        exists v. split; [|now left]. apply Keep, in_or_app. right. now left.
      * rewrite length_app in Len. cbn [List.length] in *. lia.
Qed.

(** X21. The destinations offered by the form and counted on the dashboard
    are the truthy [primary_destination] values of the rows on display, each
    once, in the order of their first row; there are at most as many of them
    as rows, and likewise for the count of tour types. *)
Theorem existingDestinations_distinct tours :
  let ds := existingDestinations tours in
  distinctValues ds = true
  /\ Forall (fun d => truthy d = true
                      /\ exists row, In row tours
                                     /\ getOwn (js "primary_destination") row = d) ds
  /\ Forall (fun row =>
               let d := getOwn (js "primary_destination") row in
               truthy d = false
               \/ exists x, In x ds /\ (x = d \/ sameValueZero d x = true)) tours
  /\ List.length ds <= List.length tours
  /\ uniqueTypes tours <= List.length tours.
Proof.
  intros ds. unfold ds, existingDestinations, uniqueTypes.
  set (values := filter truthy (map (getOwn (js "primary_destination")) tours)).
  destruct (newSet_spec values [] eq_refl) as (D & Sub & _ & All & Len).
  cbn zeta in *. split; [exact D|]. split; [|split; [|split]].
  - apply Forall_forall. intros d Hd. destruct (Sub d Hd) as [[]|Hin].
    unfold values in Hin. apply filter_In in Hin as [Hin Ht].
    split; [exact Ht|]. apply in_map_iff in Hin as (row & <- & Hrow).
    now exists row.
  - apply Forall_forall. intros row Hrow. cbn zeta.
    destruct (truthy (getOwn (js "primary_destination") row)) eqn:Ht;
      [right|now left].
    apply All. unfold values. apply filter_In. split; [|exact Ht].
    now apply in_map.
  - cbn [List.length] in Len. unfold values in Len |- *.
    pose proof (filter_length_le truthy
                  (map (getOwn (js "primary_destination")) tours)) as L.
    rewrite length_map in L. cbn [Nat.add] in Len.
    exact (Nat.le_trans _ _ _ Len L).
  - destruct (newSet_spec (filter truthy (map (getOwn (js "tour_type")) tours))
                [] eq_refl) as (_ & _ & _ & _ & Len').
    cbn zeta in Len'. cbn [List.length] in Len'.
    pose proof (filter_length_le truthy (map (getOwn (js "tour_type")) tours)) as L.
    rewrite length_map in L. cbn [Nat.add] in Len'.
    exact (Nat.le_trans _ _ _ Len' L).
Qed.
(** ** [App]: the list after a failed delete *)

(** X22. A fetch that succeeds replaces the list and the count by what the
    server sent (an empty list and 0 for [null]); one that fails keeps both
    and stores and shows the error; either way [loading] ends [false].  So
    after a delete that the server refused, the list that had lost the row
    and the count that had lost one are what the next successful fetch
    sends, and stay as they are if that fetch fails too. *)
Theorem fetch_after_failed_delete err page w st :
  truthy (App.deleteId st) = true ->
  App.deleteConfirmText st = js "DELETE" ->
  let deleted := handleDelete (Some err) (w, st) in
  let after := fetchTours_resume page deleted in
  App.loading (snd deleted) = true
  /\ App.loading (snd after) = false
  /\ match pageError page with
     | None =>
         App.tours (snd after)
         = match pageRows page with Some rows => rows | None => [] end
         /\ App.totalCount (snd after)
            = match pageCount page with Some n => n | None => 0%Z end
         /\ App.error (snd after) = App.error st
         /\ appToasts (fst after) = appToasts (fst deleted)
     | Some failure =>
         App.tours (snd after) = App.tours (snd deleted)
         /\ App.totalCount (snd after) = (App.totalCount st - 1)%Z
         /\ App.error (snd after) = Supabase.message failure
         /\ appToasts (fst after)
            = appToasts (fst deleted) ++ [(Supabase.message failure, ToastType.error)]
     end.
Proof.
  intros Hid Htext. unfold handleDelete. rewrite Hid, Htext.
  change (jsstring_eqb (js "DELETE") (js "DELETE")) with true. cbn [negb orb].
  unfold fetchTours_resume, fetchTours_start.
  destruct (pageError page) as [failure|]; cbn -[filter rangeOf]; repeat split.
Qed.

Lemma fetch_after_failed_delete_witness :
  let row := [(js "id", VString (js "a1")); (js "title", VString (js "Petra"))] in
  let st := App.setDeleteConfirmText (js "DELETE")
              (App.setDeleteId (VString (js "a1"))
                 (App.setTotalCount 1 (App.setTours [row] App.initial))) in
  let w := {| appToasts := []; requests := [] |} in
  let err := {| Supabase.code := js "42501"; Supabase.message := js "denied" |} in
  let page := {| pageRows := Some [row]; pageCount := Some 1%Z; pageError := None |} in
  App.tours (snd (handleDelete (Some err) (w, st))) = []
  /\ App.tours (snd (fetchTours_resume page (handleDelete (Some err) (w, st)))) = [row].
Proof.
  intros row st w err page. split; [reflexivity|].
  pose proof (fetch_after_failed_delete err page w st eq_refl eq_refl) as H.
  cbn zeta in H. destruct H as (_ & _ & H). cbn [pageError page] in H.
  exact (proj1 H).
Defined.

(** ** A new tour, from the button to the insert *)

Lemma withoutKey_absent key (row : Row) :
  hasKey key row = false -> withoutKey key row = row.
Proof.
  unfold withoutKey. induction row as [|[k v] r IH]; trivial.
  cbn [hasKey filter fst]. intros H. apply orb_false_iff in H as [Hk Hr].
  rewrite jsstring_eqb_sym, Hk. cbn [negb]. now rewrite IH.
Qed.

Lemma handleCreateOrUpdate_fresh (form : Row) answer aw ast :
  hasKey (js "id") form = false ->
  let after := handleCreateOrUpdate form answer (aw, ast) in
  (answer = None ->
   requests (fst after)
   = requests aw
     ++ [InsertTour form;
         SelectTours (App.debouncedSearch ast) (App.sortCol ast)
           (App.sortAsc ast) (fst (rangeOf ast)) (snd (rangeOf ast))])
  /\ (answer = None -> App.editingTour (snd after) = VNull).
Proof.
  intros Hid. unfold handleCreateOrUpdate.
  rewrite (getOwn_missing _ _ Hid), (withoutKey_absent _ _ Hid).
  cbn [truthy negb]. split; intros ->; cbn -[rangeOf]; trivial.
  now rewrite <- app_assoc.
Qed.

Section NewTour.

Variable toLowerCase : jsstring -> jsstring.

(** X23. The editor of a new tour opens on the blank form, which a save
    refuses.  Once a title with a word character is typed and the slug is
    generated, the form is the blank form with that title and its slug,
    the save hands it to [onSave], and [handleCreateOrUpdate] inserts it as
    it is, with no [id], closes the editor and asks for the list again. *)
Theorem new_tour_is_inserted title w aw ast :
  title <> [] ->
  forallb (fun c => negb (isWordChar c)) (toLowerCase title) = false ->
  let st0 := mountTourEditor (tourProp (VObject [])) in
  let form :=
    [(js "title", VString title);
     (js "slug", VString (slugify toLowerCase title));
     (js "tour_type", VString []); (js "primary_destination", VString []);
     (js "promo_link", VString []);
     (js "content_data", VObject []); (js "logistics_data", VObject []);
     (js "itinerary_data", VArray []); (js "provisions_data", VObject []);
     (js "requirements_data", VObject []); (js "pricing_data", VObject [])] in
  formData st0 = blankForm
  /\ handleSave (w, st0)
     = (saveToast (js "Title and slug are required") w, focusBasic st0)
  /\ exists st1,
       handleSlugGenerate toLowerCase (inputOnChange (js "title") title st0)
       = Returned st1
       /\ formData st1 = form
       /\ handleSave (w, st1)
          = ({| saveToasts := saveToasts w;
                onSaveCalls := onSaveCalls w ++ [form] |}, setIsSaving true st1)
       /\ let after := handleCreateOrUpdate form None (aw, ast) in
          requests (fst after)
          = requests aw
            ++ [InsertTour form;
                SelectTours (App.debouncedSearch ast) (App.sortCol ast)
                  (App.sortAsc ast) (fst (rangeOf ast)) (snd (rangeOf ast))]
          /\ App.editingTour (snd after) = VNull.
Proof.
  intros Hne Hword st0 form.
  split; [reflexivity|]. split; [reflexivity|].
  assert (Htruthy : truthy (VString title) = true) by now destruct title.
  assert (Hslug : slugify toLowerCase title <> []).
  { intros E. apply slugify_empty in E. congruence. }
  unfold handleSlugGenerate, inputOnChange.
  change (formData st0) with blankForm.
  change (spread blankForm []) with blankForm.
  change (setProp (js "title") (VString title) blankForm)
    with ((js "title", VString title) :: tl blankForm).
  cbn [setFormData formData getOwn tl blankForm].
  change (jsstring_eqb (js "title") (js "title")) with true. cbv iota.
  rewrite Htruthy. cbn [slugifyValue toStringMethod ToString andThen].
  eexists. split; [reflexivity|].
  cbn [setFormData formData].
  match goal with
  | |- context [setProp (js "slug") ?v ?base] =>
      change (setProp (js "slug") v base) with form
  end.
  split; [reflexivity|]. split.
  - unfold handleSave. cbn [formData slugError setFormData st0 mountTourEditor].
    unfold form at 1 2. cbn [getOwn].
    change (jsstring_eqb (js "title") (js "title")) with true.
    change (jsstring_eqb (js "slug") (js "title")) with false.
    change (jsstring_eqb (js "slug") (js "slug")) with true. cbv iota.
    rewrite Htruthy.
    destruct (slugify toLowerCase title) eqn:Es; [contradiction|reflexivity].
  - destruct (handleCreateOrUpdate_fresh form None aw ast eq_refl) as [H1 H2].
    split; [exact (H1 eq_refl)|exact (H2 eq_refl)].
Qed.

End NewTour.

Lemma new_tour_is_inserted_witness :
  let w := {| saveToasts := []; onSaveCalls := [] |} in
  exists st1,
    handleSlugGenerate toLowerCaseAscii
      (inputOnChange (js "title") (js "Petra by Night")
         (mountTourEditor (tourProp (VObject [])))) = Returned st1
    /\ getOwn (js "slug") (formData st1) = VString (js "petra-by-night")
    /\ onSaveCalls (fst (handleSave (w, st1))) = [formData st1].
Proof.
  intros w.
  destruct (new_tour_is_inserted toLowerCaseAscii (js "Petra by Night") w
              {| appToasts := []; requests := [] |} App.initial
              ltac:(discriminate) eq_refl)
    as (_ & _ & st1 & Hgen & Hform & Hsave & _).
  exists st1. split; [exact Hgen|]. rewrite Hsave, Hform. split; reflexivity.
Defined.

(** ** [useDebounce] *)

Section DebounceFacts.

Variable A : Type.
Variable sameValue : A -> A -> bool.
Hypothesis sameValue_eq : forall x y, sameValue x y = true -> x = y.

Lemma debounce_invariant (v0 : A) es :
  let s := Debounce.run sameValue v0 es in
  Debounce.value s = Debounce.lastRendered v0 es
  /\ match Debounce.handler s with
     | Some v => v = Debounce.value s
     | None => Debounce.debouncedValue s = Debounce.value s
     end.
Proof.
  unfold Debounce.run, Debounce.lastRendered.
  induction es as [|e es IH] using rev_ind; [now split|].
  rewrite !fold_left_app. cbn [fold_left].
  destruct IH as [Hv Hh]. destruct e as [v|]; cbn [Debounce.step].
  - destruct (sameValue v _) eqn:E.
    + apply sameValue_eq in E. split; [congruence|exact Hh].
    + now split.
  - destruct (Debounce.handler _) as [v|] eqn:Eh; cbn; [|rewrite Eh]; now split.
Qed.

(** X24. Whatever was rendered and whichever timeouts fired, the timeout
    that is pending holds the value of the last render: when it fires, or
    when none is pending, the debounced value is that value.  Renders
    alone, with no timeout in between, leave the debounced value at the
    value of the mount. *)
Theorem useDebounce_settles (v0 : A) es vs :
  let s := Debounce.run sameValue v0 es in
  Debounce.debouncedValue (Debounce.step sameValue s Debounce.Timeout)
  = Debounce.lastRendered v0 es
  /\ Debounce.debouncedValue
       (Debounce.run sameValue v0 (map Debounce.Render vs)) = v0.
Proof.
  split.
  - destruct (debounce_invariant v0 es) as [Hv Hh]. cbn zeta in Hv, Hh.
    cbn [Debounce.step]. rewrite <- Hv.
    destruct (Debounce.handler _); [now subst|exact Hh].
  - unfold Debounce.run.
    assert (H : forall s, Debounce.debouncedValue
                            (fold_left (Debounce.step sameValue)
                               (map Debounce.Render vs) s)
                          = Debounce.debouncedValue s).
    { induction vs as [|v r IH]; intros s; [reflexivity|].
      cbn [map fold_left]. rewrite IH. cbn [Debounce.step].
      now destruct (sameValue v _). }
    now rewrite H.
Qed.

End DebounceFacts.

Lemma useDebounce_settles_witness :
  let typed := [Debounce.Render (js "p"); Debounce.Render (js "pe");
                Debounce.Timeout; Debounce.Render (js "pet")] in
  (forall x y, jsstring_eqb x y = true -> x = y)
  /\ Debounce.debouncedValue (Debounce.run jsstring_eqb [] typed) = js "pe"
  /\ Debounce.debouncedValue
       (Debounce.step jsstring_eqb (Debounce.run jsstring_eqb [] typed)
          Debounce.Timeout) = js "pet".
Proof.
  intros typed.
  assert (Heq : forall x y, jsstring_eqb x y = true -> x = y).
  { intros x y H. unfold jsstring_eqb in H.
    now destruct (list_eq_dec N.eq_dec x y). }
  split; [exact Heq|]. split; [reflexivity|].
  exact (proj1 (useDebounce_settles (list N) jsstring_eqb Heq [] typed [])).
Defined.
